(** * marknotton/helpers: DOM helper utilities

    A shallow embedding of the repository's helpers:

    - [Mutation]: the shared mutation-observer registry
      ([MutationObserverHelper]), and [Managed], the managed observers
      built on the host's observer classes;
    - [Details]: the accordion widget (class [Details]);
    - [CustomProperty]: the CSS custom-property getters and setters;
    - [CloneAttributes]: copying the attributes of one element to another;
    - [Scroll]: the scroll metrics and the scroll animation.

    The browser is the environment of all of them.  Its objects (elements,
    native observers, animations) are modelled by identity: an object lives
    in a store and the closures of the source hold its index, so that two
    holders of one object see each other's updates.  What the source leaves
    to the host (which names [setAttribute] accepts, whether an embedded
    table's [scroll.updateMetrics] exists, the height a closed section's
    content reports) is a parameter of the model. *)

From Stdlib Require Import ZArith Lia Ascii String.
From Stdlib Require QArith Qround.
From stdpp Require Import base gmap sets list strings.

(** * The mutation-observer registry *)

Module Mutation.

(** DOM nodes by identity.  The handler separates [HTMLElement] and
    [SVGElement] instances from every other node (text, comment, other
    element kinds). *)
Inductive Node :=
  | HTMLElement (id : nat)
  | SVGElement (id : nat)
  | OtherNode (id : nat).

#[global] Instance Node_eq_dec : EqDecision Node.
Proof. solve_decision. Defined.

#[global] Instance Node_countable : Countable Node.
Proof.
  refine (inj_countable'
    (λ n, match n with
          | HTMLElement i => inl i
          | SVGElement i => inr (inl i)
          | OtherNode i => inr (inr i)
          end)
    (λ x, match x with
          | inl i => HTMLElement i
          | inr (inl i) => SVGElement i
          | inr (inr i) => OtherNode i
          end) _).
  by intros [].
Defined.

(** [node instanceof HTMLElement || node instanceof SVGElement] *)
Definition isElement (n : Node) : bool :=
  match n with
  | HTMLElement _ | SVGElement _ => true
  | OtherNode _ => false
  end.

(** [document.documentElement], the default root. *)
Definition documentElement : Node := HTMLElement 0.

Inductive MutationType := childList | attributes | characterData.

#[global] Instance MutationType_eq_dec : EqDecision MutationType.
Proof. solve_decision. Defined.

Record MutationRecord := {
  type : MutationType;
  addedNodes : list Node;
  removedNodes : list Node;
}.

(** A [CustomCallback] receives an added element and the [confirm] closure.
    What the registry sees of it is the sequence of elements it passes to
    [confirm] before it returns; a later (asynchronous) call of the same
    closure is the separate operation [confirm] below. *)
Definition CustomCallback := Node → list Node.

Inductive EventType := added | deleted.

#[global] Instance EventType_eq_dec : EqDecision EventType.
Proof. solve_decision. Defined.

(** One dispatched ['mutation'] CustomEvent: the root it is dispatched on
    and its [detail]. *)
Record Notification := {
  target : Node;
  detail_type : EventType;
  detail_element : Node;
}.

#[global] Instance Notification_eq_dec : EqDecision Notification.
Proof. solve_decision. Defined.

(** The native watcher.  Its callback is the closure written in
    [MutationObserverHelper]; the closure captures [callback],
    [autoUnobserve] and [observeElement] of the call that created it.
    [connected] is set by [observe] and cleared by [disconnect]. *)
Record MutationObserver := {
  callback : CustomCallback;
  autoUnobserve : bool;
  observeElement : Node;
  connected : bool;
}.

Record ObserverInfo := {
  confirmedElements : gset Node;
  observer : MutationObserver;
}.

(** The module state: the [observers] map, the store of the [ObserverInfo]
    objects ever created (each holds the one [MutationObserver] its literal
    constructs), and the events dispatched so far.  The map and every
    closure hold an index into [infos]. *)
Record Registry := {
  observers : gmap Node nat;
  infos : list ObserverInfo;
  dispatched : list Notification;
}.

Definition empty : Registry :=
  {| observers := ∅; infos := []; dispatched := [] |}.

Record Options := {
  opt_observeElement : option Node;
  opt_autoUnobserve : option bool;
}.

(** The returned object: its two methods close over [observeElement] and
    [observerInfo]. *)
Record Handle := {
  h_observeElement : Node;
  h_observerInfo : nat;
}.

Definition disconnect (o : MutationObserver) : MutationObserver :=
  {| callback := callback o; autoUnobserve := autoUnobserve o;
     observeElement := observeElement o; connected := false |}.

Definition observe (o : MutationObserver) : MutationObserver :=
  {| callback := callback o; autoUnobserve := autoUnobserve o;
     observeElement := observeElement o; connected := true |}.

Definition set_confirmed (f : gset Node → gset Node) (i : ObserverInfo)
  : ObserverInfo :=
  {| confirmedElements := f (confirmedElements i); observer := observer i |}.

Definition set_observer (f : MutationObserver → MutationObserver)
  (i : ObserverInfo) : ObserverInfo :=
  {| confirmedElements := confirmedElements i; observer := f (observer i) |}.

Definition update_info (l : nat) (f : ObserverInfo → ObserverInfo)
  (s : Registry) : Registry :=
  {| observers := observers s; infos := alter f l (infos s);
     dispatched := dispatched s |}.

(** [triggerEvent(type, node)]: dispatch on [observeElement]. *)
Definition triggerEvent (root : Node) (ty : EventType) (node : Node)
  (s : Registry) : Registry :=
  {| observers := observers s; infos := infos s;
     dispatched := dispatched s ++
       [{| target := root; detail_type := ty; detail_element := node |}] |}.

(** The closure handed to the callback:
    [(el) => { observerInfo?.confirmedElements.add(el); triggerEvent('added', el) }]. *)
Definition confirm (l : nat) (root : Node) (el : Node) (s : Registry)
  : Registry :=
  triggerEvent root added el (update_info l (set_confirmed (λ c, {[el]} ∪ c)) s).

(** Body of [mutation.addedNodes.forEach]. *)
Definition onAdded (l : nat) (node : Node) (s : Registry) : Registry :=
  if isElement node then
    match infos s !! l with
    | Some info =>
        if decide (node ∈ confirmedElements info) then s
        else foldl (λ s' el, confirm l (observeElement (observer info)) el s')
               s (callback (observer info) node)
    | None => s
    end
  else s.

(** Body of [mutation.removedNodes.forEach]. *)
Definition onRemoved (l : nat) (node : Node) (s : Registry) : Registry :=
  if isElement node then
    match infos s !! l with
    | Some info =>
        if decide (node ∈ confirmedElements info) then
          let s1 := update_info l (set_confirmed (λ c, c ∖ {[node]})) s in
          let s2 := triggerEvent (observeElement (observer info)) deleted node s1 in
          if autoUnobserve (observer info)
          then update_info l (set_observer disconnect) s2
          else s2
        else s
    | None => s
    end
  else s.

Definition handleMutation (l : nat) (s : Registry) (m : MutationRecord)
  : Registry :=
  match type m with
  | childList =>
      foldl (λ s' n, onRemoved l n s')
        (foldl (λ s' n, onAdded l n s') s (addedNodes m))
        (removedNodes m)
  | _ => s
  end.

(** The watcher's callback: [for (const mutation of mutationsList)]. *)
Definition handleMutations (l : nat) (mutationsList : list MutationRecord)
  (s : Registry) : Registry :=
  foldl (handleMutation l) s mutationsList.

(** The host runs the callback of a watcher only while it is connected. *)
Definition deliver (l : nat) (mutationsList : list MutationRecord)
  (s : Registry) : Registry :=
  match infos s !! l with
  | Some info =>
      if connected (observer info) then handleMutations l mutationsList s
      else s
  | None => s
  end.

(** [MutationObserverHelper(callback, options)] *)
Definition MutationObserverHelper (cb : CustomCallback) (options : Options)
  (s : Registry) : Handle * Registry :=
  let root := default documentElement (opt_observeElement options) in
  let autoUn := default false (opt_autoUnobserve options) in
  match observers s !! root with
  | Some l => ({| h_observeElement := root; h_observerInfo := l |}, s)
  | None =>
      let l := length (infos s) in
      let info :=
        {| confirmedElements := ∅;
           observer := observe {| callback := cb; autoUnobserve := autoUn;
                                  observeElement := root; connected := false |} |} in
      ({| h_observeElement := root; h_observerInfo := l |},
       {| observers := <[root := l]> (observers s);
          infos := infos s ++ [info];
          dispatched := dispatched s |})
  end.

(** [unobserve(element?)] of a handle. *)
Definition unobserve (h : Handle) (element : option Node) (s : Registry)
  : Registry :=
  match element with
  | Some el => update_info (h_observerInfo h) (set_confirmed (λ c, c ∖ {[el]})) s
  | None =>
      let s1 := update_info (h_observerInfo h) (set_observer disconnect) s in
      {| observers := delete (h_observeElement h) (observers s1);
         infos := infos s1; dispatched := dispatched s1 |}
  end.

(** ** Observations *)

(** Number of native [MutationObserver]s constructed so far. *)
Definition nativeObservers (s : Registry) : nat := length (infos s).

Definition confirmedAt (l : nat) (s : Registry) : gset Node :=
  from_option confirmedElements ∅ (infos s !! l).

Definition connectedAt (l : nat) (s : Registry) : bool :=
  from_option (λ i, connected (observer i)) false (infos s !! l).

(** Number of ['deleted'] events dispatched for [el]. *)
Definition deletedCount (el : Node) (s : Registry) : nat :=
  length (filter (λ n, detail_type n = deleted ∧ detail_element n = el)
            (dispatched s)).

(** A childList record of the batch lists [el] among its removed nodes. *)
Definition hasRemoval (el : Node) (ms : list MutationRecord) : Prop :=
  ∃ m, m ∈ ms ∧ type m = childList ∧ el ∈ removedNodes m.

(** The callback does not pass [el] to [confirm] for any node the batch adds. *)
Definition notReconfirmed (cb : CustomCallback) (el : Node)
  (ms : list MutationRecord) : Prop :=
  ∀ m n, m ∈ ms → n ∈ addedNodes m → el ∉ cb n.

End Mutation.

(** * The accordion widget *)

Module Details.

Open Scope Z_scope.

(** The [<details>] elements of the page, by index.  [summaryHeight] and
    [contentHeight] are the laid-out heights of the two child regions;
    [closedContentHeight] is what the host reports as [content.offsetHeight]
    while the element is closed ([0] where the content of a closed
    [<details>] has no box, its laid-out height where it is laid out but
    not shown).  [tableContainers] lists the [table-container] elements of
    the content, each by whether its [scroll.updateMetrics()] returns: the
    helper is not part of this module, and the call throws where an
    element does not carry it. *)
Record Element := {
  parentElement : option nat;
  tagName : string;
  el_open : bool;
  classList : gset string;
  style_height : option Z;
  style_overflow : string;
  summaryHeight : Z;
  contentHeight : Z;
  closedContentHeight : Z;
  tableContainers : list bool;
}.

(** The fields of a [Details] instance that change after construction. *)
Record Instance := {
  animation : option nat;
  isClosing : bool;
  isExpanding : bool;
  siblings : list nat;
}.

(** Which pair of [onfinish]/[oncancel] handlers an animation carries:
    those installed by [expand] or those installed by [shrink]. *)
Inductive Handlers := ByExpand | ByShrink.

Inductive PlayState := Running | Finished | Idle.

#[global] Instance PlayState_eq_dec : EqDecision PlayState.
Proof. solve_decision. Defined.

#[global] Instance Handlers_eq_dec : EqDecision Handlers.
Proof. solve_decision. Defined.

(** A native [Animation] returned by [el.animate]: the two [height]
    keyframes in px, the timing options, the handlers, and what the host
    knows of it (its play state and the height it currently renders). *)
Record Animation := {
  a_target : nat;
  a_from : Z;
  a_to : Z;
  a_duration : Z;
  a_easing : string;
  a_handlers : Handlers;
  a_playState : PlayState;
  a_current : Z;
}.

(** The page: elements, the instance attached to an element (through the
    [el.expand]/[el.shrink] closures and the click listener), every
    animation created, and the host's queues: pending
    [requestAnimationFrame] callbacks, cancel events, [setTimeout]
    callbacks, and the finish events queued for zero-duration animations
    and not dispatched yet.  [updateMetricsCalls] counts the calls of the
    metrics helper that returned. *)
Record World := {
  elements : list Element;
  instances : gmap nat Instance;
  animations : list Animation;
  frames : list (nat * bool);
  cancelEvents : list nat;
  finishEvents : list nat;
  timeouts : list nat;
  updateMetricsCalls : nat;
}.

(** *** Field updates *)

Definition set_el_open (b : bool) (e : Element) : Element :=
  {| parentElement := parentElement e; tagName := tagName e; el_open := b;
     classList := classList e; style_height := style_height e;
     style_overflow := style_overflow e; summaryHeight := summaryHeight e;
     contentHeight := contentHeight e;
     closedContentHeight := closedContentHeight e;
     tableContainers := tableContainers e |}.

Definition set_classList (c : gset string) (e : Element) : Element :=
  {| parentElement := parentElement e; tagName := tagName e;
     el_open := el_open e; classList := c; style_height := style_height e;
     style_overflow := style_overflow e; summaryHeight := summaryHeight e;
     contentHeight := contentHeight e;
     closedContentHeight := closedContentHeight e;
     tableContainers := tableContainers e |}.

Definition set_style_height (h : option Z) (e : Element) : Element :=
  {| parentElement := parentElement e; tagName := tagName e;
     el_open := el_open e; classList := classList e; style_height := h;
     style_overflow := style_overflow e; summaryHeight := summaryHeight e;
     contentHeight := contentHeight e;
     closedContentHeight := closedContentHeight e;
     tableContainers := tableContainers e |}.

Definition set_style_overflow (o : string) (e : Element) : Element :=
  {| parentElement := parentElement e; tagName := tagName e;
     el_open := el_open e; classList := classList e;
     style_height := style_height e; style_overflow := o;
     summaryHeight := summaryHeight e; contentHeight := contentHeight e;
     closedContentHeight := closedContentHeight e;
     tableContainers := tableContainers e |}.

Definition set_animation (a : option nat) (d : Instance) : Instance :=
  {| animation := a; isClosing := isClosing d; isExpanding := isExpanding d;
     siblings := siblings d |}.

Definition set_isClosing (b : bool) (d : Instance) : Instance :=
  {| animation := animation d; isClosing := b; isExpanding := isExpanding d;
     siblings := siblings d |}.

Definition set_isExpanding (b : bool) (d : Instance) : Instance :=
  {| animation := animation d; isClosing := isClosing d; isExpanding := b;
     siblings := siblings d |}.

Definition set_siblings (l : list nat) (d : Instance) : Instance :=
  {| animation := animation d; isClosing := isClosing d;
     isExpanding := isExpanding d; siblings := l |}.

Definition set_playState (p : PlayState) (a : Animation) : Animation :=
  {| a_target := a_target a; a_from := a_from a; a_to := a_to a;
     a_duration := a_duration a; a_easing := a_easing a;
     a_handlers := a_handlers a; a_playState := p; a_current := a_current a |}.

Definition set_current (h : Z) (a : Animation) : Animation :=
  {| a_target := a_target a; a_from := a_from a; a_to := a_to a;
     a_duration := a_duration a; a_easing := a_easing a;
     a_handlers := a_handlers a; a_playState := a_playState a; a_current := h |}.

Definition upd_el (i : nat) (f : Element → Element) (w : World) : World :=
  {| elements := alter f i (elements w); instances := instances w;
     animations := animations w; frames := frames w;
     cancelEvents := cancelEvents w; finishEvents := finishEvents w;
     timeouts := timeouts w; updateMetricsCalls := updateMetricsCalls w |}.

Definition upd_inst (i : nat) (f : Instance → Instance) (w : World) : World :=
  {| elements := elements w; instances := alter f i (instances w);
     animations := animations w; frames := frames w;
     cancelEvents := cancelEvents w; finishEvents := finishEvents w;
     timeouts := timeouts w; updateMetricsCalls := updateMetricsCalls w |}.

Definition upd_anim (a : nat) (f : Animation → Animation) (w : World) : World :=
  {| elements := elements w; instances := instances w;
     animations := alter f a (animations w); frames := frames w;
     cancelEvents := cancelEvents w; finishEvents := finishEvents w;
     timeouts := timeouts w; updateMetricsCalls := updateMetricsCalls w |}.

Definition set_frames (q : list (nat * bool)) (w : World) : World :=
  {| elements := elements w; instances := instances w;
     animations := animations w; frames := q;
     cancelEvents := cancelEvents w; finishEvents := finishEvents w;
     timeouts := timeouts w; updateMetricsCalls := updateMetricsCalls w |}.

Definition set_cancelEvents (q : list nat) (w : World) : World :=
  {| elements := elements w; instances := instances w;
     animations := animations w; frames := frames w;
     cancelEvents := q; finishEvents := finishEvents w;
     timeouts := timeouts w; updateMetricsCalls := updateMetricsCalls w |}.

Definition set_finishEvents (q : list nat) (w : World) : World :=
  {| elements := elements w; instances := instances w;
     animations := animations w; frames := frames w;
     cancelEvents := cancelEvents w; finishEvents := q;
     timeouts := timeouts w; updateMetricsCalls := updateMetricsCalls w |}.

Definition set_timeouts (q : list nat) (w : World) : World :=
  {| elements := elements w; instances := instances w;
     animations := animations w; frames := frames w;
     cancelEvents := cancelEvents w; finishEvents := finishEvents w;
     timeouts := q; updateMetricsCalls := updateMetricsCalls w |}.

(** *** The host *)

(** Animations of element [i] that are playing. *)
Definition runningOn (i : nat) (w : World) : list Animation :=
  filter (λ a, a_target a = i ∧ a_playState a = Running) (animations w).

(** Host layout of [el.offsetHeight], which the source reads but does not
    compute.  A playing height animation decides the rendered height (a
    finished or idle one renders nothing); otherwise an inline
    [style.height] does; otherwise the element is as high as its summary
    when closed and as high as summary plus content when open (the
    geometry the specification gives a section: header height collapsed,
    header plus body height expanded). *)
Definition offsetHeight (i : nat) (w : World) : Z :=
  match last (runningOn i w) with
  | Some a => a_current a
  | None =>
      match elements w !! i with
      | Some e =>
          match style_height e with
          | Some h => h
          | None => if el_open e then summaryHeight e + contentHeight e
                    else summaryHeight e
          end
      | None => 0
      end
  end.

(** [content.offsetHeight]: the laid-out height of the content of an open
    element; for a closed one, what the host reports. *)
Definition content_offsetHeight (e : Element) : Z :=
  if el_open e then contentHeight e else closedContentHeight e.

(** The animation [el.animate({height: [startHeight, endHeight]},
    {duration: instant ? 0 : 300, easing: 'ease-in-out'})] creates, with
    the two handlers the caller installs on it.  An animation of duration
    300 is playing; one of duration 0 has reached its end when it is
    created: its play state is [finished] at once and it renders
    nothing. *)
Definition newAnimation (i : nat) (startHeight endHeight : Z) (instant : bool)
  (h : Handlers) : Animation :=
  {| a_target := i; a_from := startHeight; a_to := endHeight;
     a_duration := if instant then 0 else 300;
     a_easing := "ease-in-out"; a_handlers := h;
     a_playState := if instant then Finished else Running;
     a_current := startHeight |}.

(** [el.animate].  The finish event of a zero-duration animation is queued
    by the host in the microtask that follows the script; the events below
    are tasks of their own, so it is queued when the next one starts and
    the model queues it at once. *)
Definition animate (i : nat) (startHeight endHeight : Z) (instant : bool)
  (h : Handlers) (w : World) : nat * World :=
  (length (animations w),
   {| elements := elements w; instances := instances w;
      animations := animations w ++
        [newAnimation i startHeight endHeight instant h];
      frames := frames w; cancelEvents := cancelEvents w;
      finishEvents :=
        finishEvents w ++ (if instant then [length (animations w)] else []);
      timeouts := timeouts w; updateMetricsCalls := updateMetricsCalls w |}).

(** [animation.cancel()]: an animation that is not idle becomes idle and
    its cancel event is queued.  A finish event that is already queued for
    it stays queued: the host dispatches it all the same. *)
Definition cancel (a : nat) (w : World) : World :=
  match animations w !! a with
  | Some an =>
      match a_playState an with
      | Idle => w
      | _ => set_cancelEvents (cancelEvents w ++ [a])
               (upd_anim a (set_playState Idle) w)
      end
  | None => w
  end.

Definition requestAnimationFrame (cb : nat * bool) (w : World) : World :=
  set_frames (frames w ++ [cb]) w.

(** *** The methods of [Details] *)

Definition animationOf (i : nat) (w : World) : option nat :=
  d ← instances w !! i; animation d.

(** [if (this.animation) { this.animation.cancel() }] *)
Definition cancelCurrent (i : nat) (w : World) : World :=
  match animationOf i w with
  | Some a => cancel a w
  | None => w
  end.

Definition shrink (i : nat) (instant : bool) (w : World) : World :=
  match instances w !! i, elements w !! i with
  | Some _, Some e =>
      let w1 := upd_inst i (set_isClosing true) w in
      let startHeight := offsetHeight i w1 in
      let endHeight := summaryHeight e in
      let w2 := cancelCurrent i w1 in
      let '(id, w3) := animate i startHeight endHeight instant ByShrink w2 in
      upd_inst i (set_animation (Some id)) w3
  | _, _ => w
  end.

(** [details.shrink?.(instant)] on a captured sibling. *)
Definition shrinkSibling (instant : bool) (w : World) (d : nat) : World :=
  match instances w !! d with
  | Some _ => shrink d instant w
  | None => w
  end.

Definition open (i : nat) (instant : bool) (w : World) : World :=
  match instances w !! i, elements w !! i with
  | Some d, Some e =>
      let w1 := upd_el i (set_style_height (Some (offsetHeight i w))) w in
      let w2 := upd_el i (set_el_open true) w1 in
      let w3 := requestAnimationFrame (i, instant) w2 in
      if bool_decide ("singleton" ∈ classList e)
         && negb (bool_decide (siblings d = []))
      then foldl (shrinkSibling instant) w3 (siblings d)
      else w3
  | _, _ => w
  end.

Definition expand (i : nat) (instant : bool) (w : World) : World :=
  match instances w !! i, elements w !! i with
  | Some _, Some e =>
      let w1 := upd_inst i (set_isExpanding true) w in
      let startHeight := offsetHeight i w1 in
      let endHeight := summaryHeight e + content_offsetHeight e in
      let w2 := cancelCurrent i w1 in
      let '(id, w3) := animate i startHeight endHeight instant ByExpand w2 in
      upd_inst i (set_animation (Some id)) w3
  | _, _ => w
  end.

(** [classList.toggle('visible', open)] *)
Definition toggleVisible (force : bool) (c : gset string) : gset string :=
  if force then {["visible"]} ∪ c else c ∖ {["visible"]}.

Definition onAnimationFinish (i : nat) (open : bool) (w : World) : World :=
  let w1 := upd_el i (set_el_open open) w in
  let w2 := upd_inst i (set_animation None) w1 in
  let w3 := upd_inst i (set_isClosing false) w2 in
  let w4 := upd_inst i (set_isExpanding false) w3 in
  let w5 := upd_el i (λ e, set_classList (toggleVisible open (classList e)) e) w4 in
  upd_el i (λ e, set_style_height None (set_style_overflow "" e)) w5.

Definition onClick (i : nat) (w : World) : World :=
  match instances w !! i, elements w !! i with
  | Some d, Some e =>
      let w1 := upd_el i (set_style_overflow "hidden") w in
      if isClosing d || negb (el_open e) then open i false w1
      else if isExpanding d || el_open e then shrink i false w1
      else w1
  | _, _ => w
  end.

(** [c] is a child of [p] whose tag name is [tag]. *)
Definition sameTagChild (w : World) (p : nat) (tag : string) (c : nat) : bool :=
  match elements w !! c with
  | Some e' =>
      bool_decide (parentElement e' = Some p) && bool_decide (tagName e' = tag)
  | None => false
  end.

(** The [setTimeout] callback of the constructor: the same-tag children of
    the parent in document order, the element itself left out. *)
Definition captureSiblings (i : nat) (w : World) : list nat :=
  match elements w !! i with
  | Some e =>
      match parentElement e with
      | Some p =>
          filter (λ c, c ≠ i ∧ sameTagChild w p (tagName e) c)
                 (seq 0 (length (elements w)))
      | None => []
      end
  | None => []
  end.

(** [new Details(el)] *)
Definition constructor (i : nat) (w : World) : World :=
  {| elements := elements w;
     instances := <[i := {| animation := None; isClosing := false;
                            isExpanding := false; siblings := [] |}]> (instances w);
     animations := animations w; frames := frames w;
     cancelEvents := cancelEvents w; finishEvents := finishEvents w;
     timeouts := timeouts w ++ [i];
     updateMetricsCalls := updateMetricsCalls w |}.

(** *** What the host does to the page *)

(** Each event is a task of its own: a click, a timer, a frame callback, an
    animation event, or a script that makes one call. *)
Inductive HostEvent :=
  | Construct (i : nat)                    (* new Details(el), once per element *)
  | Timeout                                (* oldest pending setTimeout callback *)
  | Click (i : nat)                        (* click on the summary of el *)
  | CallExpand (i : nat) (instant : bool)  (* el.expand(instant) *)
  | CallShrink (i : nat) (instant : bool)  (* el.shrink(instant) *)
  | AnimationFrame                         (* oldest pending frame callback *)
  | Progress (a : nat) (h : Z)             (* a playing animation renders h *)
  | Finish (a : nat)                       (* the finish event of an animation *)
  | CancelEvent.                           (* oldest queued cancel event *)

(** Number of helpers that return before the first one that throws. *)
Fixpoint returning (tables : list bool) : nat :=
  match tables with
  | true :: tables => S (returning tables)
  | _ => O
  end.

(** The [forEach] over the [table-container]s of the content: the helper
    of each is called in turn, up to the first call that throws.  The
    result tells whether every call returned.  What a helper does to its
    own table is outside the page modelled here. *)
Definition updateMetrics (i : nat) (w : World) : World * bool :=
  let tables := from_option tableContainers [] (elements w !! i) in
  ({| elements := elements w; instances := instances w;
      animations := animations w; frames := frames w;
      cancelEvents := cancelEvents w; finishEvents := finishEvents w;
      timeouts := timeouts w;
      updateMetricsCalls := (updateMetricsCalls w + returning tables)%nat |},
   forallb id tables).

(** [animation.onfinish].  The handler [expand] installs ends with the
    exception of a metrics helper that throws, before it reaches
    [onAnimationFinish(true)]. *)
Definition onfinish (an : Animation) (w : World) : World :=
  match a_handlers an with
  | ByExpand =>
      let '(w', returned) := updateMetrics (a_target an) w in
      if returned then onAnimationFinish (a_target an) true w' else w'
  | ByShrink => onAnimationFinish (a_target an) false w
  end.

(** [animation.oncancel] *)
Definition oncancel (an : Animation) (w : World) : World :=
  match a_handlers an with
  | ByExpand => upd_inst (a_target an) (set_isExpanding false) w
  | ByShrink => upd_inst (a_target an) (set_isClosing false) w
  end.

(** The finish event of animation [a].  A finish event that is queued is
    dispatched and its handler runs, whatever has become of the animation
    since.  Otherwise a playing animation reaches its end, and its handler
    runs in the same frame. *)
Definition finish (a : nat) (w : World) : World :=
  match animations w !! a with
  | Some an =>
      if bool_decide (a ∈ finishEvents w)
      then onfinish an
             (set_finishEvents (filter (λ b, b ≠ a) (finishEvents w)) w)
      else match a_playState an with
           | Running => onfinish an (upd_anim a (set_playState Finished) w)
           | _ => w
           end
  | None => w
  end.

Definition exec (w : World) (ev : HostEvent) : World :=
  match ev with
  | Construct i =>
      match elements w !! i, instances w !! i with
      | Some _, None => constructor i w
      | _, _ => w
      end
  | Timeout =>
      match timeouts w with
      | i :: q => upd_inst i (set_siblings (captureSiblings i w)) (set_timeouts q w)
      | [] => w
      end
  | Click i => onClick i w
  | CallExpand i instant => open i instant w
  | CallShrink i instant => shrink i instant w
  | AnimationFrame =>
      match frames w with
      | (i, instant) :: q => expand i instant (set_frames q w)
      | [] => w
      end
  | Progress a h =>
      match animations w !! a with
      | Some an =>
          match a_playState an with
          | Running => upd_anim a (set_current h) w
          | _ => w
          end
      | None => w
      end
  | Finish a => finish a w
  | CancelEvent =>
      match cancelEvents w with
      | a :: q =>
          match animations w !! a with
          | Some an => oncancel an (set_cancelEvents q w)
          | None => set_cancelEvents q w
          end
      | [] => w
      end
  end.

Definition run (w : World) (evs : list HostEvent) : World := foldl exec w evs.

(** A page before any script ran: no instance, no animation, nothing
    pending. *)
Definition page (els : list Element) : World :=
  {| elements := els; instances := ∅; animations := []; frames := [];
     cancelEvents := []; finishEvents := []; timeouts := [];
     updateMetricsCalls := 0 |}.

(** *** Observations *)

Definition isOpen (w : World) (i : nat) : bool :=
  from_option el_open false (elements w !! i).

Definition isVisible (w : World) (i : nat) : bool :=
  from_option (λ e, bool_decide ("visible" ∈ classList e)) false (elements w !! i).

(** No frame callback pending, no finish event queued and no animation
    playing. *)
Definition settled (w : World) : Prop :=
  frames w = [] ∧ finishEvents w = [] ∧
  ∀ a an, animations w !! a = Some an → a_playState an ≠ Running.

(** The queued finish events of animations that have been cancelled
    since. *)
Definition stale (w : World) : list nat :=
  filter (λ a, a_playState <$> animations w !! a = Some Idle) (finishEvents w).

(** No event of the run cancels an animation whose finish event is queued:
    after each of them no queued finish event is stale. *)
Fixpoint calm (w : World) (evs : list HostEvent) : bool :=
  match evs with
  | [] => true
  | ev :: evs => bool_decide (stale (exec w ev) = []) && calm (exec w ev) evs
  end.

(** Events by which the host lets started transitions run, as opposed to
    a new activation by the user or by a script. *)
Definition passive (ev : HostEvent) : bool :=
  match ev with
  | Timeout | AnimationFrame | Progress _ _ | Finish _ | CancelEvent => true
  | Construct _ | Click _ | CallExpand _ _ | CallShrink _ _ => false
  end.

End Details.

(** * CSS custom properties *)

Module CustomProperty.

(** [property.replace(/^--/g, '')] *)
Definition stripDashes (property : string) : string :=
  match property with
  | String "-"%char (String "-"%char rest) => rest
  | _ => property
  end.

(** The template [`--${property.replace(/^--/g, '')}`] *)
Definition customName (property : string) : string :=
  "--" +:+ stripDashes property.

Fixpoint endsWith (value unit : string) : bool :=
  String.eqb value unit ||
  match value with
  | String _ rest => endsWith rest unit
  | EmptyString => false
  end.

(** Strings hold the UTF-8 bytes of the JavaScript string.  The white space
    and line terminators [String.prototype.trim] strips are TAB, LF, VT, FF,
    CR and SP, which are one byte each, and U+00A0, U+1680, U+2000 to
    U+200A, U+2028, U+2029, U+202F, U+205F, U+3000 and U+FEFF, which are two
    or three bytes. *)
Definition isWhiteSpace (c : ascii) : bool :=
  let n := nat_of_ascii c in
  (Nat.leb 9 n && Nat.leb n 13) || Nat.eqb n 32.

Definition isWhiteSpace2 (c1 c2 : ascii) : bool :=
  Nat.eqb (nat_of_ascii c1) 194 && Nat.eqb (nat_of_ascii c2) 160.

Definition isWhiteSpace3 (c1 c2 c3 : ascii) : bool :=
  let n1 := nat_of_ascii c1 in
  let n2 := nat_of_ascii c2 in
  let n3 := nat_of_ascii c3 in
  (Nat.eqb n1 225 && Nat.eqb n2 154 && Nat.eqb n3 128)
  || (Nat.eqb n1 226 && Nat.eqb n2 128 &&
      ((Nat.leb 128 n3 && Nat.leb n3 138)
       || Nat.eqb n3 168 || Nat.eqb n3 169 || Nat.eqb n3 175))
  || (Nat.eqb n1 226 && Nat.eqb n2 129 && Nat.eqb n3 159)
  || (Nat.eqb n1 227 && Nat.eqb n2 128 && Nat.eqb n3 128)
  || (Nat.eqb n1 239 && Nat.eqb n2 187 && Nat.eqb n3 191).

Fixpoint trimStart (s : string) : string :=
  match s with
  | String c1 rest1 =>
      if isWhiteSpace c1 then trimStart rest1
      else match rest1 with
           | String c2 rest2 =>
               if isWhiteSpace2 c1 c2 then trimStart rest2
               else match rest2 with
                    | String c3 rest3 =>
                        if isWhiteSpace3 c1 c2 c3 then trimStart rest3 else s
                    | EmptyString => s
                    end
           | EmptyString => s
           end
  | EmptyString => EmptyString
  end.

(** The string holds white space only. *)
Definition blank (s : string) : bool := String.eqb (trimStart s) "".

Fixpoint trimEnd (s : string) : string :=
  match s with
  | String c rest => if blank s then "" else String c (trimEnd rest)
  | EmptyString => EmptyString
  end.

Definition trim (s : string) : string := trimEnd (trimStart s).

Definition isDigit (c : ascii) : bool :=
  let n := nat_of_ascii c in Nat.leb 48 n && Nat.leb n 57.

Fixpoint digits (s : string) : bool :=
  match s with
  | String c EmptyString => isDigit c
  | String c rest => isDigit c && digits rest
  | EmptyString => false
  end.

(** [/^-?\d+$/.test(value)] *)
Definition isInteger (value : string) : bool :=
  match value with
  | String "-"%char rest => digits rest
  | _ => digits value
  end.

Definition ValidCssUnits : list string :=
  ["em"; "ex"; "ch"; "rem"; "vw"; "vh"; "vmin"; "vmax"; "cm"; "mm"; "in";
   "px"; "pt"; "pc"].

Inductive Result (A : Type) :=
  | Ok (a : A)
  | Throw (message : string).
Arguments Ok {A} a.
Arguments Throw {A} message.

Section Numbers.

(** JavaScript numbers and the two host conversions the module applies to
    strings: unary plus, and [Number(parseFloat(value).toFixed(4))]. *)
Variable Number : Type.
Variable toNumber : string → Number.
Variable parseFloatFixed4 : string → Number.

Inductive PropValue :=
  | VString (s : string)
  | VNumber (n : Number).

(** A [PropertyMap], as [Object.entries] lists it. *)
Definition PropertyMap := list (string * PropValue).

Inductive PropertyInput :=
  | Name (property : string)
  | Map (properties : PropertyMap).

Inductive PropertyOutput :=
  | OutString (s : string)
  | OutNumber (n : Number)
  | OutMap (m : gmap string PropValue).

(** The part of an element the module touches: [target.style], as the
    sequence of [setProperty(name, value)] and [removeProperty(name)] calls
    it has received, and [getComputedStyle(target).getPropertyValue]. *)
Inductive StyleCall :=
  | setProperty (name : string) (value : PropValue)
  | removeProperty (name : string).

Record Target := {
  style : option (list StyleCall);
  getPropertyValue : string → string;
}.

Definition with_style (st : option (list StyleCall)) (t : Target) : Target :=
  {| style := st; getPropertyValue := getPropertyValue t |}.

Definition parseCssUnits (value : string) (units : list string) : PropValue :=
  match List.find (λ unit, endsWith value unit) units with
  | Some unit =>
      if String.eqb unit "" then VString value
      else VNumber (parseFloatFixed4 value)
  | None => VString value
  end.

Definition setCustomProperty (target : Target) (properties : PropertyInput)
  (value : option PropValue) : Result Target :=
  let propMap : Result PropertyMap :=
    match properties with
    | Name property =>
        match value with
        | Some v => Ok [(property, v)]
        | None => Throw "Value must be defined when properties is a string"
        end
    | Map m => Ok m
    end in
  match propMap with
  | Throw msg => Throw msg
  | Ok propMap =>
      match style target with
      | Some st =>
          Ok (with_style
                (Some (foldl (λ st' '(property, v),
                                st' ++ [setProperty (customName property) v])
                         st propMap))
                target)
      | None => Ok target
      end
  end.

Inductive Argument :=
  | AString (s : string)
  | ABoolean (b : bool).

Definition isTrue (a : Argument) : bool :=
  match a with ABoolean true => true | _ => false end.

Definition stringsOf (properties : list Argument) : list string :=
  omap (λ a, match a with AString s => Some s | ABoolean _ => None end)
       properties.

(** [result[property] = value] on the plain object [result], for a string
    or a number [value]: the key [__proto__] reaches the setter of
    [Object.prototype], which ignores such a value, so the object gets no
    property of its own under that key. *)
Definition assign (property : string) (value : PropValue)
  (m : gmap string PropValue) : gmap string PropValue :=
  if String.eqb property "__proto__" then m else <[property := value]> m.

Definition getCustomProperty (target : Target) (properties : list Argument)
  : PropertyOutput :=
  let shouldParseCssUnits := existsb isTrue properties in
  let propertyNames := stringsOf properties in
  let result : PropertyOutput :=
    if Nat.eqb (length propertyNames) 1 then OutString "" else OutMap ∅ in
  foldl (λ result property,
           let value := trim (getPropertyValue target (customName property)) in
           let value := if isInteger value then VNumber (toNumber value)
                        else VString value in
           let value := match value with
                        | VString s =>
                            if shouldParseCssUnits
                            then parseCssUnits s ValidCssUnits
                            else value
                        | VNumber _ => value
                        end in
           match result with
           | OutMap m => OutMap (assign property value m)
           | _ => result
           end)
        result propertyNames.

Definition removeCustomProperty (target : Target) (properties : list string)
  : Target :=
  match style target with
  | Some st =>
      with_style
        (Some (foldl (λ st' property, st' ++ [removeProperty (customName property)])
                 st properties))
        target
  | None => target
  end.

End Numbers.

Arguments VString {Number} s.
Arguments VNumber {Number} n.
Arguments Name {Number} property.
Arguments Map {Number} properties.
Arguments OutString {Number} s.
Arguments OutNumber {Number} n.
Arguments OutMap {Number} m.
Arguments setProperty {Number} name value.
Arguments removeProperty {Number} name.

End CustomProperty.

(** * Properties of the mutation-observer registry *)

Module MutationFacts.
Import Mutation.

(** The part of a store cell that no operation changes: what the watcher's
    closure captured. *)
Definition sameClosure (i i' : ObserverInfo) : Prop :=
  callback (observer i') = callback (observer i) ∧
  autoUnobserve (observer i') = autoUnobserve (observer i) ∧
  observeElement (observer i') = observeElement (observer i).

Lemma sameClosure_refl i : sameClosure i i.
Proof. by repeat split. Qed.

Lemma sameClosure_trans i j k : sameClosure i j → sameClosure j k → sameClosure i k.
Proof. intros (?&?&?) (?&?&?). repeat split; congruence. Qed.

Lemma infos_update_info l f s :
  infos (update_info l f s) !! l = f <$> infos s !! l.
Proof. apply list_lookup_alter_eq. Qed.

Lemma deletedCount_update_info E l f s :
  deletedCount E (update_info l f s) = deletedCount E s.
Proof. reflexivity. Qed.

Lemma deletedCount_trigger E root ty n s :
  deletedCount E (triggerEvent root ty n s) =
  (deletedCount E s + if bool_decide (ty = deleted ∧ n = E) then 1 else 0)%nat.
Proof.
  unfold deletedCount, triggerEvent; simpl.
  rewrite filter_app, length_app. f_equal.
  rewrite filter_cons, filter_nil; simpl.
  case_bool_decide; case_decide; simpl; tauto.
Qed.

Section Tracking.

Variable l : nat.
Variable E : Node.
Variable info0 : ObserverInfo.

(** What the proofs follow through a batch: the cell at [l] keeps its
    closure; [armed] tells whether [E] is confirmed there; [count] is the
    number of ['deleted'] events [E] has had; [conn] bounds the watcher's
    connection (exact when [autoUnobserve] is off). *)
Definition Cell (s : Registry) (armed : bool) (count : nat) (conn : bool) : Prop :=
  ∃ info, infos s !! l = Some info ∧ sameClosure info0 info ∧
          (E ∈ confirmedElements info ↔ armed = true) ∧
          deletedCount E s = count ∧
          (autoUnobserve (observer info0) = false →
           connected (observer info) = conn) ∧
          (conn = false → connected (observer info) = false).

Ltac cell info' :=
  refine (ex_intro _ info' (conj _ (conj _ (conj _ (conj _ (conj _ _))))));
  simpl.

Ltac in_set :=
  rewrite ?elem_of_union, ?elem_of_difference, ?elem_of_singleton;
  intuition congruence.

Lemma Cell_confirm_other root el s b k c :
  el ≠ E → Cell s b k c → Cell (confirm l root el s) b k c.
Proof.
  intros Hne (info & Hl & Hc & Hb & Hk & Hc1 & Hc2).
  cell (set_confirmed (λ c, {[el]} ∪ c) info).
  - by rewrite list_lookup_alter_eq, Hl.
  - exact Hc.
  - in_set.
  - unfold confirm. rewrite deletedCount_trigger, deletedCount_update_info.
    rewrite bool_decide_eq_false_2 by (by intros [? _]). lia.
  - exact Hc1.
  - exact Hc2.
Qed.

Lemma Cell_confirm_same root s b k c :
  Cell s b k c → Cell (confirm l root E s) true k c.
Proof.
  intros (info & Hl & Hc & Hb & Hk & Hc1 & Hc2).
  cell (set_confirmed (λ c, {[E]} ∪ c) info).
  - by rewrite list_lookup_alter_eq, Hl.
  - exact Hc.
  - in_set.
  - unfold confirm. rewrite deletedCount_trigger, deletedCount_update_info.
    rewrite bool_decide_eq_false_2 by (by intros [? _]). lia.
  - exact Hc1.
  - exact Hc2.
Qed.

Lemma Cell_confirm_list root els s b k c :
  E ∉ els → Cell s b k c →
  Cell (foldl (λ s' el, confirm l root el s') s els) b k c.
Proof.
  revert s. induction els as [|el els IH]; intros s Hn HC; [done|].
  rewrite not_elem_of_cons in Hn. destruct Hn as [Hne Hn].
  simpl. apply IH; [done|]. by apply Cell_confirm_other.
Qed.

Lemma Cell_onAdded n s b k c :
  E ∉ callback (observer info0) n → Cell s b k c → Cell (onAdded l n s) b k c.
Proof.
  intros Hn HC. unfold onAdded.
  destruct (isElement n); [|done].
  pose proof HC as (info & Hl & Hc & _). rewrite Hl.
  case_decide; [done|].
  apply Cell_confirm_list; [|done].
  destruct Hc as (Hcb & _). by rewrite Hcb.
Qed.

Lemma Cell_onRemoved_other n s b k c :
  n ≠ E → Cell s b k c → Cell (onRemoved l n s) b k c.
Proof.
  intros Hne HC. unfold onRemoved.
  destruct (isElement n); [|done].
  pose proof HC as (info & Hl & Hc & Hb & Hk & Hc1 & Hc2). rewrite Hl.
  case_decide; [|done].
  assert (Hk' : deletedCount E
            (triggerEvent (observeElement (observer info)) deleted n
               (update_info l (set_confirmed (λ c, c ∖ {[n]})) s)) = k).
  { rewrite deletedCount_trigger, deletedCount_update_info.
    rewrite bool_decide_eq_false_2 by (by intros [_ ?]). lia. }
  destruct (autoUnobserve (observer info)) eqn:Hau.
  - cell (set_observer disconnect (set_confirmed (λ c, c ∖ {[n]}) info)).
    + by rewrite !list_lookup_alter_eq, Hl.
    + exact Hc.
    + in_set.
    + exact Hk'.
    + intros Hf. destruct Hc as (_ & Hau' & _). congruence.
    + done.
  - cell (set_confirmed (λ c, c ∖ {[n]}) info).
    + by rewrite !list_lookup_alter_eq, Hl.
    + exact Hc.
    + in_set.
    + exact Hk'.
    + exact Hc1.
    + exact Hc2.
Qed.

Lemma Cell_onRemoved_unarmed n s k c :
  Cell s false k c → Cell (onRemoved l n s) false k c.
Proof.
  intros HC. destruct (decide (n = E)) as [->|Hne];
    [|by apply Cell_onRemoved_other].
  unfold onRemoved. destruct (isElement E); [|done].
  pose proof HC as (info & Hl & Hc & Hb & _). rewrite Hl.
  case_decide as Hin; [|done]. apply Hb in Hin. done.
Qed.

Lemma Cell_onRemoved_armed s k c :
  isElement E = true → Cell s true k c →
  Cell (onRemoved l E s) false (S k) (c && negb (autoUnobserve (observer info0))).
Proof.
  intros HE (info & Hl & Hc & Hb & Hk & Hc1 & Hc2).
  unfold onRemoved. rewrite HE, Hl.
  rewrite decide_True by (by apply Hb).
  assert (Hk' : deletedCount E
            (triggerEvent (observeElement (observer info)) deleted E
               (update_info l (set_confirmed (λ c, c ∖ {[E]})) s)) = S k).
  { rewrite deletedCount_trigger, deletedCount_update_info.
    rewrite bool_decide_eq_true_2 by done. lia. }
  pose proof Hc as (Hcb & Hau & Hroot).
  destruct (autoUnobserve (observer info)) eqn:Hau'.
  - cell (set_observer disconnect (set_confirmed (λ c, c ∖ {[E]}) info)).
    + by rewrite !list_lookup_alter_eq, Hl.
    + exact Hc.
    + in_set.
    + exact Hk'.
    + intros Hf. congruence.
    + done.
  - cell (set_confirmed (λ c, c ∖ {[E]}) info).
    + by rewrite !list_lookup_alter_eq, Hl.
    + exact Hc.
    + in_set.
    + exact Hk'.
    + rewrite <- Hau; simpl. rewrite andb_true_r.
      intros _. apply Hc1. congruence.
    + rewrite <- Hau; simpl. rewrite andb_true_r. exact Hc2.
Qed.

(** The added nodes of one record. *)
Lemma Cell_added nodes s b k c :
  (∀ n, n ∈ nodes → E ∉ callback (observer info0) n) →
  Cell s b k c → Cell (foldl (λ s' n, onAdded l n s') s nodes) b k c.
Proof.
  revert s. induction nodes as [|n nodes IH]; intros s Hn HC; [done|].
  simpl. apply IH; [intros; apply Hn; by right|].
  apply Cell_onAdded; [apply Hn; by left | done].
Qed.

(** The removed nodes of one record, [E] not confirmed. *)
Lemma Cell_removed_unarmed nodes s k c :
  Cell s false k c → Cell (foldl (λ s' n, onRemoved l n s') s nodes) false k c.
Proof.
  revert s. induction nodes as [|n nodes IH]; intros s HC; [done|].
  simpl. apply IH. by apply Cell_onRemoved_unarmed.
Qed.

(** The removed nodes of one record, [E] confirmed and not among them. *)
Lemma Cell_removed_absent nodes s b k c :
  E ∉ nodes → Cell s b k c →
  Cell (foldl (λ s' n, onRemoved l n s') s nodes) b k c.
Proof.
  revert s. induction nodes as [|n nodes IH]; intros s Hn HC; [done|].
  rewrite not_elem_of_cons in Hn. destruct Hn as [Hne Hn].
  simpl. apply IH; [done|]. apply Cell_onRemoved_other; [done | done].
Qed.

(** The removed nodes of one record, [E] confirmed and among them. *)
Lemma Cell_removed_present nodes s k c :
  isElement E = true → E ∈ nodes → Cell s true k c →
  Cell (foldl (λ s' n, onRemoved l n s') s nodes) false (S k)
       (c && negb (autoUnobserve (observer info0))).
Proof.
  intros HE. revert s.
  induction nodes as [|n nodes IH]; intros s Hin HC; [by inversion Hin|].
  simpl. destruct (decide (n = E)) as [->|Hne].
  - apply Cell_removed_unarmed. by apply Cell_onRemoved_armed.
  - apply IH.
    + apply elem_of_cons in Hin as [Heq|Hin]; [congruence | done].
    + by apply Cell_onRemoved_other.
Qed.

(** A whole batch, [E] not confirmed when it starts. *)
Lemma Cell_batch_unarmed ms s k c :
  notReconfirmed (callback (observer info0)) E ms →
  Cell s false k c → Cell (handleMutations l ms s) false k c.
Proof.
  unfold handleMutations. revert s.
  induction ms as [|m ms IH]; intros s Hn HC; [done|].
  simpl. apply IH; [intros m' n Hm'; apply Hn; by right|].
  unfold handleMutation. destruct (type m); try done.
  apply Cell_removed_unarmed, Cell_added; [|done].
  intros n Hin. apply (Hn m); [by left | done].
Qed.

(** A whole batch with a removal record for [E], [E] confirmed when it
    starts. *)
Lemma Cell_batch_armed ms s k c :
  isElement E = true → hasRemoval E ms →
  notReconfirmed (callback (observer info0)) E ms →
  Cell s true k c →
  Cell (handleMutations l ms s) false (S k)
       (c && negb (autoUnobserve (observer info0))).
Proof.
  intros HE. unfold handleMutations. revert s.
  induction ms as [|m ms IH]; intros s (m0 & Hm0 & Hty & Hrem) Hn HC;
    [by inversion Hm0|].
  assert (Hn' : notReconfirmed (callback (observer info0)) E ms).
  { intros m' n Hm'. apply Hn. by right. }
  assert (Hadd : ∀ n, n ∈ addedNodes m → E ∉ callback (observer info0) n).
  { intros n Hin. apply (Hn m); [by left | done]. }
  simpl.
  destruct (decide (type m = childList ∧ E ∈ removedNodes m)) as [[Ht Hr]|Hno].
  - apply Cell_batch_unarmed; [done|].
    unfold handleMutation. rewrite Ht.
    apply Cell_removed_present; [done | done |]. by apply Cell_added.
  - apply IH; [|done|].
    + apply elem_of_cons in Hm0 as [->|Hm0]; [tauto|]. by exists m0.
    + unfold handleMutation. destruct (type m) eqn:Ht; try done.
      apply Cell_removed_absent; [tauto|]. by apply Cell_added.
Qed.

Lemma Cell_init s :
  infos s !! l = Some info0 →
  Cell s (bool_decide (E ∈ confirmedElements info0)) (deletedCount E s)
       (connected (observer info0)).
Proof.
  intros Hl. cell info0.
  - exact Hl.
  - apply sameClosure_refl.
  - by rewrite bool_decide_eq_true.
  - reflexivity.
  - reflexivity.
  - intros Hc. exact Hc.
Qed.

Lemma Cell_observe s b k c :
  Cell s b k c →
  (E ∈ confirmedAt l s ↔ b = true) ∧ deletedCount E s = k ∧
  (c = false → connectedAt l s = false) ∧
  (autoUnobserve (observer info0) = false → connectedAt l s = c).
Proof.
  intros (info & Hl & Hc & Hb & Hk & Hc1 & Hc2).
  unfold confirmedAt, connectedAt. rewrite Hl. simpl. done.
Qed.

End Tracking.

Lemma deliver_connected l info ms s :
  infos s !! l = Some info → connected (observer info) = true →
  deliver l ms s = handleMutations l ms s.
Proof. intros Hl Hc. unfold deliver. by rewrite Hl, Hc. Qed.

Lemma deliver_disconnected l ms s :
  connectedAt l s = false → deliver l ms s = s.
Proof.
  unfold connectedAt, deliver. destruct (infos s !! l) as [info|]; [|done].
  simpl. by intros ->.
Qed.

Definition optionsFor (R : Node) (autoUn : option bool) : Options :=
  {| opt_observeElement := Some R; opt_autoUnobserve := autoUn |}.

Lemma subscribe_existing cb o s l :
  observers s !! default documentElement (opt_observeElement o) = Some l →
  MutationObserverHelper cb o s =
  ({| h_observeElement := default documentElement (opt_observeElement o);
      h_observerInfo := l |}, s).
Proof. intros Hl. unfold MutationObserverHelper. by rewrite Hl. Qed.

Lemma subscribe_fresh cb o s :
  observers s !! default documentElement (opt_observeElement o) = None →
  let r := MutationObserverHelper cb o s in
  h_observerInfo r.1 = length (infos s) ∧
  h_observeElement r.1 = default documentElement (opt_observeElement o) ∧
  observers r.2 = <[default documentElement (opt_observeElement o) :=
                      length (infos s)]> (observers s) ∧
  infos r.2 = infos s ++
    [{| confirmedElements := ∅;
        observer := {| callback := cb;
                       autoUnobserve := default false (opt_autoUnobserve o);
                       observeElement :=
                         default documentElement (opt_observeElement o);
                       connected := true |} |}] ∧
  dispatched r.2 = dispatched s.
Proof. intros Hl. unfold MutationObserverHelper. by rewrite Hl. Qed.

(** After any subscribe the registry maps the root to the returned cell. *)
Lemma subscribe_registered cb o s :
  let r := MutationObserverHelper cb o s in
  observers r.2 !! default documentElement (opt_observeElement o) =
    Some (h_observerInfo r.1) ∧
  h_observeElement r.1 = default documentElement (opt_observeElement o).
Proof.
  unfold MutationObserverHelper.
  destruct (observers s !! _) as [l|] eqn:Hl; simpl; [done|].
  by rewrite lookup_insert_eq.
Qed.

(** C1. Subscribing twice to a root [R] that has no registry entry
    constructs exactly one native MutationObserver: the first call creates
    the entry, connects its watcher to [R] and registers it; the second
    call finds that entry, returns a handle on the same cell and leaves
    the registry as it was, whatever callback and options it is given. *)
Theorem subscribe_twice_one_watcher
  (R : Node) (cb1 cb2 : CustomCallback) (o1 o2 : Options) (s : Registry) :
  default documentElement (opt_observeElement o1) = R →
  default documentElement (opt_observeElement o2) = R →
  observers s !! R = None →
  let r1 := MutationObserverHelper cb1 o1 s in
  let r2 := MutationObserverHelper cb2 o2 r1.2 in
  nativeObservers r2.2 = S (nativeObservers s) ∧
  nativeObservers r1.2 = S (nativeObservers s) ∧
  r2.2 = r1.2 ∧
  r2.1 = r1.1 ∧
  observers r2.2 !! R = Some (h_observerInfo r1.1) ∧
  connectedAt (h_observerInfo r1.1) r2.2 = true.
Proof.
  intros H1 H2 Hnone r1 r2.
  pose proof (subscribe_fresh cb1 o1 s) as Hf. rewrite H1 in Hf.
  specialize (Hf Hnone). fold r1 in Hf.
  destruct Hf as (Hl & Hroot & Hobs & Hinfos & _).
  pose proof (subscribe_registered cb1 o1 s) as [Hreg _].
  fold r1 in Hreg. rewrite H1 in Hreg.
  assert (Hr2 : r2 = (r1.1, r1.2)).
  { unfold r2. rewrite (subscribe_existing cb2 o2 r1.2 (h_observerInfo r1.1))
      by (by rewrite H2).
    f_equal. rewrite H2, <- Hroot. by destruct (r1.1). }
  rewrite Hr2; simpl.
  assert (Hn : nativeObservers r1.2 = S (nativeObservers s)).
  { unfold nativeObservers. rewrite Hinfos, length_app. simpl. lia. }
  repeat split; try done.
  unfold connectedAt. rewrite Hinfos, Hl.
  by rewrite list_lookup_middle.
Qed.

(** Witness for C1 on the empty registry and the default root. *)
Lemma subscribe_twice_one_watcher_witness :
  let o := {| opt_observeElement := None; opt_autoUnobserve := None |} in
  let r1 := MutationObserverHelper (λ _, []) o empty in
  let r2 := MutationObserverHelper (λ n, [n]) o r1.2 in
  nativeObservers r2.2 = 1%nat ∧ nativeObservers r1.2 = 1%nat ∧
  r2.2 = r1.2 ∧ r2.1 = r1.1 ∧
  observers r2.2 !! documentElement = Some (h_observerInfo r1.1) ∧
  connectedAt (h_observerInfo r1.1) r2.2 = true.
Proof.
  intros o r1 r2.
  apply (subscribe_twice_one_watcher documentElement (λ _, []) (λ n, [n]) o o empty);
    reflexivity.
Defined.


(** C2. Let [E] be an element that is not yet confirmed in the entry of an
    observed root.  Once [E] is confirmed, a batch that holds a removal
    record for [E] (and during which the callback does not confirm [E]
    anew) dispatches exactly one ['deleted'] event for [E] and leaves [E]
    out of the confirmed set.  Confirming [E] again puts it back without a
    ['deleted'] event, and the next batch with a removal record for [E]
    dispatches exactly one more.  With [autoUnobserve] off and the watcher
    connected, the host delivers both batches to the handler. *)
Theorem confirm_remove_rearm
  (l : nat) (info : ObserverInfo) (E : Node) (ms1 ms2 : list MutationRecord)
  (s : Registry) :
  infos s !! l = Some info →
  isElement E = true →
  E ∉ confirmedElements info →
  hasRemoval E ms1 → notReconfirmed (callback (observer info)) E ms1 →
  hasRemoval E ms2 → notReconfirmed (callback (observer info)) E ms2 →
  let root := observeElement (observer info) in
  let s1 := confirm l root E s in
  let s2 := handleMutations l ms1 s1 in
  let s3 := confirm l root E s2 in
  let s4 := handleMutations l ms2 s3 in
  (E ∈ confirmedAt l s1 ∧ deletedCount E s1 = deletedCount E s) ∧
  (deletedCount E s2 = S (deletedCount E s1) ∧ E ∉ confirmedAt l s2) ∧
  (E ∈ confirmedAt l s3 ∧ deletedCount E s3 = deletedCount E s2) ∧
  (deletedCount E s4 = S (deletedCount E s3) ∧ E ∉ confirmedAt l s4) ∧
  (autoUnobserve (observer info) = false → connected (observer info) = true →
   deliver l ms1 s1 = s2 ∧ deliver l ms2 s3 = s4).
Proof.
  intros Hl HE Hnot Hr1 Hn1 Hr2 Hn2 root s1 s2 s3 s4.
  pose proof (Cell_init l E info s Hl) as C0.
  rewrite bool_decide_eq_false_2 in C0 by done.
  pose proof (Cell_confirm_same l E info root _ _ _ _ C0) as C1. fold s1 in C1.
  pose proof (Cell_batch_armed l E info ms1 _ _ _ HE Hr1 Hn1 C1) as C2.
  fold s2 in C2.
  pose proof (Cell_confirm_same l E info root _ _ _ _ C2) as C3. fold s3 in C3.
  pose proof (Cell_batch_armed l E info ms2 _ _ _ HE Hr2 Hn2 C3) as C4.
  fold s4 in C4.
  destruct (Cell_observe _ _ _ _ _ _ _ C1) as (A1 & K1 & _ & N1).
  destruct (Cell_observe _ _ _ _ _ _ _ C2) as (A2 & K2 & _ & N2).
  destruct (Cell_observe _ _ _ _ _ _ _ C3) as (A3 & K3 & _ & N3).
  destruct (Cell_observe _ _ _ _ _ _ _ C4) as (A4 & K4 & _ & N4).
  repeat split.
  - by apply A1.
  - exact K1.
  - by rewrite K2, K1.
  - intros Hin. by apply A2 in Hin.
  - by apply A3.
  - by rewrite K3, K2.
  - by rewrite K4, K3.
  - intros Hin. by apply A4 in Hin.
  - destruct C1 as (i1 & Hl1 & _ & _ & _ & Hc1 & _).
    unfold deliver. rewrite Hl1, (Hc1 H), H0. done.
  - destruct C3 as (i3 & Hl3 & _ & _ & _ & Hc3 & _).
    unfold deliver. rewrite Hl3, (Hc3 H), H, H0. done.
Qed.

(** C7. The watcher was created with [autoUnobserve] set, is connected, and
    [E] is confirmed.  A delivered batch with a removal record for [E]
    (during which the callback does not confirm [E] anew) dispatches
    exactly one ['deleted'] event for [E], takes [E] out of the confirmed
    set and disconnects the watcher of the root: every other confirmed
    element stays in the set, and no later batch reaches the handler. *)
Theorem autoUnobserve_global_teardown
  (l : nat) (info : ObserverInfo) (E : Node) (ms : list MutationRecord)
  (s : Registry) :
  infos s !! l = Some info →
  autoUnobserve (observer info) = true →
  connected (observer info) = true →
  isElement E = true →
  E ∈ confirmedElements info →
  hasRemoval E ms → notReconfirmed (callback (observer info)) E ms →
  let s' := deliver l ms s in
  deletedCount E s' = S (deletedCount E s) ∧
  (E ∉ confirmedAt l s') ∧
  connectedAt l s' = false ∧
  (∀ ms', deliver l ms' s' = s') ∧
  onRemoved l E s =
    update_info l (set_observer disconnect)
      (triggerEvent (observeElement (observer info)) deleted E
         (update_info l (set_confirmed (λ c, c ∖ {[E]})) s)).
Proof.
  intros Hl Hau Hconn HE Hin Hr Hn s'.
  unfold s'. rewrite (deliver_connected l info) by done.
  pose proof (Cell_init l E info s Hl) as C0.
  rewrite bool_decide_eq_true_2 in C0 by done.
  pose proof (Cell_batch_armed l E info ms _ _ _ HE Hr Hn C0) as C1.
  rewrite Hau, Hconn in C1. simpl in C1.
  destruct (Cell_observe _ _ _ _ _ _ _ C1) as (A1 & K1 & D1 & _).
  split; [exact K1|]. split; [intros Hx; by apply A1 in Hx|].
  split; [by apply D1|]. split.
  - intros ms'. apply deliver_disconnected. by apply D1.
  - unfold onRemoved. rewrite HE, Hl, Hau. by rewrite decide_True.
Qed.

(** C3, as stated, fails: two subscribers share the watcher of a root, the
    first calls [unobserve()], and the watcher the second one relies on is
    disconnected and unregistered. *)
Lemma unobserve_shared_watch_counterexample :
  let R := HTMLElement 1 in
  let a := MutationObserverHelper (λ _, []) (optionsFor R None) empty in
  let b := MutationObserverHelper (λ n, [n]) (optionsFor R None) a.2 in
  let s := unobserve a.1 None b.2 in
  connectedAt (h_observerInfo b.1) b.2 = true ∧
  connectedAt (h_observerInfo b.1) s = false ∧
  observers s !! R = None.
Proof. vm_compute. done. Qed.

(** C3, amended. The watcher of a root is shared by its subscribers and is
    torn down by the first [unobserve()] of any of them: after subscriber
    A's [unobserve()] the watcher of subscriber B's handle is disconnected,
    the registry has no entry for the root and no batch reaches the
    handler.  [unobserve(element)] touches neither the connection nor the
    registry map. *)
Theorem unobserve_tears_down_for_all
  (R : Node) (cbA cbB : CustomCallback) (auA auB : option bool) (s : Registry) :
  let a := MutationObserverHelper cbA (optionsFor R auA) s in
  let b := MutationObserverHelper cbB (optionsFor R auB) a.2 in
  let s' := unobserve a.1 None b.2 in
  b.1 = a.1 ∧
  connectedAt (h_observerInfo b.1) s' = false ∧
  observers s' !! R = None ∧
  (∀ ms, deliver (h_observerInfo b.1) ms s' = s') ∧
  (∀ el, connectedAt (h_observerInfo b.1) (unobserve a.1 (Some el) b.2) =
           connectedAt (h_observerInfo b.1) b.2 ∧
         observers (unobserve a.1 (Some el) b.2) = observers b.2).
Proof.
  intros a b s'.
  pose proof (subscribe_registered cbA (optionsFor R auA) s) as [Hreg Hroot].
  fold a in Hreg, Hroot. simpl in Hreg, Hroot.
  assert (Hb : b = (a.1, a.2)).
  { unfold b. rewrite (subscribe_existing cbB _ a.2 (h_observerInfo a.1)) by done.
    simpl. f_equal. rewrite <- Hroot. by destruct (a.1). }
  unfold s'. rewrite Hb. simpl.
  assert (Hd : connectedAt (h_observerInfo a.1) (unobserve a.1 None a.2) = false).
  { unfold connectedAt, unobserve. simpl. rewrite list_lookup_alter_eq.
    by destruct (infos a.2 !! h_observerInfo a.1). }
  split; [done|]. split; [exact Hd|]. split.
  - unfold unobserve. simpl. rewrite Hroot. apply lookup_delete_eq.
  - split.
    + intros ms. by apply deliver_disconnected.
    + intros el. split; [|done].
      unfold connectedAt, unobserve. simpl. rewrite list_lookup_alter_eq.
      by destruct (infos a.2 !! h_observerInfo a.1).
Qed.

(** A sample run: one subscriber on root [HTMLElement 1], the element
    [HTMLElement 5] removed by a one-record batch. *)
Definition sampleInfo (autoUn : bool) : ObserverInfo :=
  {| confirmedElements := ∅;
     observer := {| callback := λ _, []; autoUnobserve := autoUn;
                    observeElement := HTMLElement 1; connected := true |} |}.

Definition sampleRegistry (autoUn : bool) : Registry :=
  (MutationObserverHelper (λ _, []) (optionsFor (HTMLElement 1) (Some autoUn))
     empty).2.

Definition sampleBatch : list MutationRecord :=
  [{| type := childList; addedNodes := [OtherNode 7];
      removedNodes := [HTMLElement 5] |}].

Lemma sampleBatch_hasRemoval : hasRemoval (HTMLElement 5) sampleBatch.
Proof.
  exists {| type := childList; addedNodes := [OtherNode 7];
            removedNodes := [HTMLElement 5] |}.
  split; [left|split; [reflexivity|left]].
Defined.

Lemma sampleBatch_notReconfirmed :
  notReconfirmed (λ _, []) (HTMLElement 5) sampleBatch.
Proof. intros m n _ _. apply not_elem_of_nil. Defined.

(** Witness for C2. *)
Lemma confirm_remove_rearm_witness :
  let E := HTMLElement 5 in
  let s := sampleRegistry false in
  let s1 := confirm 0 (HTMLElement 1) E s in
  let s2 := handleMutations 0 sampleBatch s1 in
  let s3 := confirm 0 (HTMLElement 1) E s2 in
  let s4 := handleMutations 0 sampleBatch s3 in
  (E ∈ confirmedAt 0 s1 ∧ deletedCount E s1 = deletedCount E s) ∧
  (deletedCount E s2 = S (deletedCount E s1) ∧ E ∉ confirmedAt 0 s2) ∧
  (E ∈ confirmedAt 0 s3 ∧ deletedCount E s3 = deletedCount E s2) ∧
  (deletedCount E s4 = S (deletedCount E s3) ∧ E ∉ confirmedAt 0 s4) ∧
  (false = false → true = true →
   deliver 0 sampleBatch s1 = s2 ∧ deliver 0 sampleBatch s3 = s4).
Proof.
  apply (confirm_remove_rearm 0 (sampleInfo false) (HTMLElement 5)
           sampleBatch sampleBatch (sampleRegistry false)).
  - reflexivity.
  - reflexivity.
  - apply not_elem_of_empty.
  - exact sampleBatch_hasRemoval.
  - exact sampleBatch_notReconfirmed.
  - exact sampleBatch_hasRemoval.
  - exact sampleBatch_notReconfirmed.
Defined.

(** Witness for C7: the element is confirmed, then removed. *)
Lemma autoUnobserve_global_teardown_witness :
  let E := HTMLElement 5 in
  let s := confirm 0 (HTMLElement 1) E (sampleRegistry true) in
  let s' := deliver 0 sampleBatch s in
  deletedCount E s' = S (deletedCount E s) ∧
  (E ∉ confirmedAt 0 s') ∧
  connectedAt 0 s' = false ∧
  (∀ ms', deliver 0 ms' s' = s') ∧
  onRemoved 0 E s =
    update_info 0 (set_observer disconnect)
      (triggerEvent (HTMLElement 1) deleted E
         (update_info 0 (set_confirmed (λ c, c ∖ {[E]})) s)).
Proof.
  apply (autoUnobserve_global_teardown 0
           (set_confirmed (λ c, {[HTMLElement 5]} ∪ c) (sampleInfo true))
           (HTMLElement 5) sampleBatch
           (confirm 0 (HTMLElement 1) (HTMLElement 5) (sampleRegistry true))).
  - reflexivity.
  - reflexivity.
  - reflexivity.
  - reflexivity.
  - simpl. apply elem_of_union_l, elem_of_singleton. reflexivity.
  - exact sampleBatch_hasRemoval.
  - exact sampleBatch_notReconfirmed.
Defined.

End MutationFacts.

(** * Properties of the accordion widget *)

Module DetailsFacts.
Import Details.
Open Scope Z_scope.

(** The element every sample page is made of: a closed accordion section,
    summary 40 high, content 160 high when open and 0 high when closed,
    holding one table container whose [scroll.updateMetrics] returns. *)
Definition section (classes : gset string) : Element :=
  {| parentElement := Some 100%nat; tagName := "DETAILS"; el_open := false;
     classList := classes; style_height := None; style_overflow := "";
     summaryHeight := 40; contentHeight := 160; closedContentHeight := 0;
     tableContainers := [true] |}.

(** ** What a click does *)

Lemma onClick_unfold w i d e :
  instances w !! i = Some d → elements w !! i = Some e →
  onClick i w =
    let w1 := upd_el i (set_style_overflow "hidden") w in
    if isClosing d || negb (el_open e) then open i false w1
    else if isExpanding d || el_open e then shrink i false w1
    else w1.
Proof. intros Hd He. unfold onClick. by rewrite Hd, He. Qed.




(** ** How the methods change the page *)

(** The animation list after [if (this.animation) this.animation.cancel()]. *)
Definition idled (a : option nat) (l : list Animation) : list Animation :=
  match a with
  | Some a => alter (set_playState Idle) a l
  | None => l
  end.

Lemma length_idled a l : length (idled a l) = length l.
Proof. destruct a; simpl; [apply length_alter | done]. Qed.

Lemma lookup_idled (a : option nat) (l : list Animation) (k : nat) :
  idled a l !! k =
  if decide (a = Some k) then set_playState Idle <$> l !! k else l !! k.
Proof.
  destruct a as [a|]; unfold idled.
  - rewrite list_lookup_alter. destruct (decide (a = k)) as [->|Hne].
    + by rewrite decide_True.
    + rewrite decide_False; [done | congruence].
  - by rewrite decide_False.
Qed.

Lemma alter_idle_noop (a : nat) (l : list Animation) :
  (∀ an, l !! a = Some an → a_playState an = Idle) →
  alter (set_playState Idle) a l = l.
Proof.
  intros H. apply list_eq. intros k. rewrite list_lookup_alter.
  case_decide as Hk; [subst k|done].
  destruct (l !! a) as [an|] eqn:Han; [|done]. simpl.
  specialize (H an eq_refl). destruct an; simpl in *. by subst.
Qed.

Lemma cancelCurrent_spec i w :
  let w' := cancelCurrent i w in
  elements w' = elements w ∧ instances w' = instances w ∧
  frames w' = frames w ∧ timeouts w' = timeouts w ∧
  animations w' = idled (animationOf i w) (animations w).
Proof.
  unfold cancelCurrent. destruct (animationOf i w) as [a|]; simpl; [|done].
  unfold cancel. destruct (animations w !! a) as [an|] eqn:Han.
  - destruct (a_playState an) eqn:Hst; simpl; try done.
    repeat split. symmetry. apply alter_idle_noop. congruence.
  - repeat split. symmetry. apply alter_idle_noop. congruence.
Qed.

Lemma instances_alter2 (m : gmap nat Instance) i d f g :
  m !! i = Some d → alter f i (alter g i m) = <[i := f (g d)]> m.
Proof.
  intros Hd. apply map_eq. intros k. destruct (decide (k = i)) as [->|Hne].
  - by rewrite lookup_alter_eq, lookup_alter_eq, lookup_insert_eq, Hd.
  - by rewrite !lookup_alter_ne, lookup_insert_ne.
Qed.

Lemma shrink_spec i instant w d e :
  instances w !! i = Some d → elements w !! i = Some e →
  let w' := shrink i instant w in
  elements w' = elements w ∧ frames w' = frames w ∧
  timeouts w' = timeouts w ∧
  animations w' = idled (animation d) (animations w) ++
    [newAnimation i (offsetHeight i w) (summaryHeight e) instant ByShrink] ∧
  instances w' =
    <[i := set_animation (Some (length (animations w))) (set_isClosing true d)]>
      (instances w).
Proof.
  intros Hd He. unfold shrink. rewrite Hd, He.
  set (w1 := upd_inst i (set_isClosing true) w).
  destruct (cancelCurrent_spec i w1) as (E1 & E2 & E3 & E4 & E5).
  assert (Ha : animationOf i w1 = animation d).
  { unfold animationOf, w1. simpl. by rewrite lookup_alter_eq, Hd. }
  rewrite Ha in E5. simpl.
  rewrite E1, E2, E3, E4, E5, length_idled. repeat split.
  unfold w1. simpl. by apply instances_alter2.
Qed.

Lemma expand_spec i instant w d e :
  instances w !! i = Some d → elements w !! i = Some e →
  let w' := expand i instant w in
  elements w' = elements w ∧ frames w' = frames w ∧
  timeouts w' = timeouts w ∧
  animations w' = idled (animation d) (animations w) ++
    [newAnimation i (offsetHeight i w)
       (summaryHeight e + content_offsetHeight e) instant ByExpand] ∧
  instances w' =
    <[i := set_animation (Some (length (animations w))) (set_isExpanding true d)]>
      (instances w).
Proof.
  intros Hd He. unfold expand. rewrite Hd, He.
  set (w1 := upd_inst i (set_isExpanding true) w).
  destruct (cancelCurrent_spec i w1) as (E1 & E2 & E3 & E4 & E5).
  assert (Ha : animationOf i w1 = animation d).
  { unfold animationOf, w1. simpl. by rewrite lookup_alter_eq, Hd. }
  rewrite Ha in E5. simpl.
  rewrite E1, E2, E3, E4, E5, length_idled. repeat split.
  unfold w1. simpl. by apply instances_alter2.
Qed.

(** ** Handles, animations and the queue of finish events *)

Lemma filter_all {A} (P : A → Prop) `{∀ x, Decision (P x)} (l : list A) :
  (∀ x, x ∈ l → P x) → filter P l = l.
Proof.
  induction l as [|x l IH]; intros Hall; [done|].
  rewrite filter_cons_True by (apply Hall; left).
  f_equal. apply IH. intros y Hy. apply Hall. by right.
Qed.

Lemma alter_playState_noop (p : PlayState) (a : nat) (l : list Animation) :
  (∀ an, l !! a = Some an → a_playState an = p) →
  alter (set_playState p) a l = l.
Proof.
  intros H. apply list_eq. intros k. rewrite list_lookup_alter.
  case_decide as Hk; [subst k|done].
  destruct (l !! a) as [an|] eqn:Han; [|done]. simpl.
  specialize (H an eq_refl). destruct an; simpl in *. by subst.
Qed.

(** Every playing animation is the one its element's instance holds in
    [this.animation]. *)
Definition tracked (w : World) : Prop :=
  ∀ a an, animations w !! a = Some an → a_playState an = Running →
          animationOf (a_target an) w = Some a.

(** The handle an instance holds is an animation of its own element. *)
Definition owned (w : World) : Prop :=
  ∀ i a, animationOf i w = Some a →
         ∃ an, animations w !! a = Some an ∧ a_target an = i.

(** A queued finish event is that of a finished animation which its
    element's instance holds. *)
Definition due (w : World) : Prop :=
  ∀ a, a ∈ finishEvents w →
       ∃ an, animations w !! a = Some an ∧ a_playState an = Finished ∧
             animationOf (a_target an) w = Some a.

Definition consistent (w : World) : Prop := tracked w ∧ owned w ∧ due w.

(** The queued finish events are those of animations of the page. *)
Definition queued (w : World) : Prop :=
  ∀ a, a ∈ finishEvents w → (a < length (animations w))%nat.

(** The handle an instance holds is the newest animation of its element. *)
Definition newest (w : World) : Prop :=
  ∀ i a b an, animationOf i w = Some a → animations w !! b = Some an →
              a_target an = i → (b ≤ a)%nat.

(** What holds of the handles and the queue whatever the scripts do. *)
Definition sound (w : World) : Prop := owned w ∧ queued w ∧ newest w.

Lemma animationOf_eq w w' i :
  instances w' !! i = instances w !! i → animationOf i w' = animationOf i w.
Proof. unfold animationOf. by intros ->. Qed.

Lemma animationOf_alter w w' i j f :
  instances w' = alter f j (instances w) →
  (∀ d, animation (f d) = animation d) →
  animationOf i w' = animationOf i w.
Proof.
  intros Hi Hf. unfold animationOf. rewrite Hi.
  destruct (decide (i = j)) as [->|Hne].
  - rewrite lookup_alter_eq. destruct (instances w !! j); simpl; [apply Hf|done].
  - by rewrite lookup_alter_ne.
Qed.

(** ** What holds after every run *)

(** Steps that create no animation and give no instance a handle it did
    not hold. *)
Lemma sound_weaken w w' :
  (∀ i a, animationOf i w' = Some a → animationOf i w = Some a) →
  (∀ a an', animations w' !! a = Some an' →
            ∃ an, animations w !! a = Some an ∧ a_target an = a_target an') →
  (∀ a an, animations w !! a = Some an → is_Some (animations w' !! a)) →
  (∀ a, a ∈ finishEvents w' → a ∈ finishEvents w) →
  sound w → sound w'.
Proof.
  intros Hi Hback Hfwd Hq (Ho & Hr & Hn). split; [|split].
  - intros i a Hia. destruct (Ho i a (Hi i a Hia)) as (an & Han & Htg).
    destruct (Hfwd a an Han) as [an' Han']. exists an'. split; [done|].
    destruct (Hback a an' Han') as (an0 & Han0 & <-). congruence.
  - intros a Hin. specialize (Hr a (Hq a Hin)).
    apply lookup_lt_is_Some in Hr as [an Han].
    destruct (Hfwd a an Han) as [an' Han']. by apply lookup_lt_Some in Han'.
  - intros i a b an' Hia Han' Htg.
    destruct (Hback b an' Han') as (an & Han & Htg').
    apply (Hn i a b an); [by apply Hi | done | congruence].
Qed.

Lemma sound_fields w w' :
  instances w' = instances w → animations w' = animations w →
  finishEvents w' = finishEvents w →
  sound w → sound w'.
Proof.
  intros Hi Ha Hq. apply sound_weaken.
  - intros i a. unfold animationOf. by rewrite Hi.
  - intros a an'. rewrite Ha. by exists an'.
  - intros a an. rewrite Ha. by eexists.
  - intros a. by rewrite Hq.
Qed.

Lemma sound_alter_inst w w' i f :
  instances w' = alter f i (instances w) →
  animations w' = animations w →
  finishEvents w' = finishEvents w →
  (∀ d, animation (f d) = animation d) →
  sound w → sound w'.
Proof.
  intros Hi Ha Hq Hf. apply sound_weaken.
  - intros j a. by rewrite (animationOf_alter w w' j i f).
  - intros a an'. rewrite Ha. by exists an'.
  - intros a an. rewrite Ha. by eexists.
  - intros a. by rewrite Hq.
Qed.

Lemma sound_alter_anim w w' a f :
  instances w' = instances w →
  animations w' = alter f a (animations w) →
  (∀ b, b ∈ finishEvents w' → b ∈ finishEvents w) →
  (∀ an, a_target (f an) = a_target an) →
  sound w → sound w'.
Proof.
  intros Hi Ha Hq Hf. apply sound_weaken.
  - intros j b. unfold animationOf. by rewrite Hi.
  - intros b an'. rewrite Ha, list_lookup_alter. case_decide; [subst|by exists an'].
    destruct (animations w !! b) as [an|]; [|done]. simpl. intros [= <-].
    exists an. by rewrite Hf.
  - intros b an Han. rewrite Ha, list_lookup_alter.
    case_decide; [subst|]; rewrite Han; by eexists.
  - done.
Qed.

(** Starting a transition: a new animation is appended and becomes the
    held handle. *)
Lemma sound_start w w' i d d' l startHeight endHeight instant h :
  sound w → instances w !! i = Some d →
  instances w' = <[i := d']> (instances w) →
  animation d' = Some (length (animations w)) →
  animations w' = idled l (animations w) ++
                  [newAnimation i startHeight endHeight instant h] →
  finishEvents w' = finishEvents w ++
                    (if instant then [length (animations w)] else []) →
  sound w'.
Proof.
  intros (Ho & Hr & Hn) Hd Hi Hd' Ha Hq.
  set (an := newAnimation i startHeight endHeight instant h) in *.
  assert (Hnew : animationOf i w' = Some (length (animations w))).
  { unfold animationOf. by rewrite Hi, lookup_insert_eq. }
  assert (Hoth : ∀ j, j ≠ i → animationOf j w' = animationOf j w).
  { intros j Hj. apply animationOf_eq. by rewrite Hi, lookup_insert_ne. }
  assert (Hlen : length (animations w') = S (length (animations w))).
  { rewrite Ha, length_app, length_idled. simpl. lia. }
  assert (Hold : ∀ b an', animations w' !! b = Some an' →
            (b < length (animations w))%nat →
            ∃ an0, animations w !! b = Some an0 ∧ a_target an0 = a_target an').
  { intros b an' Han' Hlt. rewrite Ha in Han'.
    rewrite lookup_app_l in Han' by (by rewrite length_idled).
    rewrite lookup_idled in Han'. case_decide.
    - destruct (animations w !! b) as [an0|]; [|done]. simpl in Han'.
      injection Han' as <-. by exists an0.
    - by exists an'. }
  split; [|split].
  - intros j a Hja. destruct (decide (j = i)) as [->|Hne].
    + rewrite Hnew in Hja. injection Hja as <-. exists an. split; [|done].
      rewrite Ha. apply list_lookup_middle. by rewrite length_idled.
    + rewrite Hoth in Hja by done.
      destruct (Ho j a Hja) as (an0 & Han0 & Htg0).
      pose proof (lookup_lt_Some _ _ _ Han0) as Hlt.
      rewrite Ha, lookup_app_l by (by rewrite length_idled).
      rewrite lookup_idled, Han0. case_decide; simpl; eauto.
  - intros a Hin. rewrite Hlen. rewrite Hq in Hin.
    apply elem_of_app in Hin as [Hin|Hin].
    + specialize (Hr a Hin). lia.
    + destruct instant; [|by inversion Hin].
      apply list_elem_of_singleton in Hin. lia.
  - intros j a b an' Hja Han' Htg.
    pose proof (lookup_lt_Some _ _ _ Han') as Hb. rewrite Hlen in Hb.
    destruct (decide (j = i)) as [->|Hne].
    + rewrite Hnew in Hja. injection Hja as <-. lia.
    + rewrite Hoth in Hja by done.
      destruct (decide (b < length (animations w))%nat) as [Hlt|Hge].
      * destruct (Hold b an' Han' Hlt) as (an0 & Han0 & Htg0).
        apply (Hn j a b an0); [done | done | congruence].
      * assert (b = length (animations w)) as -> by lia.
        rewrite Ha, list_lookup_middle in Han' by (by rewrite length_idled).
        injection Han' as <-. simpl in Htg. congruence.
Qed.

Lemma cancelCurrent_finishEvents i w :
  finishEvents (cancelCurrent i w) = finishEvents w.
Proof.
  unfold cancelCurrent. destruct (animationOf i w) as [a|]; [|done].
  unfold cancel. destruct (animations w !! a) as [an|]; [|done].
  by destruct (a_playState an).
Qed.

Lemma shrink_finishEvents i instant w d e :
  instances w !! i = Some d → elements w !! i = Some e →
  finishEvents (shrink i instant w) =
    finishEvents w ++ (if instant then [length (animations w)] else []).
Proof.
  intros Hd He. unfold shrink. rewrite Hd, He.
  set (w1 := upd_inst i (set_isClosing true) w).
  destruct (cancelCurrent_spec i w1) as (_ & _ & _ & _ & E5).
  simpl. by rewrite (cancelCurrent_finishEvents i w1), E5, length_idled.
Qed.

Lemma expand_finishEvents i instant w d e :
  instances w !! i = Some d → elements w !! i = Some e →
  finishEvents (expand i instant w) =
    finishEvents w ++ (if instant then [length (animations w)] else []).
Proof.
  intros Hd He. unfold expand. rewrite Hd, He.
  set (w1 := upd_inst i (set_isExpanding true) w).
  destruct (cancelCurrent_spec i w1) as (_ & _ & _ & _ & E5).
  simpl. by rewrite (cancelCurrent_finishEvents i w1), E5, length_idled.
Qed.

Lemma sound_shrink i instant w : sound w → sound (shrink i instant w).
Proof.
  intros Hs.
  destruct (instances w !! i) as [d|] eqn:Hd;
    [|by unfold shrink; rewrite Hd].
  destruct (elements w !! i) as [e|] eqn:He;
    [|by unfold shrink; rewrite Hd, He].
  destruct (shrink_spec i instant w d e Hd He) as (_ & _ & _ & Ha & Hi).
  eapply (sound_start w _ i d); [done | done | exact Hi | done | exact Ha |].
  by apply (shrink_finishEvents i instant w d e).
Qed.

Lemma sound_expand i instant w : sound w → sound (expand i instant w).
Proof.
  intros Hs.
  destruct (instances w !! i) as [d|] eqn:Hd;
    [|by unfold expand; rewrite Hd].
  destruct (elements w !! i) as [e|] eqn:He;
    [|by unfold expand; rewrite Hd, He].
  destruct (expand_spec i instant w d e Hd He) as (_ & _ & _ & Ha & Hi).
  eapply (sound_start w _ i d); [done | done | exact Hi | done | exact Ha |].
  by apply (expand_finishEvents i instant w d e).
Qed.

Lemma sound_shrinkSiblings instant l w :
  sound w → sound (foldl (shrinkSibling instant) w l).
Proof.
  revert w. induction l as [|j l IH]; intros w Hs; [done|].
  simpl. apply IH. unfold shrinkSibling.
  destruct (instances w !! j); [by apply sound_shrink | done].
Qed.

Lemma sound_open i instant w : sound w → sound (open i instant w).
Proof.
  intros Hs. unfold open.
  destruct (instances w !! i) as [d|]; [|done].
  destruct (elements w !! i) as [e|]; [|done].
  match goal with |- sound (if _ then foldl _ ?w3 _ else _) =>
    assert (Hs3 : sound w3) by (by apply (sound_fields w)) end.
  destruct (_ && _); [by apply sound_shrinkSiblings | done].
Qed.

Lemma sound_onClick i w : sound w → sound (onClick i w).
Proof.
  intros Hs. unfold onClick.
  destruct (instances w !! i) as [d|]; [|done].
  destruct (elements w !! i) as [e|]; [|done].
  assert (Hs1 : sound (upd_el i (set_style_overflow "hidden") w))
    by (by apply (sound_fields w)).
  destruct (_ || _); [by apply sound_open|].
  destruct (_ || _); [by apply sound_shrink | done].
Qed.

Lemma onAnimationFinish_fields i b w :
  animations (onAnimationFinish i b w) = animations w ∧
  frames (onAnimationFinish i b w) = frames w ∧
  finishEvents (onAnimationFinish i b w) = finishEvents w ∧
  (∀ j, j ≠ i → instances (onAnimationFinish i b w) !! j = instances w !! j) ∧
  (∀ j, j ≠ i → elements (onAnimationFinish i b w) !! j = elements w !! j) ∧
  animationOf i (onAnimationFinish i b w) = None ∧
  isOpen (onAnimationFinish i b w) i = (b && bool_decide (is_Some (elements w !! i))).
Proof.
  unfold onAnimationFinish, isOpen, animationOf. simpl. repeat split.
  - intros j Hj. by rewrite !lookup_alter_ne.
  - intros j Hj. by rewrite !list_lookup_alter_ne.
  - rewrite !lookup_alter_eq. by destruct (instances w !! i).
  - rewrite !list_lookup_alter_eq. destruct (elements w !! i); simpl.
    + by rewrite andb_true_r.
    + by rewrite andb_false_r.
Qed.

(** Whether the finish handler of [an] reaches [onAnimationFinish]. *)
Definition returns (an : Animation) (w : World) : bool :=
  match a_handlers an with
  | ByExpand =>
      forallb id (from_option tableContainers [] (elements w !! a_target an))
  | ByShrink => true
  end.

(** The world the metrics helpers leave behind. *)
Definition measured (an : Animation) (w : World) : World :=
  match a_handlers an with
  | ByExpand => (updateMetrics (a_target an) w).1
  | ByShrink => w
  end.

Lemma onfinish_unfold an w :
  onfinish an w =
  if returns an w
  then onAnimationFinish (a_target an)
         (bool_decide (a_handlers an = ByExpand)) (measured an w)
  else measured an w.
Proof.
  unfold onfinish, returns, measured. destruct (a_handlers an); simpl; [|done].
  by destruct (forallb id _).
Qed.

Lemma measured_fields an w :
  elements (measured an w) = elements w ∧
  instances (measured an w) = instances w ∧
  animations (measured an w) = animations w ∧
  frames (measured an w) = frames w ∧
  finishEvents (measured an w) = finishEvents w ∧
  cancelEvents (measured an w) = cancelEvents w ∧
  timeouts (measured an w) = timeouts w.
Proof. unfold measured. by destruct (a_handlers an). Qed.

Lemma onfinish_fields an w :
  animations (onfinish an w) = animations w ∧
  frames (onfinish an w) = frames w ∧
  finishEvents (onfinish an w) = finishEvents w ∧
  (∀ j, j ≠ a_target an → instances (onfinish an w) !! j = instances w !! j) ∧
  (∀ j, j ≠ a_target an → elements (onfinish an w) !! j = elements w !! j) ∧
  (animationOf (a_target an) (onfinish an w) = None ∨
   instances (onfinish an w) = instances w ∧
   elements (onfinish an w) = elements w).
Proof.
  rewrite onfinish_unfold.
  destruct (measured_fields an w) as (M1 & M2 & M3 & M4 & M5 & _).
  destruct (returns an w).
  - destruct (onAnimationFinish_fields (a_target an)
                (bool_decide (a_handlers an = ByExpand)) (measured an w))
      as (F1 & F2 & F3 & F4 & F5 & F6 & _).
    rewrite F1, F2, F3, M3, M4, M5. repeat split.
    + intros j Hj. by rewrite F4, M2.
    + intros j Hj. by rewrite F5, M1.
    + by left.
  - rewrite M1, M2, M3, M4, M5. repeat split. by right.
Qed.

(** A finish handler gives no instance a handle. *)
Lemma onfinish_handles an w i a :
  animationOf i (onfinish an w) = Some a → animationOf i w = Some a.
Proof.
  destruct (onfinish_fields an w) as (_ & _ & _ & F4 & _ & F6).
  destruct (decide (i = a_target an)) as [->|Hne].
  - destruct F6 as [Hn|[Hi _]]; [congruence|].
    unfold animationOf. by rewrite Hi.
  - unfold animationOf. by rewrite F4.
Qed.

Lemma sound_finish a w : sound w → sound (finish a w).
Proof.
  intros Hs. unfold finish.
  destruct (animations w !! a) as [an|] eqn:Han; [|done].
  case_bool_decide as Hin.
  - set (w0 := set_finishEvents (filter (λ b, b ≠ a) (finishEvents w)) w).
    destruct (onfinish_fields an w0) as (F1 & _ & F3 & _).
    revert Hs. apply sound_weaken.
    + intros i b Hib. by apply onfinish_handles in Hib.
    + intros b an'. rewrite F1. by exists an'.
    + intros b an0. rewrite F1. by eexists.
    + intros b. rewrite F3. simpl. by intros [_ ?]%list_elem_of_filter.
  - destruct (a_playState an); try done.
    set (w0 := upd_anim a (set_playState Finished) w).
    destruct (onfinish_fields an w0) as (F1 & _ & F3 & _).
    assert (Hs0 : sound w0) by (by apply (sound_alter_anim w _ a (set_playState Finished))).
    revert Hs0. apply sound_weaken.
    + intros i b Hib. by apply onfinish_handles in Hib.
    + intros b an'. rewrite F1. by exists an'.
    + intros b an0. rewrite F1. by eexists.
    + intros b. by rewrite F3.
Qed.

Lemma sound_construct i w :
  instances w !! i = None → sound w → sound (constructor i w).
Proof.
  intros Hnone. apply sound_weaken; simpl; try by eauto.
  intros j a. unfold animationOf. simpl.
  destruct (decide (j = i)) as [->|Hne].
  - by rewrite lookup_insert_eq.
  - by rewrite lookup_insert_ne.
Qed.

Lemma sound_exec w ev : sound w → sound (exec w ev).
Proof.
  intros Hs. destruct ev as [i| |i|i instant|i instant| |a h|a|]; simpl.
  - destruct (elements w !! i); [|done].
    destruct (instances w !! i) eqn:Hi; [done|]. by apply sound_construct.
  - destruct (timeouts w) as [|i q]; [done|].
    by apply (sound_alter_inst w _ i (set_siblings (captureSiblings i w))).
  - by apply sound_onClick.
  - by apply sound_open.
  - by apply sound_shrink.
  - destruct (frames w) as [|[i instant] q]; [done|].
    apply sound_expand. by apply (sound_fields w).
  - destruct (animations w !! a) as [an|]; [|done].
    destruct (a_playState an); try done.
    by apply (sound_alter_anim w _ a (set_current h)).
  - by apply sound_finish.
  - destruct (cancelEvents w) as [|a q]; [done|].
    assert (Hq : sound (set_cancelEvents q w)) by (by apply (sound_fields w)).
    destruct (animations w !! a) as [an|]; [|done].
    unfold oncancel. destruct (a_handlers an).
    + by apply (sound_alter_inst (set_cancelEvents q w) _ (a_target an)
                  (set_isExpanding false)).
    + by apply (sound_alter_inst (set_cancelEvents q w) _ (a_target an)
                  (set_isClosing false)).
Qed.

Lemma sound_page els : sound (page els).
Proof.
  split; [|split].
  - intros i a Hia. unfold animationOf in Hia. simpl in Hia.
    by rewrite lookup_empty in Hia.
  - intros a Hin. by inversion Hin.
  - intros i a b an Hia. unfold animationOf in Hia. simpl in Hia.
    by rewrite lookup_empty in Hia.
Qed.

(** ** The handle invariant *)

(** Steps that change neither a handle, nor the target or play state of an
    animation, nor the queued finish events. *)
Lemma consistent_same w w' :
  (∀ i, animationOf i w' = animationOf i w) →
  (∀ a, animations w' !! a = None ↔ animations w !! a = None) →
  (∀ a an an', animations w !! a = Some an → animations w' !! a = Some an' →
               a_target an' = a_target an ∧ a_playState an' = a_playState an) →
  finishEvents w' = finishEvents w →
  consistent w → consistent w'.
Proof.
  intros Hi Hn Ha Hq (Ht & Ho & Hd). split; [|split].
  - intros a an' Han' Hrun. rewrite Hi.
    destruct (animations w !! a) as [an|] eqn:Han.
    + destruct (Ha a an an' Han Han') as [Htg Hst].
      rewrite Htg. apply (Ht a an Han). congruence.
    + apply Hn in Han. congruence.
  - intros i a Hia. rewrite Hi in Hia.
    destruct (Ho i a Hia) as (an & Han & Htg).
    destruct (animations w' !! a) as [an'|] eqn:Han'.
    + exists an'. split; [done|].
      destruct (Ha a an an' Han Han') as [Htg' _]. congruence.
    + apply Hn in Han'. congruence.
  - intros a Hin. rewrite Hq in Hin.
    destruct (Hd a Hin) as (an & Han & Hfin & Hheld).
    destruct (animations w' !! a) as [an'|] eqn:Han'.
    + exists an'. destruct (Ha a an an' Han Han') as [Htg Hst].
      split; [done|]. split; [congruence|]. by rewrite Hi, Htg.
    + apply Hn in Han'. congruence.
Qed.

Lemma consistent_fields w w' :
  instances w' = instances w → animations w' = animations w →
  finishEvents w' = finishEvents w →
  consistent w → consistent w'.
Proof.
  intros Hi Ha Hq. apply consistent_same; [| | |done].
  - intros i. apply animationOf_eq. by rewrite Hi.
  - intros a. by rewrite Ha.
  - intros a an an'. rewrite Ha. intros -> [= ->]. done.
Qed.

(** Starting a transition keeps every playing animation the handle of its
    element: the held handle is cancelled, and the new animation becomes
    the held handle. *)
Lemma tracked_start w w' i d d' startHeight endHeight instant h :
  tracked w → instances w !! i = Some d →
  instances w' = <[i := d']> (instances w) →
  animation d' = Some (length (animations w)) →
  animations w' = idled (animation d) (animations w) ++
                  [newAnimation i startHeight endHeight instant h] →
  tracked w'.
Proof.
  intros Ht Hd Hi Hd' Ha.
  assert (Hai : animationOf i w = animation d).
  { unfold animationOf. by rewrite Hd. }
  assert (Hnew : animationOf i w' = Some (length (animations w))).
  { unfold animationOf. by rewrite Hi, lookup_insert_eq. }
  assert (Hoth : ∀ j, j ≠ i → animationOf j w' = animationOf j w).
  { intros j Hj. apply animationOf_eq. by rewrite Hi, lookup_insert_ne. }
  intros a an' Han' Hrun. rewrite Ha in Han'.
  destruct (decide (a < length (animations w))%nat) as [Hlt|Hge].
  - rewrite lookup_app_l in Han' by (by rewrite length_idled).
    rewrite lookup_idled in Han'. case_decide as Hcur.
    + destruct (animations w !! a); simplify_eq/=.
    + pose proof (Ht a an' Han' Hrun) as Hold.
      destruct (decide (a_target an' = i)) as [Heq|Hne].
      * rewrite Heq, Hai in Hold. done.
      * by rewrite Hoth.
  - apply lookup_app_Some in Han' as [Han'|[Hlen Han']].
    + apply lookup_lt_Some in Han'. rewrite length_idled in Han'. lia.
    + rewrite length_idled in Hlen, Han'.
      destruct (a - length (animations w))%nat as [|n] eqn:Hn;
        [|by destruct n].
      simpl in Han'. simplify_eq. simpl. rewrite Hnew. f_equal. lia.
Qed.



Lemma elem_of_stale w a :
  a ∈ stale w ↔
  a ∈ finishEvents w ∧ a_playState <$> animations w !! a = Some Idle.
Proof. unfold stale. rewrite list_elem_of_filter. tauto. Qed.

Lemma stale_nil w :
  stale w = [] ↔
  ∀ a an, a ∈ finishEvents w → animations w !! a = Some an →
          a_playState an ≠ Idle.
Proof.
  split.
  - intros Hnil a an Hin Han Hidle.
    assert (Hs : a ∈ stale w).
    { apply elem_of_stale. split; [done|]. by rewrite Han, <- Hidle. }
    rewrite Hnil in Hs. by inversion Hs.
  - intros Hall. destruct (stale w) as [|a r] eqn:Hs; [done|].
    assert (Ha : a ∈ stale w) by (rewrite Hs; left).
    apply elem_of_stale in Ha as [Hin Hst].
    destruct (animations w !! a) as [an|] eqn:Han; [|done].
    simpl in Hst. injection Hst as Hst. by destruct (Hall a an Hin Han).
Qed.

Lemma due_stale w : due w → stale w = [].
Proof.
  intros Hd. apply stale_nil. intros a an Hin Han.
  destruct (Hd a Hin) as (an' & Han' & Hfin & _). congruence.
Qed.

(** A stale finish event stays stale when a transition is started. *)
Lemma stale_start_back w w' l an :
  animations w' = idled l (animations w) ++ [an] →
  (∀ a, a ∈ finishEvents w → a ∈ finishEvents w') →
  stale w' = [] → stale w = [].
Proof.
  intros Ha Hq Hnil. apply stale_nil. intros a an0 Hin Han0 Hidle.
  apply (proj1 (stale_nil w') Hnil a (set_playState Idle an0)); [by apply Hq| |done].
  rewrite Ha, lookup_app_l
    by (rewrite length_idled; by apply lookup_lt_Some in Han0).
  rewrite lookup_idled, Han0. case_decide; simpl; [done|].
  f_equal. destruct an0; simpl in *. by subst.
Qed.

Lemma stale_shrink_back i instant w :
  stale (shrink i instant w) = [] → stale w = [].
Proof.
  destruct (instances w !! i) as [d|] eqn:Hd;
    [|by unfold shrink; rewrite Hd].
  destruct (elements w !! i) as [e|] eqn:He;
    [|by unfold shrink; rewrite Hd, He].
  destruct (shrink_spec i instant w d e Hd He) as (_ & _ & _ & Ha & _).
  apply (stale_start_back w _ _ _ Ha).
  intros a Hin. rewrite (shrink_finishEvents i instant w d e Hd He).
  apply elem_of_app. by left.
Qed.

Lemma stale_shrinkSiblings_back instant l w :
  stale (foldl (shrinkSibling instant) w l) = [] → stale w = [].
Proof.
  revert w. induction l as [|j l IH]; intros w Hnil; [done|].
  simpl in Hnil. apply IH in Hnil. unfold shrinkSibling in Hnil.
  destruct (instances w !! j); [by apply stale_shrink_back in Hnil | done].
Qed.

(** Starting a transition on a section whose handle has no finish event
    queued. *)
Lemma consistent_start w w' i d d' startHeight endHeight instant h :
  consistent w → instances w !! i = Some d →
  instances w' = <[i := d']> (instances w) →
  animation d' = Some (length (animations w)) →
  animations w' = idled (animation d) (animations w) ++
                  [newAnimation i startHeight endHeight instant h] →
  finishEvents w' = finishEvents w ++
                    (if instant then [length (animations w)] else []) →
  stale w' = [] →
  consistent w'.
Proof.
  intros (Ht & Ho & Hdue) Hd Hi Hd' Ha Hq Hfresh.
  set (an := newAnimation i startHeight endHeight instant h) in *.
  assert (Hai : animationOf i w = animation d).
  { unfold animationOf. by rewrite Hd. }
  assert (Hnew : animationOf i w' = Some (length (animations w))).
  { unfold animationOf. by rewrite Hi, lookup_insert_eq. }
  assert (Hoth : ∀ j, j ≠ i → animationOf j w' = animationOf j w).
  { intros j Hj. apply animationOf_eq. by rewrite Hi, lookup_insert_ne. }
  assert (Hlast : animations w' !! length (animations w) = Some an).
  { rewrite Ha. apply list_lookup_middle. by rewrite length_idled. }
  split; [by apply (tracked_start w w' i d d' startHeight endHeight instant h)|].
  split.
  - intros j a Hja. rewrite Ha.
    destruct (decide (j = i)) as [->|Hne].
    + rewrite Hnew in Hja. simplify_eq. exists an. split; [|done].
      rewrite lookup_app_r by (by rewrite length_idled).
      by rewrite length_idled, Nat.sub_diag.
    + rewrite Hoth in Hja by done.
      destruct (Ho j a Hja) as (an0 & Han0 & Htg0).
      pose proof (lookup_lt_Some _ _ _ Han0) as Hlt.
      rewrite lookup_app_l by (by rewrite length_idled).
      rewrite lookup_idled, Han0. case_decide; simpl; eauto.
  - intros b Hb. pose proof Hb as Hb'.
    rewrite Hq in Hb. apply elem_of_app in Hb as [Hb|Hb].
    + destruct (Hdue b Hb) as (anb & Hanb & Hfin & Hheld).
      assert (Hnb : animation d ≠ Some b).
      { intros Hcur.
        apply (proj1 (stale_nil w') Hfresh b (set_playState Idle anb) Hb');
          [|done].
        rewrite Ha, lookup_app_l
          by (rewrite length_idled; by apply lookup_lt_Some in Hanb).
        by rewrite lookup_idled, decide_True, Hanb. }
      assert (Htb : a_target anb ≠ i).
      { intros Heq. rewrite Heq, Hai in Hheld. done. }
      exists anb. split; [|split; [done|by rewrite Hoth]].
      rewrite Ha, lookup_app_l
        by (rewrite length_idled; by apply lookup_lt_Some in Hanb).
      rewrite lookup_idled. by rewrite decide_False.
    + destruct instant; [|by inversion Hb].
      apply list_elem_of_singleton in Hb. subst b.
      exists an. split; [done|]. split; [done|]. exact Hnew.
Qed.

Lemma consistent_shrink i instant w :
  consistent w → stale (shrink i instant w) = [] →
  consistent (shrink i instant w).
Proof.
  intros Hc.
  destruct (instances w !! i) as [d|] eqn:Hd;
    [|by unfold shrink; rewrite Hd].
  destruct (elements w !! i) as [e|] eqn:He;
    [|by unfold shrink; rewrite Hd, He].
  destruct (shrink_spec i instant w d e Hd He) as (_ & _ & _ & Ha & Hi).
  intros Hfresh.
  eapply (consistent_start w _ i d);
    [done | done | exact Hi | done | exact Ha | | done].
  by apply (shrink_finishEvents i instant w d e).
Qed.

Lemma consistent_expand i instant w :
  consistent w → stale (expand i instant w) = [] →
  consistent (expand i instant w).
Proof.
  intros Hc.
  destruct (instances w !! i) as [d|] eqn:Hd;
    [|by unfold expand; rewrite Hd].
  destruct (elements w !! i) as [e|] eqn:He;
    [|by unfold expand; rewrite Hd, He].
  destruct (expand_spec i instant w d e Hd He) as (_ & _ & _ & Ha & Hi).
  intros Hfresh.
  eapply (consistent_start w _ i d);
    [done | done | exact Hi | done | exact Ha | | done].
  by apply (expand_finishEvents i instant w d e).
Qed.

Lemma consistent_shrinkSiblings instant l w :
  consistent w → stale (foldl (shrinkSibling instant) w l) = [] →
  consistent (foldl (shrinkSibling instant) w l).
Proof.
  revert w. induction l as [|j l IH]; intros w Hc Hfresh; [done|].
  simpl in *. apply IH; [|done].
  apply stale_shrinkSiblings_back in Hfresh.
  unfold shrinkSibling in *.
  destruct (instances w !! j); [by apply consistent_shrink | done].
Qed.

Lemma consistent_open i instant w :
  consistent w → stale (open i instant w) = [] →
  consistent (open i instant w).
Proof.
  intros Hc. unfold open.
  destruct (instances w !! i) as [d|]; [|done].
  destruct (elements w !! i) as [e|]; [|done].
  match goal with |- stale (if _ then foldl _ ?w3 _ else _) = [] → _ =>
    assert (Hc3 : consistent w3) by (by apply (consistent_fields w)) end.
  destruct (_ && _); [by apply consistent_shrinkSiblings | done].
Qed.

(** Changing animations in place without touching target or play state. *)
Lemma consistent_alter_anim w w' a f :
  instances w' = instances w →
  animations w' = alter f a (animations w) →
  finishEvents w' = finishEvents w →
  (∀ an, a_target (f an) = a_target an ∧ a_playState (f an) = a_playState an) →
  consistent w → consistent w'.
Proof.
  intros Hi Ha Hq Hf. apply consistent_same; [| | |done].
  - intros i. apply animationOf_eq. by rewrite Hi.
  - intros k. rewrite Ha, list_lookup_alter. case_decide; [subst|done].
    by destruct (animations w !! k).
  - intros k an an' Han. rewrite Ha, list_lookup_alter.
    case_decide; [subst|]; rewrite Han; simpl; intros [= <-]; [apply Hf|done].
Qed.

(** Changing instance fields other than the handle. *)
Lemma consistent_alter_inst w w' i f :
  instances w' = alter f i (instances w) →
  animations w' = animations w →
  finishEvents w' = finishEvents w →
  (∀ d, animation (f d) = animation d) →
  consistent w → consistent w'.
Proof.
  intros Hi Ha Hq Hf. apply consistent_same; [| | |done].
  - intros j. by apply (animationOf_alter w w' j i f).
  - intros k. by rewrite Ha.
  - intros k an an'. rewrite Ha. by intros -> [= ->].
Qed.

(** An animation whose finish handler the host will still run: it is
    playing, or it is finished and its finish event is queued. *)
Definition awaited (w : World) (a : nat) (an : Animation) : Prop :=
  animations w !! a = Some an ∧
  (a_playState an = Running ∨ a_playState an = Finished ∧ a ∈ finishEvents w).

Lemma awaited_held w a an :
  consistent w → awaited w a an → animationOf (a_target an) w = Some a.
Proof.
  intros (Ht & _ & Hd) [Han [Hrun|[_ Hin]]]; [by apply Ht|].
  destruct (Hd a Hin) as (an' & Han' & _ & Hheld). congruence.
Qed.

(** The finish event of an awaited animation: the animation is finished,
    its finish event is no longer queued, and the handler either drops the
    handle of its element or ends early and leaves the instances alone. *)
Lemma consistent_handler w w' a an :
  consistent w → awaited w a an →
  (∀ j, j ≠ a_target an → instances w' !! j = instances w !! j) →
  animationOf (a_target an) w' = None ∨ instances w' = instances w →
  animations w' = alter (set_playState Finished) a (animations w) →
  finishEvents w' = filter (λ b, b ≠ a) (finishEvents w) →
  consistent w'.
Proof.
  intros Hc Haw Hoth Hnone Ha Hq.
  pose proof (awaited_held w a an Hc Haw) as Hheld.
  destruct Hc as (Ht & Ho & Hd). destruct Haw as [Han _].
  assert (Hsame : ∀ j, j ≠ a_target an → animationOf j w' = animationOf j w).
  { intros j Hj. apply animationOf_eq. by apply Hoth. }
  split; [|split].
  - intros a' an' Han' Hrun'. rewrite Ha, list_lookup_alter in Han'.
    case_decide as Hk.
    + subst a'. rewrite Han in Han'. simpl in Han'. by simplify_eq.
    + pose proof (Ht a' an' Han' Hrun') as Hold.
      destruct (decide (a_target an' = a_target an)) as [Heq|Hne].
      * rewrite Heq, Hheld in Hold. congruence.
      * by rewrite Hsame.
  - intros j x Hjx.
    assert (Hjw : animationOf j w = Some x).
    { destruct (decide (j = a_target an)) as [->|Hne]; [|by rewrite <- Hsame].
      destruct Hnone as [Hnone|Hinst]; [congruence|].
      rewrite <- Hjx. symmetry. apply animationOf_eq. by rewrite Hinst. }
    destruct (Ho j x Hjw) as (an0 & Han0 & Htg0).
    rewrite Ha, list_lookup_alter. case_decide; [subst|]; rewrite Han0; simpl; eauto.
  - intros b Hb. rewrite Hq in Hb. apply list_elem_of_filter in Hb as [Hne Hb].
    destruct (Hd b Hb) as (anb & Hanb & Hfin & Hhb).
    assert (Htb : a_target anb ≠ a_target an).
    { intros Heq. rewrite Heq, Hheld in Hhb. congruence. }
    exists anb. split; [|split; [done | by rewrite Hsame]].
    by rewrite Ha, list_lookup_alter_ne.
Qed.

(** The world in which the finish handler of animation [a] runs. *)
Definition finished (a : nat) (w : World) : World :=
  set_finishEvents (filter (λ b, b ≠ a) (finishEvents w))
    (upd_anim a (set_playState Finished) w).

(** The finish event of an awaited animation; a playing one has no finish
    event queued. *)
Lemma finish_awaited w a an :
  awaited w a an → (a_playState an = Running → a ∉ finishEvents w) →
  finish a w = onfinish an (finished a w).
Proof.
  intros [Han [Hrun|[Hfin Hin]]] Hnq; unfold finish, finished; rewrite Han.
  - rewrite bool_decide_eq_false_2 by (by apply Hnq). rewrite Hrun. f_equal.
    rewrite filter_all; [done|]. intros b Hb ->. by apply Hnq.
  - rewrite bool_decide_eq_true_2 by done. f_equal.
    unfold upd_anim. rewrite alter_playState_noop; [by destruct w|].
    congruence.
Qed.

Lemma due_running w a an :
  due w → animations w !! a = Some an → a_playState an = Running →
  a ∉ finishEvents w.
Proof.
  intros Hd Han Hrun Hin.
  destruct (Hd a Hin) as (an' & Han' & Hfin & _). congruence.
Qed.

Lemma finish_idle w a :
  due w → (∀ an, ¬ awaited w a an) → finish a w = w.
Proof.
  intros Hd Hno. unfold finish.
  destruct (animations w !! a) as [an|] eqn:Han; [|done].
  case_bool_decide as Hin.
  - destruct (Hd a Hin) as (an' & Han' & Hfin & _).
    destruct (Hno an). split; [done|]. right. split; [congruence | done].
  - destruct (a_playState an) eqn:Hst; try done.
    destruct (Hno an). split; [done|]. by left.
Qed.

Lemma finish_cases w a :
  due w →
  finish a w = w ∨ ∃ an, awaited w a an ∧ finish a w = onfinish an (finished a w).
Proof.
  intros Hd.
  destruct (animations w !! a) as [an|] eqn:Han;
    [|left; unfold finish; by rewrite Han].
  destruct (decide (a_playState an = Running ∨
                    a_playState an = Finished ∧ a ∈ finishEvents w))
    as [Hst|Hst].
  - right. exists an. assert (Haw : awaited w a an) by (by split).
    split; [done|]. apply finish_awaited; [done|].
    intros Hrun. by apply (due_running w a an).
  - left. apply finish_idle; [done|]. intros an' [Han' Hst'].
    rewrite Han in Han'. injection Han' as <-. done.
Qed.

Lemma consistent_finish w a :
  consistent w → consistent (finish a w).
Proof.
  intros Hc.
  destruct (finish_cases w a) as [->|(an & Haw & ->)]; [apply Hc | done |].
  destruct (onfinish_fields an (finished a w)) as (F1 & _ & F3 & F4 & _ & F6).
  apply (consistent_handler w _ a an); try done.
  destruct F6 as [Hn|[Hi _]]; [by left | by right].
Qed.

Lemma consistent_construct i w :
  instances w !! i = None → consistent w → consistent (constructor i w).
Proof.
  intros Hnone (Ht & Ho & Hd).
  assert (Hoth : ∀ j, j ≠ i → animationOf j (constructor i w) = animationOf j w).
  { intros j Hj. apply animationOf_eq. simpl. by rewrite lookup_insert_ne. }
  assert (Hi : animationOf i w = None).
  { unfold animationOf. by rewrite Hnone. }
  split; [|split].
  - intros a an Han Hrun. simpl in Han.
    pose proof (Ht a an Han Hrun) as Hold.
    destruct (decide (a_target an = i)) as [Heq|Hne]; [congruence|].
    by rewrite Hoth.
  - intros j a Hja. destruct (decide (j = i)) as [->|Hne].
    + unfold animationOf in Hja. simpl in Hja.
      by rewrite lookup_insert_eq in Hja.
    + rewrite Hoth in Hja by done. by apply Ho.
  - intros a Hin. simpl in Hin.
    destruct (Hd a Hin) as (an & Han & Hfin & Hheld).
    exists an. split; [done|]. split; [done|].
    destruct (decide (a_target an = i)) as [Heq|Hne]; [congruence|].
    by rewrite Hoth.
Qed.

Lemma consistent_onClick i w :
  consistent w → stale (onClick i w) = [] → consistent (onClick i w).
Proof.
  intros Hc. unfold onClick.
  destruct (instances w !! i) as [d|]; [|done].
  destruct (elements w !! i) as [e|]; [|done].
  assert (Hc1 : consistent (upd_el i (set_style_overflow "hidden") w))
    by (by apply (consistent_fields w)).
  destruct (_ || _); [by apply consistent_open|].
  destruct (_ || _); [by apply consistent_shrink | done].
Qed.

(** A step after which no queued finish event is stale keeps the handles
    in step with the animations. *)
Lemma consistent_exec w ev :
  consistent w → stale (exec w ev) = [] → consistent (exec w ev).
Proof.
  intros Hc. destruct ev as [i| |i|i instant|i instant| |a h|a|]; simpl.
  - destruct (elements w !! i); [|done].
    destruct (instances w !! i) eqn:Hi; [done|]. intros _.
    by apply consistent_construct.
  - destruct (timeouts w) as [|i q]; [done|]. intros _.
    by apply (consistent_alter_inst w _ i (set_siblings (captureSiblings i w))).
  - by apply consistent_onClick.
  - by apply consistent_open.
  - by apply consistent_shrink.
  - destruct (frames w) as [|[i instant] q]; [done|].
    apply consistent_expand. by apply (consistent_fields w).
  - destruct (animations w !! a) as [an|]; [|done].
    destruct (a_playState an); try done. intros _.
    by apply (consistent_alter_anim w _ a (set_current h)).
  - intros _. by apply consistent_finish.
  - destruct (cancelEvents w) as [|a q]; [done|]. intros _.
    assert (Hq : consistent (set_cancelEvents q w)) by (by apply (consistent_fields w)).
    destruct (animations w !! a) as [an|]; [|done].
    unfold oncancel. destruct (a_handlers an).
    + by apply (consistent_alter_inst (set_cancelEvents q w) _ (a_target an)
                  (set_isExpanding false)).
    + by apply (consistent_alter_inst (set_cancelEvents q w) _ (a_target an)
                  (set_isClosing false)).
Qed.

Lemma consistent_run w evs :
  consistent w → calm w evs = true → consistent (run w evs).
Proof.
  unfold run. revert w. induction evs as [|ev evs IH]; intros w Hc Hcalm;
    [done|].
  simpl in *. apply andb_true_iff in Hcalm as [Hfresh Hcalm].
  apply bool_decide_eq_true in Hfresh.
  apply IH; [by apply consistent_exec | done].
Qed.

Lemma consistent_page els : consistent (page els).
Proof.
  split; [|split].
  - intros a an Han. by simpl in Han.
  - intros i a Hia. unfold animationOf in Hia. simpl in Hia.
    by rewrite lookup_empty in Hia.
  - intros a Hin. by inversion Hin.
Qed.

(** ** Instances belong to elements of the page *)

Definition housed (w : World) : Prop :=
  ∀ i, is_Some (instances w !! i) → is_Some (elements w !! i).

(** No element and no instance is created or dropped, and no instance gets
    another sibling list. *)
Definition sameDomain (w w' : World) : Prop :=
  length (elements w') = length (elements w) ∧
  (∀ j, is_Some (instances w' !! j) ↔ is_Some (instances w !! j)) ∧
  ∀ j, siblings <$> instances w' !! j = siblings <$> instances w !! j.

Lemma sameDomain_refl w : sameDomain w w.
Proof. by repeat split. Qed.

Lemma sameDomain_trans w1 w2 w3 :
  sameDomain w1 w2 → sameDomain w2 w3 → sameDomain w1 w3.
Proof.
  intros (L1 & I1 & S1) (L2 & I2 & S2). split; [congruence|]. split.
  - intros j. by rewrite I2, I1.
  - intros j. by rewrite S2, S1.
Qed.

Lemma sameDomain_fields w w' :
  length (elements w') = length (elements w) →
  instances w' = instances w → sameDomain w w'.
Proof. intros Hl Hi. split; [done|]. split; intros j; by rewrite Hi. Qed.

Lemma sameDomain_upd_el i f w : sameDomain w (upd_el i f w).
Proof. apply sameDomain_fields; [apply length_alter | done]. Qed.

Lemma sameDomain_alter i f w w' :
  length (elements w') = length (elements w) →
  instances w' = alter f i (instances w) →
  (∀ d, siblings (f d) = siblings d) → sameDomain w w'.
Proof.
  intros Hl Hi Hf. split; [done|]. split; intros j; rewrite Hi.
  - destruct (decide (j = i)) as [->|Hne].
    + rewrite lookup_alter_eq. by rewrite fmap_is_Some.
    + by rewrite lookup_alter_ne.
  - destruct (decide (j = i)) as [->|Hne].
    + rewrite lookup_alter_eq. destruct (instances w !! i); simpl; [|done].
      by rewrite Hf.
    + by rewrite lookup_alter_ne.
Qed.

Lemma sameDomain_insert i d d' w w' :
  length (elements w') = length (elements w) →
  instances w !! i = Some d → instances w' = <[i := d']> (instances w) →
  siblings d' = siblings d → sameDomain w w'.
Proof.
  intros Hl Hd Hi Hs. split; [done|]. split; intros j; rewrite Hi.
  - destruct (decide (j = i)) as [->|Hne].
    + rewrite lookup_insert_eq, Hd. by split.
    + by rewrite lookup_insert_ne.
  - destruct (decide (j = i)) as [->|Hne].
    + rewrite lookup_insert_eq, Hd. simpl. by rewrite Hs.
    + by rewrite lookup_insert_ne.
Qed.

Lemma sameDomain_shrink i instant w : sameDomain w (shrink i instant w).
Proof.
  destruct (instances w !! i) as [d|] eqn:Hd;
    [|unfold shrink; rewrite Hd; apply sameDomain_refl].
  destruct (elements w !! i) as [e|] eqn:He;
    [|unfold shrink; rewrite Hd, He; apply sameDomain_refl].
  destruct (shrink_spec i instant w d e Hd He) as (E1 & _ & _ & _ & Hi).
  eapply (sameDomain_insert i d); [by rewrite E1 | done | exact Hi | done].
Qed.

Lemma sameDomain_expand i instant w : sameDomain w (expand i instant w).
Proof.
  destruct (instances w !! i) as [d|] eqn:Hd;
    [|unfold expand; rewrite Hd; apply sameDomain_refl].
  destruct (elements w !! i) as [e|] eqn:He;
    [|unfold expand; rewrite Hd, He; apply sameDomain_refl].
  destruct (expand_spec i instant w d e Hd He) as (E1 & _ & _ & _ & Hi).
  eapply (sameDomain_insert i d); [by rewrite E1 | done | exact Hi | done].
Qed.

Lemma sameDomain_shrinkSiblings instant l w :
  sameDomain w (foldl (shrinkSibling instant) w l).
Proof.
  revert w. induction l as [|j l IH]; intros w; [apply sameDomain_refl|].
  simpl. eapply sameDomain_trans; [|apply IH].
  unfold shrinkSibling.
  destruct (instances w !! j); [apply sameDomain_shrink | apply sameDomain_refl].
Qed.

Lemma sameDomain_open i instant w : sameDomain w (open i instant w).
Proof.
  unfold open.
  destruct (instances w !! i) as [d|]; [|apply sameDomain_refl].
  destruct (elements w !! i) as [e|]; [|apply sameDomain_refl].
  match goal with |- sameDomain _ (if _ then foldl _ ?w3 _ else _) =>
    assert (Hs : sameDomain w w3) end.
  { apply sameDomain_fields; [|done]. simpl. by rewrite !length_alter. }
  destruct (_ && _); [|done].
  eapply sameDomain_trans; [exact Hs | apply sameDomain_shrinkSiblings].
Qed.

Lemma sameDomain_upd_inst i f w :
  (∀ d, siblings (f d) = siblings d) → sameDomain w (upd_inst i f w).
Proof. intros Hf. by apply (sameDomain_alter i f). Qed.

Lemma sameDomain_onAnimationFinish i b w :
  sameDomain w (onAnimationFinish i b w).
Proof.
  unfold onAnimationFinish.
  repeat (eapply sameDomain_trans;
          [|first [apply sameDomain_upd_el
                  | by apply sameDomain_upd_inst]]).
  apply sameDomain_refl.
Qed.

Lemma sameDomain_finish a w : sameDomain w (finish a w).
Proof.
  assert (Hgen : ∀ an w0, sameDomain w w0 → sameDomain w (onfinish an w0)).
  { intros an w0 Hs. rewrite onfinish_unfold.
    destruct (measured_fields an w0) as (M1 & M2 & _).
    assert (Hm : sameDomain w (measured an w0)).
    { eapply sameDomain_trans; [exact Hs|].
      apply sameDomain_fields; [by rewrite M1 | done]. }
    destruct (returns an w0); [|done].
    eapply sameDomain_trans; [exact Hm | apply sameDomain_onAnimationFinish]. }
  unfold finish. destruct (animations w !! a) as [an|]; [|apply sameDomain_refl].
  case_bool_decide.
  - apply Hgen. by apply sameDomain_fields.
  - destruct (a_playState an); try apply sameDomain_refl.
    apply Hgen. by apply sameDomain_fields.
Qed.

Lemma sameDomain_onClick i w : sameDomain w (onClick i w).
Proof.
  unfold onClick.
  destruct (instances w !! i) as [d|]; [|apply sameDomain_refl].
  destruct (elements w !! i) as [e|]; [|apply sameDomain_refl].
  pose proof (sameDomain_upd_el i (set_style_overflow "hidden") w) as Hs.
  destruct (_ || _);
    [eapply sameDomain_trans; [exact Hs | apply sameDomain_open]|].
  destruct (_ || _);
    [eapply sameDomain_trans; [exact Hs | apply sameDomain_shrink] | done].
Qed.

(** No section is among its own captured siblings. *)
Definition apart (w : World) : Prop :=
  ∀ i d, instances w !! i = Some d → i ∉ siblings d.

Lemma housed_sameDomain w w' : sameDomain w w' → housed w → housed w'.
Proof.
  intros (Hl & Hi & _) Hh j Hj. apply Hi, Hh in Hj.
  apply lookup_lt_is_Some in Hj. apply lookup_lt_is_Some. by rewrite Hl.
Qed.

Lemma apart_sameDomain w w' : sameDomain w w' → apart w → apart w'.
Proof.
  intros (_ & _ & Hs) Ha i d' Hd'.
  specialize (Hs i). rewrite Hd' in Hs.
  destruct (instances w !! i) as [d|] eqn:Hd; [|done].
  simpl in Hs. injection Hs as ->. by apply (Ha i d).
Qed.

Lemma elem_of_captureSiblings w i j :
  j ∈ captureSiblings i w ↔
  j ≠ i ∧ ∃ e ej p, elements w !! i = Some e ∧ parentElement e = Some p ∧
                    elements w !! j = Some ej ∧ parentElement ej = Some p ∧
                    tagName ej = tagName e.
Proof.
  unfold captureSiblings.
  destruct (elements w !! i) as [e|] eqn:He.
  - destruct (parentElement e) as [p|] eqn:Hp.
    + rewrite list_elem_of_filter, elem_of_seq. unfold sameTagChild. split.
      * intros [[Hne Hs] _]. split; [done|].
        destruct (elements w !! j) as [ej|] eqn:Hj; [|done].
        apply andb_prop_elim in Hs as [H1 H2].
        apply bool_decide_unpack in H1. apply bool_decide_unpack in H2.
        by exists e, ej, p.
      * intros (Hne & e0 & ej & p0 & [= <-] & Hp0 & Hj & Hpj & Htag).
        rewrite Hp in Hp0. injection Hp0 as <-.
        split; [split; [done|]|].
        -- rewrite Hj. apply andb_prop_intro. split; by apply bool_decide_pack.
        -- apply lookup_lt_Some in Hj. lia.
    + split; [intros Hin; by inversion Hin|].
      intros (_ & e0 & _ & p & [= <-] & Hp0 & _). congruence.
  - split; [intros Hin; by inversion Hin|].
    intros (_ & e0 & _ & _ & Hc & _). congruence.
Qed.

(** Every step but the constructor and its timer keeps the elements, the
    instances and their sibling lists in place. *)
Lemma sameDomain_exec w ev :
  (∀ i, ev ≠ Construct i) → ev ≠ Timeout → sameDomain w (exec w ev).
Proof.
  intros Hnc Hnt.
  destruct ev as [i| |i|i instant|i instant| |a h|a|]; simpl.
  - by destruct (Hnc i).
  - done.
  - apply sameDomain_onClick.
  - apply sameDomain_open.
  - apply sameDomain_shrink.
  - destruct (frames w) as [|[i instant] q]; [apply sameDomain_refl|].
    eapply sameDomain_trans; [|apply sameDomain_expand].
    by apply sameDomain_fields.
  - destruct (animations w !! a) as [an|]; [|apply sameDomain_refl].
    destruct (a_playState an); try apply sameDomain_refl.
    by apply sameDomain_fields.
  - apply sameDomain_finish.
  - destruct (cancelEvents w) as [|a q]; [apply sameDomain_refl|].
    destruct (animations w !! a) as [an|]; [|by apply sameDomain_fields].
    unfold oncancel. destruct (a_handlers an).
    + by apply (sameDomain_alter (a_target an) (set_isExpanding false)).
    + by apply (sameDomain_alter (a_target an) (set_isClosing false)).
Qed.

Lemma housed_exec w ev : housed w → housed (exec w ev).
Proof.
  intros Hh. destruct ev as [i| |i|i instant|i instant| |a h|a|];
    try (apply (housed_sameDomain w);
         [by apply sameDomain_exec | done]).
  - simpl. destruct (elements w !! i) eqn:He; [|done].
    destruct (instances w !! i) eqn:Hi; [done|].
    intros j. simpl. destruct (decide (j = i)) as [->|Hne].
    + by rewrite He.
    + rewrite lookup_insert_ne by done. apply Hh.
  - simpl. destruct (timeouts w) as [|i q]; [done|].
    intros j. simpl. destruct (decide (j = i)) as [->|Hne].
    + rewrite lookup_alter_eq, fmap_is_Some. apply Hh.
    + rewrite lookup_alter_ne by done. apply Hh.
Qed.

Lemma apart_exec w ev : apart w → apart (exec w ev).
Proof.
  intros Ha. destruct ev as [i| |i|i instant|i instant| |a h|a|];
    try (apply (apart_sameDomain w);
         [by apply sameDomain_exec | done]).
  - simpl. destruct (elements w !! i) eqn:He; [|done].
    destruct (instances w !! i) eqn:Hi; [done|].
    intros j d. simpl. destruct (decide (j = i)) as [->|Hne].
    + rewrite lookup_insert_eq. intros [= <-]. apply not_elem_of_nil.
    + rewrite lookup_insert_ne by done. apply Ha.
  - simpl. destruct (timeouts w) as [|i q]; [done|].
    intros j d. simpl. destruct (decide (j = i)) as [->|Hne].
    + rewrite lookup_alter_eq.
      destruct (instances w !! i); simpl; [|done]. intros [= <-]. simpl.
      rewrite elem_of_captureSiblings. by intros [? _].
    + rewrite lookup_alter_ne by done. apply Ha.
Qed.

(** A world the scripts can bring a page to. *)
Definition reachable (w : World) : Prop :=
  ∃ els evs, w = run (page els) evs.

(** A world the scripts bring a page to without cancelling an animation
    whose finish event is queued. *)
Definition calmly (w : World) : Prop :=
  ∃ els evs, calm (page els) evs = true ∧ w = run (page els) evs.

Lemma calmly_reachable w : calmly w → reachable w.
Proof. intros (els & evs & _ & ->). by exists els, evs. Qed.

Lemma calmly_consistent w : calmly w → consistent w.
Proof.
  intros (els & evs & Hcalm & ->).
  apply consistent_run; [apply consistent_page | done].
Qed.

Lemma reachable_sound w : reachable w → sound w ∧ housed w.
Proof.
  intros (els & evs & ->). unfold run.
  assert (Hp : sound (page els) ∧ housed (page els)).
  { split; [apply sound_page|].
    intros i Hi. simpl in Hi. rewrite lookup_empty in Hi. by destruct Hi. }
  revert Hp. generalize (page els).
  induction evs as [|ev evs IH]; intros w [Hs Hh]; [done|].
  simpl. apply IH. split; [by apply sound_exec | by apply housed_exec].
Qed.

Lemma reachable_apart w : reachable w → apart w.
Proof.
  intros (els & evs & ->). unfold run.
  assert (Hp : apart (page els)).
  { intros i d Hi. simpl in Hi. by rewrite lookup_empty in Hi. }
  revert Hp. generalize (page els).
  induction evs as [|ev evs IH]; intros w Hw; [done|].
  simpl. apply IH. by apply apart_exec.
Qed.

Lemma reachable_run w evs : reachable w → reachable (run w evs).
Proof.
  intros (els & evs0 & ->). exists els, (evs0 ++ evs).
  unfold run. by rewrite foldl_app.
Qed.

(** ** One animation per section *)






(** ** Opening a closed section *)

Lemma onAnimationFinish_visible i b w :
  isVisible (onAnimationFinish i b w) i =
  (b && bool_decide (is_Some (elements w !! i))).
Proof.
  unfold onAnimationFinish, isVisible. simpl.
  rewrite !list_lookup_alter_eq. destruct (elements w !! i) as [e|]; simpl.
  - destruct b; simpl.
    + apply bool_decide_eq_true_2, elem_of_union_l, elem_of_singleton. done.
    + apply bool_decide_eq_false_2. rewrite elem_of_difference, elem_of_singleton.
      tauto.
  - by rewrite andb_false_r.
Qed.

Lemma offsetHeight_idle w i e :
  runningOn i w = [] → elements w !! i = Some e →
  offsetHeight i w =
    match style_height e with
    | Some h => h
    | None => if el_open e then summaryHeight e + contentHeight e
              else summaryHeight e
    end.
Proof. intros Hr He. unfold offsetHeight. by rewrite Hr, He. Qed.

(** Cancelling a handle starts nothing. *)
Lemma runningOn_idled w i l :
  runningOn i w = [] →
  filter (λ a, a_target a = i ∧ a_playState a = Running)
    (idled l (animations w)) = [].
Proof.
  intros Hr.
  destruct (filter _ (idled l (animations w))) as [|x r] eqn:Hf; [done|].
  assert (Hx : x ∈ filter (λ a, a_target a = i ∧ a_playState a = Running)
                 (idled l (animations w))) by (rewrite Hf; left).
  apply list_elem_of_filter in Hx as [[Tx Rx] Hx].
  apply list_elem_of_lookup in Hx as [k Hk].
  rewrite lookup_idled in Hk. case_decide.
  - destruct (animations w !! k); simplify_eq/=.
  - assert (Hin : x ∈ runningOn i w).
    { apply list_elem_of_filter. split; [done|].
      by apply list_elem_of_lookup_2 in Hk. }
    rewrite Hr in Hin. by inversion Hin.
Qed.

(** The playing animations of a section after a transition was started on
    it while none was playing. *)
Lemma runningOn_started w w' i an l :
  runningOn i w = [] →
  animations w' = idled l (animations w) ++ [an] → a_target an = i →
  runningOn i w' = if bool_decide (a_playState an = Running) then [an] else [].
Proof.
  intros Hr Ha Htg. unfold runningOn. rewrite Ha, filter_app.
  rewrite (runningOn_idled w i l Hr). simpl. rewrite filter_cons, filter_nil.
  case_bool_decide as Hrun.
  - by rewrite decide_True.
  - rewrite decide_False; [done|]. by intros [_ ?].
Qed.

(** A transition started on another section. *)
Lemma runningOn_elsewhere w w' i an l :
  runningOn i w = [] →
  animations w' = idled l (animations w) ++ [an] → a_target an ≠ i →
  runningOn i w' = [].
Proof.
  intros Hr Ha Htg. unfold runningOn. rewrite Ha, filter_app.
  rewrite (runningOn_idled w i l Hr). simpl. rewrite filter_cons, filter_nil.
  rewrite decide_False; [done|]. by intros [? _].
Qed.

(** The captured siblings are shrunk; a section that is not among them
    keeps its element, its instance and the frame queue, and nothing
    starts to play on it. *)
Lemma shrinkSiblings_frame instant l w i :
  i ∉ l →
  let w' := foldl (shrinkSibling instant) w l in
  frames w' = frames w ∧ elements w' = elements w ∧
  instances w' !! i = instances w !! i ∧
  (runningOn i w = [] → runningOn i w' = []).
Proof.
  revert w. induction l as [|j l IH]; intros w Hi; [done|].
  rewrite not_elem_of_cons in Hi. destruct Hi as [Hne Hi].
  simpl. destruct (IH (shrinkSibling instant w j) Hi) as (F1 & F2 & F3 & F4).
  rewrite F1, F2, F3. unfold shrinkSibling in *.
  destruct (instances w !! j) as [dj|] eqn:Hdj; [|done].
  destruct (elements w !! j) as [ej|] eqn:Hej;
    [|by unfold shrink in *; rewrite Hdj, Hej in *].
  destruct (shrink_spec j instant w dj ej Hdj Hej) as (E1 & E2 & _ & E4 & E5).
  rewrite E1, E2, E5. rewrite lookup_insert_ne by done.
  repeat split. intros Hr. apply F4.
  apply (runningOn_elsewhere w _ i _ _ Hr E4). simpl. done.
Qed.

(** What [open] leaves behind for the section it opens. *)
Lemma open_spec i instant w d e :
  instances w !! i = Some d → elements w !! i = Some e →
  i ∉ siblings d →
  let w' := open i instant w in
  frames w' = frames w ++ [(i, instant)] ∧
  instances w' !! i = Some d ∧
  elements w' !! i =
    Some (set_el_open true (set_style_height (Some (offsetHeight i w)) e)) ∧
  (runningOn i w = [] → runningOn i w' = []).
Proof.
  intros Hd He Hns w'.
  unfold w', open. rewrite Hd, He.
  match goal with |- context [foldl _ ?w3 _] => set (wB := w3) end.
  assert (HB : frames wB = frames w ++ [(i, instant)] ∧
               instances wB !! i = Some d ∧
               elements wB !! i = Some (set_el_open true
                 (set_style_height (Some (offsetHeight i w)) e)) ∧
               (runningOn i w = [] → runningOn i wB = [])).
  { unfold wB. simpl. rewrite !list_lookup_alter_eq, He. done. }
  destruct (_ && _); [|done].
  destruct (shrinkSiblings_frame instant (siblings d) wB i Hns)
    as (F1 & F2 & F3 & F4).
  rewrite F1, F2, F3. destruct HB as (B1 & B2 & B3 & B4).
  split; [done|]. split; [done|]. split; [done|].
  intros Hr. by apply F4, B4.
Qed.

(** Opening a closed section at rest, of any geometry, whose table helpers
    are in place, then running its frame callback and letting the
    animation finish. *)
Lemma open_closed_section w i d e instant :
  sound w → instances w !! i = Some d → elements w !! i = Some e →
  el_open e = false → animation d = None → runningOn i w = [] →
  style_height e = None →
  frames w = [] → i ∉ siblings d →
  forallb id (tableContainers e) = true →
  let w2 := exec (open i instant w) AnimationFrame in
  let id := length (animations (open i instant w)) in
  let an := newAnimation i (summaryHeight e) (summaryHeight e + contentHeight e)
              instant ByExpand in
  animationOf i w2 = Some id ∧ animations w2 !! id = Some an ∧
  runningOn i w2 = (if instant then [] else [an]) ∧
  bool_decide (id ∈ finishEvents w2) = instant ∧
  isOpen (exec w2 (Finish id)) i = true ∧
  isVisible (exec w2 (Finish id)) i = true ∧
  animationOf i (exec w2 (Finish id)) = None.
Proof.
  intros Hs Hd He Hclosed Hnone Hrun Hsty Hfr Hns Htab.
  assert (Hoff : offsetHeight i w = summaryHeight e).
  { rewrite (offsetHeight_idle w i e); [by rewrite Hsty, Hclosed|done|done]. }
  destruct (open_spec i instant w d e Hd He Hns) as (F1 & I1 & E1 & R1).
  pose proof (sound_open i instant w Hs) as (_ & Hq1 & _).
  specialize (R1 Hrun).
  rewrite Hfr, Hoff in *. simpl in F1.
  set (w1 := open i instant w) in *.
  set (e1 := set_el_open true (set_style_height (Some (summaryHeight e)) e)) in *.
  simpl. rewrite F1.
  set (w1' := set_frames [] w1).
  assert (Hr1 : runningOn i w1' = []) by exact R1.
  destruct (expand_spec i instant w1' d e1 I1 E1) as (X1 & _ & _ & X4 & X5).
  pose proof (expand_finishEvents i instant w1' d e1 I1 E1) as X6.
  rewrite (offsetHeight_idle w1' i e1 Hr1 E1) in X4.
  rewrite Hnone in X4. simpl in X4, X5, X6.
  set (w2 := expand i instant w1') in *.
  set (an := newAnimation i (summaryHeight e) (summaryHeight e + contentHeight e)
               instant ByExpand).
  assert (Hid : animations w2 !! length (animations w1) = Some an).
  { rewrite X4. by rewrite list_lookup_middle. }
  assert (Hheld : animationOf i w2 = Some (length (animations w1))).
  { unfold animationOf. by rewrite X5, lookup_insert_eq. }
  assert (Hq : bool_decide (length (animations w1) ∈ finishEvents w2) = instant).
  { rewrite X6. destruct instant.
    - apply bool_decide_eq_true_2, elem_of_app. right. left.
    - apply bool_decide_eq_false_2. rewrite app_nil_r. intros Hin.
      specialize (Hq1 _ Hin). lia. }
  split; [exact Hheld|]. split; [exact Hid|]. split.
  { rewrite (runningOn_started w1' w2 i an None Hr1 X4 eq_refl).
    by destruct instant. }
  split; [exact Hq|].
  assert (Haw : awaited w2 (length (animations w1)) an).
  { split; [done|]. destruct instant; [right|by left].
    split; [done|]. by apply bool_decide_eq_true in Hq. }
  rewrite (finish_awaited w2 _ an Haw), onfinish_unfold.
  2:{ intros Hplay. destruct instant; [done|].
      by apply bool_decide_eq_false in Hq. }
  set (w0 := finished (length (animations w1)) w2).
  assert (He0 : elements w0 !! i = Some e1).
  { unfold w0. simpl. by rewrite X1. }
  assert (Hret : returns an w0 = true).
  { unfold returns, an. cbn [a_handlers a_target newAnimation].
    rewrite He0. exact Htab. }
  rewrite Hret. simpl.
  destruct (measured_fields an w0) as (M1 & _).
  destruct (onAnimationFinish_fields i true (measured an w0))
    as (_ & _ & _ & _ & _ & Hn & Ho).
  rewrite Ho, onAnimationFinish_visible, M1, He0. done.
Qed.

(** C8, amended.  A closed section at rest (no animation held, none
    playing, no inline height, no frame callback pending) with summary
    height 40 and content height 160, in which the [scroll.updateMetrics]
    of every table container returns, is activated by a click on its
    summary or by a call of [el.expand(instant)].  The next frame callback
    starts a height animation from 40px to 200px, of duration 300, which
    is the one animation playing on the section; when [instant] is set the
    duration is 0, the animation is finished at once and its finish event
    is queued.  When the animation's finish event is handled, the open
    flag is set, the class [visible] is set and the instance holds no
    animation. *)
Theorem activate_closed_section
  (w : World) (i : nat) (d : Instance) (e : Element) (instant : bool)
  (act : HostEvent) :
  reachable w →
  instances w !! i = Some d → elements w !! i = Some e →
  el_open e = false → animation d = None → runningOn i w = [] →
  style_height e = None → frames w = [] →
  summaryHeight e = 40 → contentHeight e = 160 →
  forallb id (tableContainers e) = true →
  (act = Click i ∧ instant = false) ∨ act = CallExpand i instant →
  let w1 := exec w act in
  let w2 := exec w1 AnimationFrame in
  let id := length (animations w1) in
  let an := {| a_target := i; a_from := 40; a_to := 200;
               a_duration := if instant then 0 else 300;
               a_easing := "ease-in-out"; a_handlers := ByExpand;
               a_playState := if instant then Finished else Running;
               a_current := 40 |} in
  animationOf i w2 = Some id ∧ animations w2 !! id = Some an ∧
  runningOn i w2 = (if instant then [] else [an]) ∧
  bool_decide (id ∈ finishEvents w2) = instant ∧
  isOpen (exec w2 (Finish id)) i = true ∧
  isVisible (exec w2 (Finish id)) i = true ∧
  animationOf i (exec w2 (Finish id)) = None.
Proof.
  intros Hr Hd He Hclosed Hnone Hrun Hsty Hfr Hs Hcn Htab Hact w1 w2 id an.
  destruct (reachable_sound w Hr) as [Hsd _].
  pose proof (reachable_apart w Hr i d Hd) as Hns.
  destruct Hact as [[-> ->]| ->].
  - set (w' := upd_el i (set_style_overflow "hidden") w).
    assert (Hsd' : sound w') by (by apply (sound_fields w)).
    assert (He' : elements w' !! i = Some (set_style_overflow "hidden" e)).
    { unfold w'. simpl. by rewrite list_lookup_alter_eq, He. }
    pose proof (open_closed_section w' i d (set_style_overflow "hidden" e) false
                  Hsd' Hd He' Hclosed Hnone Hrun Hsty Hfr Hns Htab) as H.
    cbn [summaryHeight contentHeight set_style_overflow] in H.
    rewrite Hs, Hcn in H.
    assert (Hw1 : exec w (Click i) = open i false w').
    { simpl. rewrite (onClick_unfold w i d e Hd He), Hclosed.
      by rewrite orb_true_r. }
    subst w1 w2 id an. rewrite Hw1. exact H.
  - pose proof (open_closed_section w i d e instant
                  Hsd Hd He Hclosed Hnone Hrun Hsty Hfr Hns Htab) as H.
    rewrite Hs, Hcn in H. exact H.
Qed.

(** C8, as stated, fails.  The content of this section holds a
    [table-container] that does not carry the helper.  The click starts
    the animation from 40 to 200; its finish handler ends with the
    exception of [table.scroll.updateMetrics()], before
    [onAnimationFinish(true)].  The class [visible] is not set, the
    instance keeps the finished animation and [isExpanding], and the
    inline height stays at the collapsed 40. *)
Lemma activate_closed_section_counterexample :
  let bare := {| parentElement := Some 100%nat; tagName := "DETAILS";
                 el_open := false; classList := ∅; style_height := None;
                 style_overflow := ""; summaryHeight := 40;
                 contentHeight := 160; closedContentHeight := 0;
                 tableContainers := [false] |} in
  let w2 := run (page [bare])
              [Construct 0%nat; Timeout; Click 0%nat; AnimationFrame] in
  let w3 := exec w2 (Finish 0%nat) in
  map (λ an, (a_from an, a_to an, a_duration an, a_playState an))
    (animations w2) = [(40, 200, 300, Running)] ∧
  (a_playState <$> animations w3 !! 0%nat) = Some Finished ∧
  isOpen w3 0 = true ∧ isVisible w3 0 = false ∧
  animationOf 0 w3 = Some 0%nat ∧
  (isExpanding <$> instances w3 !! 0%nat) = Some true ∧
  (style_height <$> elements w3 !! 0%nat) = Some (Some 40).
Proof. repeat split; vm_compute; reflexivity. Qed.

(** Witness for C8 amended: the first click on a freshly constructed
    section. *)
Lemma activate_closed_section_witness :
  let w := run (page [section ∅]) [Construct 0%nat; Timeout] in
  let w2 := run w [Click 0%nat; AnimationFrame] in
  let an := {| a_target := 0; a_from := 40; a_to := 200; a_duration := 300;
               a_easing := "ease-in-out"; a_handlers := ByExpand;
               a_playState := Running; a_current := 40 |} in
  animationOf 0 w2 = Some 0%nat ∧ animations w2 !! 0%nat = Some an ∧
  runningOn 0 w2 = [an] ∧
  bool_decide (0%nat ∈ finishEvents w2) = false ∧
  isOpen (exec w2 (Finish 0%nat)) 0 = true ∧
  isVisible (exec w2 (Finish 0%nat)) 0 = true ∧
  animationOf 0 (exec w2 (Finish 0%nat)) = None.
Proof.
  refine (activate_closed_section
            (run (page [section ∅]) [Construct 0%nat; Timeout]) 0%nat
            {| animation := None; isClosing := false; isExpanding := false;
               siblings := [] |}
            (section ∅) false (Click 0%nat) _ _ _ _ _ _ _ _ _ _ _ _).
  - by exists [section ∅], [Construct 0%nat; Timeout].
  - vm_compute. reflexivity.
  - reflexivity.
  - reflexivity.
  - reflexivity.
  - reflexivity.
  - reflexivity.
  - reflexivity.
  - reflexivity.
  - reflexivity.
  - reflexivity.
  - left. split; reflexivity.
Defined.

(** The instant activation of the same section: the animation of duration
    0 is finished when the frame callback returns, nothing plays on the
    section, and the finish event opens it. *)
Example activate_instantly :
  let w2 := run (page [section ∅])
              [Construct 0%nat; Timeout; CallExpand 0%nat true; AnimationFrame] in
  (a_playState <$> animations w2 !! 0%nat) = Some Finished ∧
  (a_duration <$> animations w2 !! 0%nat) = Some 0 ∧
  runningOn 0 w2 = [] ∧ finishEvents w2 = [0%nat] ∧
  isVisible w2 0 = false ∧
  isVisible (exec w2 (Finish 0%nat)) 0 = true ∧
  isOpen (exec w2 (Finish 0%nat)) 0 = true.
Proof. repeat split; vm_compute; reflexivity. Qed.

(** ** Singleton sections *)

(** Section [j] is being closed: its instance holds an animation installed
    by [shrink], which ends at the height of its summary and whose finish
    handler is still to run.  The animation of a timed transition is
    playing; that of an instant one is finished and its finish event is
    queued. *)
Definition closing (instant : bool) (j : nat) (w : World) : Prop :=
  ∃ a an ej, animationOf j w = Some a ∧ animations w !! a = Some an ∧
             elements w !! j = Some ej ∧
             a_target an = j ∧ a_handlers an = ByShrink ∧
             a_to an = summaryHeight ej ∧
             a_duration an = (if instant then 0 else 300) ∧
             a_playState an = (if instant then Finished else Running) ∧
             bool_decide (a ∈ finishEvents w) = instant.

(** The captured sibling [j] is passed over: it has no instance, its
    element is as it was, and every animation on it is one there was
    before, unchanged. *)
Definition skipped (j : nat) (w w' : World) : Prop :=
  instances w' !! j = None ∧ elements w' !! j = elements w !! j ∧
  ∀ a an, animations w' !! a = Some an → a_target an = j →
          animations w !! a = Some an.

(** The finish events queued after a transition was started. *)
Lemma elem_of_started (q : list nat) (n : nat) (instant : bool) (b : nat) :
  b ∈ q ++ (if instant then [n] else []) ↔
  b ∈ q ∨ (instant = true ∧ b = n).
Proof.
  rewrite elem_of_app. destruct instant.
  - rewrite list_elem_of_singleton. split; (intros [?|?]; [by left | right]);
      [done | by destruct H].
  - split; [intros [?|Hb]; [by left | by inversion Hb] | intros [?|[? _]]];
      [by left | done].
Qed.

Lemma closing_shrink instant j w dj ej :
  sound w → instances w !! j = Some dj → elements w !! j = Some ej →
  closing instant j (shrink j instant w).
Proof.
  intros (_ & Hqd & _) Hd He.
  destruct (shrink_spec j instant w dj ej Hd He) as (E1 & _ & _ & E4 & E5).
  pose proof (shrink_finishEvents j instant w dj ej Hd He) as E6.
  exists (length (animations w)),
         (newAnimation j (offsetHeight j w) (summaryHeight ej) instant ByShrink),
         ej.
  split; [unfold animationOf; by rewrite E5, lookup_insert_eq|].
  split; [rewrite E4; apply list_lookup_middle; by rewrite length_idled|].
  split; [by rewrite E1|]. repeat split.
  assert (Hq : ∀ b, b ∈ finishEvents (shrink j instant w) ↔
                    b ∈ finishEvents w ∨
                    (instant = true ∧ b = length (animations w)))
    by (intros b; rewrite E6; apply elem_of_started).
  destruct instant.
  - apply bool_decide_eq_true_2, Hq. by right.
  - apply bool_decide_eq_false_2. rewrite Hq.
    intros [Hin|[? _]]; [|done].
    specialize (Hqd _ Hin). lia.
Qed.

Lemma closing_shrink_other instant j j' w :
  sound w → j' ≠ j →
  closing instant j w → closing instant j (shrink j' instant w).
Proof.
  intros (Ho & _) Hne
    (a & an & ej & Ha & Han & He & Htg & Hh & Hto & Hdur & Hst & Hq).
  destruct (instances w !! j') as [d'|] eqn:Hd';
    [|unfold shrink; rewrite Hd'; by exists a, an, ej].
  destruct (elements w !! j') as [e'|] eqn:He';
    [|unfold shrink; rewrite Hd', He'; by exists a, an, ej].
  destruct (shrink_spec j' instant w d' e' Hd' He') as (E1 & _ & _ & E4 & E5).
  pose proof (shrink_finishEvents j' instant w d' e' Hd' He') as E6.
  assert (Hcur : animation d' ≠ Some a).
  { intros Hcur. destruct (Ho j' a) as (an' & Han' & Htg');
      [unfold animationOf; by rewrite Hd'|]. congruence. }
  exists a, an, ej.
  split; [unfold animationOf in *; by rewrite E5, lookup_insert_ne|].
  split.
  { rewrite E4, lookup_app_l
      by (rewrite length_idled; by apply lookup_lt_Some in Han).
    rewrite lookup_idled. by rewrite decide_False. }
  split; [by rewrite E1|]. repeat split; try done.
  etrans; [|exact Hq]. apply bool_decide_ext.
  rewrite E6, elem_of_started. split.
  - intros [?|[_ ->]]; [done|]. apply lookup_lt_Some in Han. lia.
  - intros Hin. by left.
Qed.

Lemma closing_shrinkSibling instant j j' w :
  sound w → housed w →
  closing instant j w → closing instant j (shrinkSibling instant w j').
Proof.
  intros Hc Hh Hcl. unfold shrinkSibling.
  destruct (instances w !! j') as [d'|] eqn:Hd'; [|done].
  destruct (decide (j' = j)) as [->|Hne]; [|by apply closing_shrink_other].
  destruct (Hh j) as [ej He]; [by rewrite Hd'|].
  by apply (closing_shrink instant j w d' ej).
Qed.

Lemma shrinkSibling_invariants instant j' w :
  sound w → housed w →
  sound (shrinkSibling instant w j') ∧ housed (shrinkSibling instant w j') ∧
  sameDomain w (shrinkSibling instant w j').
Proof.
  intros Hc Hh.
  assert (Hs : sameDomain w (shrinkSibling instant w j')).
  { unfold shrinkSibling. destruct (instances w !! j');
      [apply sameDomain_shrink | apply sameDomain_refl]. }
  split; [|split; [by apply (housed_sameDomain w) | done]].
  unfold shrinkSibling. destruct (instances w !! j'); [|done].
  by apply sound_shrink.
Qed.

Lemma closing_shrinkSiblings_keep instant l j w :
  sound w → housed w →
  closing instant j w → closing instant j (foldl (shrinkSibling instant) w l).
Proof.
  revert w. induction l as [|j' l IH]; intros w Hc Hh Hcl; [done|].
  destruct (shrinkSibling_invariants instant j' w Hc Hh) as (Hc' & Hh' & _).
  simpl. apply IH; [done | done | by apply closing_shrinkSibling].
Qed.

(** After the [forEach] every captured sibling that is a section is being
    closed. *)
Lemma closing_shrinkSiblings instant l w :
  sound w → housed w →
  ∀ j, j ∈ l → is_Some (instances w !! j) →
       closing instant j (foldl (shrinkSibling instant) w l).
Proof.
  revert w. induction l as [|j' l IH]; intros w Hc Hh j Hj [dj Hdj];
    [by inversion Hj|].
  destruct (shrinkSibling_invariants instant j' w Hc Hh) as (Hc' & Hh' & Hs').
  simpl. destruct (decide (j = j')) as [<-|Hne].
  - apply closing_shrinkSiblings_keep; [done | done |].
    destruct (Hh j) as [ej Hej]; [by rewrite Hdj|].
    unfold shrinkSibling. rewrite Hdj. by apply (closing_shrink instant j w dj ej).
  - apply IH; [done | done | |].
    + apply elem_of_cons in Hj as [?|?]; [done | done].
    + apply Hs'. by rewrite Hdj.
Qed.

(** A captured sibling without an instance is passed over by the
    [forEach]. *)
Lemma skipped_refl j w : instances w !! j = None → skipped j w w.
Proof. by repeat split. Qed.

Lemma skipped_trans j w1 w2 w3 :
  skipped j w1 w2 → skipped j w2 w3 → skipped j w1 w3.
Proof.
  intros (_ & E1 & A1) (N2 & E2 & A2). split; [done|].
  split; [by rewrite E2|]. intros a an Han Htg.
  apply A1; [|done]. by apply A2.
Qed.

Lemma skipped_shrinkSibling instant j j' w :
  sound w → instances w !! j = None →
  skipped j w (shrinkSibling instant w j').
Proof.
  intros (Ho & _) Hnone. unfold shrinkSibling.
  destruct (instances w !! j') as [d'|] eqn:Hd'; [|by apply skipped_refl].
  assert (Hne : j' ≠ j) by congruence.
  destruct (elements w !! j') as [e'|] eqn:He';
    [|unfold shrink; rewrite Hd', He'; by apply skipped_refl].
  destruct (shrink_spec j' instant w d' e' Hd' He') as (E1 & _ & _ & E4 & E5).
  split; [by rewrite E5, lookup_insert_ne|]. split; [by rewrite E1|].
  intros a an Han Htg. rewrite E4 in Han.
  apply lookup_app_Some in Han as [Han|[_ Han]].
  - rewrite lookup_idled in Han. case_decide as Hcur; [|done].
    destruct (Ho j' a) as (an' & Han' & Htg');
      [unfold animationOf; by rewrite Hd'|].
    rewrite Han' in Han. simpl in Han. injection Han as <-.
    simpl in Htg. congruence.
  - destruct (a - _)%nat as [|n]; [|by destruct n].
    simpl in Han. injection Han as <-. simpl in Htg. congruence.
Qed.

Lemma skipped_shrinkSiblings instant l j w :
  sound w → housed w → instances w !! j = None →
  skipped j w (foldl (shrinkSibling instant) w l).
Proof.
  revert w. induction l as [|j' l IH]; intros w Hc Hh Hnone;
    [by apply skipped_refl|].
  destruct (shrinkSibling_invariants instant j' w Hc Hh) as (Hc' & Hh' & _).
  pose proof (skipped_shrinkSibling instant j j' w Hc Hnone) as Hs.
  simpl. eapply skipped_trans; [exact Hs|].
  apply IH; [done | done | apply Hs].
Qed.

(** Section [j] will be closed once the page settles: no frame callback
    is pending for it, the only animations awaited on it were installed by
    [shrink], and if its open flag is set one of them is still awaited. *)
Definition closesAtSettle (j : nat) (w : World) : Prop :=
  (∀ instant, (j, instant) ∉ frames w) ∧
  (∀ a an, awaited w a an → a_target an = j → a_handlers an = ByShrink) ∧
  (isOpen w j = true → ∃ a an, awaited w a an ∧ a_target an = j).

Lemma closes_settled j w : closesAtSettle j w → settled w → isOpen w j = false.
Proof.
  intros (_ & _ & H3) (_ & Hq & Hs).
  destruct (isOpen w j) eqn:Ho; [|done].
  destruct (H3 eq_refl) as (a & an & [Han [Hrun|[_ Hin]]] & _).
  - by destruct (Hs a an Han).
  - rewrite Hq in Hin. by inversion Hin.
Qed.

Lemma closes_transfer j w w' :
  (∀ x, x ∈ frames w' → x ∈ frames w) →
  (isOpen w' j = true → isOpen w j = true) →
  (∀ a an', awaited w' a an' → a_target an' = j →
            ∃ an, awaited w a an ∧ a_target an = j ∧
                  a_handlers an = a_handlers an') →
  (∀ a an, awaited w a an → a_target an = j →
           ∃ an', awaited w' a an' ∧ a_target an' = j) →
  closesAtSettle j w → closesAtSettle j w'.
Proof.
  intros Hf Ho Hback Hfwd (H1 & H2 & H3). repeat split.
  - intros instant Hin. by apply (H1 instant), Hf.
  - intros a an' Haw Htg.
    destruct (Hback a an' Haw Htg) as (an & Haw0 & Htg0 & <-).
    by apply (H2 a an).
  - intros Hopen. destruct (H3 (Ho Hopen)) as (a & an & Haw & Htg).
    destruct (Hfwd a an Haw Htg) as (an' & ? & ?). by exists a, an'.
Qed.

Lemma closes_fields j w w' :
  frames w' = frames w → animations w' = animations w →
  finishEvents w' = finishEvents w →
  elements w' !! j = elements w !! j →
  closesAtSettle j w → closesAtSettle j w'.
Proof.
  intros Hf Ha Hq He. apply closes_transfer.
  - intros x. by rewrite Hf.
  - unfold isOpen. by rewrite He.
  - intros a an'. unfold awaited. rewrite Ha, Hq. intros ??. by exists an'.
  - intros a an. unfold awaited. rewrite Ha, Hq. intros ??. by exists an.
Qed.

Lemma closes_expand j k instant w :
  consistent w → k ≠ j →
  closesAtSettle j w → closesAtSettle j (expand k instant w).
Proof.
  intros (Ht & Ho & Hdue) Hne.
  destruct (instances w !! k) as [d|] eqn:Hd;
    [|by unfold expand; rewrite Hd].
  destruct (elements w !! k) as [e|] eqn:He;
    [|by unfold expand; rewrite Hd, He].
  destruct (expand_spec k instant w d e Hd He) as (E1 & E2 & _ & E4 & _).
  pose proof (expand_finishEvents k instant w d e Hd He) as E6.
  assert (Hcur : ∀ a an, animations w !! a = Some an → a_target an = j →
                         animation d ≠ Some a).
  { intros a an Han Htg Hcur. destruct (Ho k a) as (an' & Han' & Htg');
      [unfold animationOf; by rewrite Hd|]. congruence. }
  apply closes_transfer.
  - intros x. by rewrite E2.
  - unfold isOpen. by rewrite E1.
  - intros a an' [Han' Hst] Htg. rewrite E4 in Han'.
    apply lookup_app_Some in Han' as [Han'|[_ Han']].
    + rewrite lookup_idled in Han'. case_decide as Hc.
      * destruct (animations w !! a) as [an0|]; simplify_eq/=.
        destruct Hst as [?|[? _]]; done.
      * exists an'. split; [|done]. split; [done|].
        destruct Hst as [?|[Hfin Hin]]; [by left|right]. split; [done|].
        rewrite E6, elem_of_started in Hin.
        destruct Hin as [?|[_ ->]]; [done|].
        apply lookup_lt_Some in Han'. lia.
    + destruct (a - _)%nat as [|n]; [|by destruct n].
      simpl in Han'. simplify_eq/=.
  - intros a an [Han Hst] Htg. exists an. split; [|done].
    pose proof (Hcur a an Han Htg) as Hc. split.
    + rewrite E4, lookup_app_l
        by (rewrite length_idled; by apply lookup_lt_Some in Han).
      rewrite lookup_idled. by rewrite decide_False.
    + destruct Hst as [?|[Hfin Hin]]; [by left|right]. split; [done|].
      rewrite E6, elem_of_started. by left.
Qed.

Lemma awaited_finished_back w a a' an' :
  awaited (finished a w) a' an' →
  a' ≠ a ∧ awaited w a' an'.
Proof.
  unfold awaited, finished. simpl. rewrite list_lookup_alter.
  intros [Han' Hst]. case_decide as Hk.
  - subst a'. destruct (animations w !! a) as [an|]; [|done].
    simpl in Han'. injection Han' as <-. simpl in Hst.
    destruct Hst as [?|[_ Hin]]; [done|].
    apply list_elem_of_filter in Hin as [? _]. done.
  - split; [done|]. split; [done|].
    destruct Hst as [?|[? Hin]]; [by left|right]. split; [done|].
    by apply list_elem_of_filter in Hin as [_ ?].
Qed.

Lemma awaited_finished_fwd w a a' an' :
  a' ≠ a → awaited w a' an' → awaited (finished a w) a' an'.
Proof.
  unfold awaited, finished. simpl. intros Hne [Han' Hst].
  rewrite list_lookup_alter_ne by done. split; [done|].
  destruct Hst as [?|[? Hin]]; [by left|right]. split; [done|].
  by apply list_elem_of_filter.
Qed.

Lemma awaited_eq w w' a an :
  animations w' = animations w → finishEvents w' = finishEvents w →
  awaited w' a an ↔ awaited w a an.
Proof. unfold awaited. by intros -> ->. Qed.

Lemma closes_finish j w a :
  consistent w → closesAtSettle j w → closesAtSettle j (finish a w).
Proof.
  intros Hc Hcl.
  destruct (finish_cases w a (proj2 (proj2 Hc))) as [->|(an & Haw & ->)];
    [done|].
  set (w0 := finished a w).
  destruct (onfinish_fields an w0) as (F1 & F2 & F3 & _ & F5 & _).
  assert (Heq : ∀ a' an', awaited (onfinish an w0) a' an' ↔ awaited w0 a' an')
    by (intros; by apply awaited_eq).
  destruct (decide (a_target an = j)) as [Htg|Hne].
  - destruct Hcl as (H1 & H2 & H3).
    assert (Hopen : isOpen (onfinish an w0) j = false).
    { rewrite onfinish_unfold. unfold returns, measured.
      rewrite (H2 a an Haw Htg).
      destruct (onAnimationFinish_fields (a_target an)
                  (bool_decide (ByShrink = ByExpand)) w0) as (_ & _ & _ & _ & _ & _ & Ho).
      rewrite <- Htg, Ho. done. }
    repeat split.
    + intros instant. rewrite F2. apply H1.
    + intros a' an' Haw' Htg'. apply Heq, awaited_finished_back in Haw' as [_ Haw'].
      by apply (H2 a' an').
    + rewrite Hopen. done.
  - revert Hcl. apply closes_transfer.
    + intros x. by rewrite F2.
    + unfold isOpen. rewrite F5 by done. done.
    + intros a' an' Haw' Htg'. apply Heq, awaited_finished_back in Haw' as [_ Haw'].
      by exists an'.
    + intros a' an' Haw' Htg'. exists an'. split; [|done].
      apply Heq, awaited_finished_fwd; [|done].
      intros ->. destruct Haw as [Han _], Haw' as [Han' _]. congruence.
Qed.

Lemma closes_exec j w ev :
  consistent w → passive ev = true →
  closesAtSettle j w → closesAtSettle j (exec w ev).
Proof.
  intros Hc Hp Hcl.
  destruct ev as [i| |i|i instant|i instant| |a h|a|]; try done; simpl.
  - destruct (timeouts w) as [|i q]; [done|]. by apply (closes_fields j w).
  - destruct (frames w) as [|[k instant] q] eqn:Hf; [done|].
    assert (Hk : k ≠ j).
    { intros ->. destruct Hcl as (H1 & _). apply (H1 instant).
      rewrite Hf. left. }
    apply closes_expand; [by apply (consistent_fields w) | done |].
    revert Hcl. apply closes_transfer; simpl.
    + intros x Hx. rewrite Hf. by right.
    + done.
    + intros a an' ??. by exists an'.
    + intros a an ??. by exists an.
  - destruct (animations w !! a) as [an|] eqn:Han; [|done].
    destruct (a_playState an) eqn:Hst; try done.
    revert Hcl. apply closes_transfer; simpl; try done.
    + intros a' an'. unfold awaited. simpl. rewrite list_lookup_alter.
      case_decide.
      * subst. rewrite Han. simpl. intros [[= <-] Hs] ?. exists an.
        split; [|done]. split; [done|]. simpl in Hs. done.
      * intros ??. by exists an'.
    + intros a' an0 [Han0 Hs] ?. unfold awaited. simpl.
      rewrite list_lookup_alter. case_decide.
      * subst. rewrite Han0. simpl. eexists. split; [split; [done|]|done].
        done.
      * by exists an0.
  - by apply closes_finish.
  - destruct (cancelEvents w) as [|a q]; [done|].
    destruct (animations w !! a) as [an|]; [|by apply (closes_fields j w)].
    unfold oncancel. destruct (a_handlers an); by apply (closes_fields j w).
Qed.

Lemma closes_run j evs w :
  consistent w → calm w evs = true →
  Forall (λ ev, passive ev = true) evs →
  closesAtSettle j w → closesAtSettle j (run w evs).
Proof.
  unfold run. revert w.
  induction evs as [|ev evs IH]; intros w Hc Hcalm Hp Hcl; [done|].
  apply Forall_cons in Hp as [Hp Hps]. simpl in *.
  apply andb_true_iff in Hcalm as [Hfresh Hcalm].
  apply bool_decide_eq_true in Hfresh.
  apply IH; [by apply consistent_exec | done | done | by apply closes_exec].
Qed.

Lemma closing_closes instant j w :
  consistent w → (∀ inst, (j, inst) ∉ frames w) →
  closing instant j w → closesAtSettle j w.
Proof.
  intros Hc Hf (a & an & ej & Ha & Han & _ & Htg & Hh & _ & _ & Hst & Hq).
  repeat split; [done| |].
  - intros a' an' Haw' Htg'.
    pose proof (awaited_held w a' an' Hc Haw') as Hcur.
    rewrite Htg', Ha in Hcur. injection Hcur as <-.
    destruct Haw' as [Han' _]. congruence.
  - intros _. exists a, an. split; [|done]. split; [done|].
    destruct instant; [right | by left].
    split; [done|]. by apply bool_decide_eq_true in Hq.
Qed.

(** [open] on a singleton section with captured siblings. *)
Lemma open_singleton i instant w d e :
  sound w → housed w →
  instances w !! i = Some d → elements w !! i = Some e →
  "singleton" ∈ classList e → siblings d ≠ [] →
  frames (open i instant w) = frames w ++ [(i, instant)] ∧
  ∀ j, j ∈ siblings d →
       match instances w !! j with
       | Some _ => closing instant j (open i instant w)
       | None => skipped j w (open i instant w)
       end.
Proof.
  intros Hc Hh Hd He Hsing Hsib.
  unfold open. rewrite Hd, He.
  rewrite bool_decide_eq_true_2 by done.
  rewrite bool_decide_eq_false_2 by done. simpl.
  match goal with |- context [foldl _ ?w3 _] => set (wB := w3) end.
  assert (HcB : sound wB) by (by apply (sound_fields w)).
  assert (HsB : sameDomain w wB).
  { apply sameDomain_fields; [|done]. unfold wB. simpl. by rewrite !length_alter. }
  assert (HhB : housed wB) by (by apply (housed_sameDomain w)).
  split.
  { assert (Hfr : ∀ l w0, frames (foldl (shrinkSibling instant) w0 l) = frames w0).
    { induction l as [|j l IH]; intros w0; [done|]. simpl. rewrite IH.
      unfold shrinkSibling. destruct (instances w0 !! j) as [dj|] eqn:Hdj; [|done].
      destruct (elements w0 !! j) as [ej|] eqn:Hej;
        [|by unfold shrink; rewrite Hdj, Hej].
      by destruct (shrink_spec j instant w0 dj ej Hdj Hej) as (_ & -> & _). }
    by rewrite Hfr. }
  intros j Hj. destruct (instances w !! j) as [dj|] eqn:Hdj.
  - apply closing_shrinkSiblings; [done | done | done | by eexists].
  - assert (Hji : j ≠ i) by congruence.
    eapply (skipped_trans j w wB).
    + split; [done|]. split; [|done]. unfold wB. simpl.
      by rewrite !list_lookup_alter_ne.
    + by apply skipped_shrinkSiblings.
Qed.

(** C5, amended. [S] is a section with the [singleton] class whose captured
    sibling list is not empty.  Activating [S] (a click that opens it, or
    [el.expand]) starts a shrink transition on every captured sibling that
    has an instance of [Details], open or not, and passes over every
    captured sibling that has none.  If every captured sibling has an
    instance and none has a frame callback pending from an activation of
    its own, no animation is cancelled while its finish event is queued,
    and the host then only runs what is pending (frames, animation
    progress and finish, cancel events, timers) until the page is settled,
    every sibling is closed, so at most one section of the group is
    open. *)
Theorem singleton_closes_siblings
  (w : World) (i : nat) (d : Instance) (e : Element) (instant : bool)
  (act : HostEvent) (evs : list HostEvent) :
  reachable w →
  instances w !! i = Some d → elements w !! i = Some e →
  "singleton" ∈ classList e → siblings d ≠ [] →
  (act = Click i ∧ instant = false ∧ (isClosing d = true ∨ el_open e = false))
  ∨ act = CallExpand i instant →
  let w1 := exec w act in
  let w2 := run w1 evs in
  (∀ j, j ∈ siblings d →
        match instances w !! j with
        | Some _ => closing instant j w1
        | None => skipped j w w1
        end) ∧
  ((∀ j, j ∈ siblings d →
         is_Some (instances w !! j) ∧ ∀ inst, (j, inst) ∉ frames w) →
   calmly w → calm w (act :: evs) = true →
   Forall (λ ev, passive ev = true) evs →
   settled w2 →
   (∀ j, j ∈ siblings d → isOpen w2 j = false) ∧
   (length (filter (λ j, isOpen w2 j = true) (i :: siblings d)) ≤ 1)%nat).
Proof.
  intros Hr Hd He Hsing Hsib Hact w1 w2.
  destruct (reachable_sound w Hr) as [Hs Hh].
  pose proof (reachable_apart w Hr i d Hd) as Hns.
  assert (H1 : frames w1 = frames w ++ [(i, instant)] ∧
               ∀ j, j ∈ siblings d →
                    match instances w !! j with
                    | Some _ => closing instant j w1
                    | None => skipped j w w1
                    end).
  { destruct Hact as [(-> & -> & Hopen)| ->].
    - unfold w1. simpl. rewrite (onClick_unfold w i d e Hd He).
      assert (Hcond : isClosing d || negb (el_open e) = true).
      { destruct Hopen as [-> | ->]; [done | by rewrite orb_true_r]. }
      rewrite Hcond. simpl.
      set (w' := upd_el i (set_style_overflow "hidden") w).
      assert (Hs' : sound w') by (by apply (sound_fields w)).
      assert (Hh' : housed w').
      { apply (housed_sameDomain w); [apply sameDomain_upd_el | done]. }
      assert (He' : elements w' !! i = Some (set_style_overflow "hidden" e)).
      { unfold w'. simpl. by rewrite list_lookup_alter_eq, He. }
      destruct (open_singleton i false w' d (set_style_overflow "hidden" e)
                  Hs' Hh' Hd He' Hsing Hsib) as (O2 & O3).
      split; [done|]. intros j Hj.
      specialize (O3 j Hj). change (instances w' !! j) with (instances w !! j) in O3.
      destruct (instances w !! j) as [dj|] eqn:Hdj; [done|].
      eapply (skipped_trans j w w'); [|exact O3].
      split; [done|]. split; [|done]. unfold w'. simpl.
      rewrite list_lookup_alter_ne; [done|]. congruence.
    - by apply (open_singleton i instant w d e). }
  destruct H1 as (Hf1 & Hcl1). split; [done|].
  intros Hm Hcw Hcalm Hp Hset.
  pose proof (calmly_consistent w Hcw) as Hc.
  simpl in Hcalm. apply andb_true_iff in Hcalm as [Hfresh Hcalm].
  apply bool_decide_eq_true in Hfresh.
  assert (Hc1 : consistent w1) by (by apply consistent_exec).
  assert (Hclosed : ∀ j, j ∈ siblings d → isOpen w2 j = false).
  { intros j Hj. apply (closes_settled j w2); [|done].
    destruct (Hm j Hj) as [[dj Hdj] Hfr].
    specialize (Hcl1 j Hj). rewrite Hdj in Hcl1.
    apply closes_run; [done | done | done |].
    apply (closing_closes instant); [done| |done].
    intros inst. rewrite Hf1. rewrite not_elem_of_app. split; [done|].
    rewrite list_elem_of_singleton. intros [= -> _]. done. }
  split; [done|].
  rewrite filter_cons.
  assert (Hnil : filter (λ j, isOpen w2 j = true) (siblings d) = []).
  { destruct (filter _ (siblings d)) as [|x r] eqn:Hflt; [done|].
    assert (Hx : x ∈ filter (λ j, isOpen w2 j = true) (siblings d))
      by (rewrite Hflt; left).
    apply list_elem_of_filter in Hx as [Hopen Hx].
    rewrite (Hclosed x Hx) in Hopen. done. }
  rewrite Hnil. case_decide; simpl; lia.
Qed.

(** Sample pages: singleton sections under one parent, and a plain open
    [<details>] for which no [Details] was constructed. *)
Definition singleton : Element := section {["singleton"]}.
Definition openSingleton : Element := set_el_open true singleton.
Definition plainOpen : Element := set_el_open true (section ∅).

Lemma settled_intro w :
  frames w = [] → finishEvents w = [] →
  forallb (λ an, bool_decide (a_playState an ≠ Running)) (animations w) = true →
  settled w.
Proof.
  intros Hf Hq Hall. split; [done|]. split; [done|]. intros a an Han.
  rewrite forallb_forall in Hall.
  apply list_elem_of_lookup_2, list_elem_of_In in Han.
  apply Hall in Han. by apply bool_decide_eq_true in Han.
Qed.

(** C5, as stated, fails.  The captured sibling list of a singleton section
    holds every same-tag child of the parent; one of them is an open
    [<details>] without an instance, hence without a [shrink] method.
    Activating the section starts no animation on that sibling, and once
    the page is settled both are open. *)
Lemma singleton_plain_sibling_counterexample :
  let w := run (page [singleton; plainOpen]) [Construct 0%nat; Timeout] in
  let w1 := exec w (Click 0%nat) in
  let w2 := run w1 [AnimationFrame; Finish 0%nat] in
  (classList <$> elements w !! 0%nat = Some {["singleton"]} ∧
   siblings <$> instances w !! 0%nat = Some [1%nat] ∧ isOpen w 1 = true) ∧
  (runningOn 1 w1 = [] ∧ animations w1 = []) ∧
  (settled w2 ∧ isOpen w2 0 = true ∧ isOpen w2 1 = true ∧
   length (filter (λ j, isOpen w2 j = true) [0%nat; 1%nat]) = 2%nat).
Proof.
  split; [repeat split; vm_compute; reflexivity|].
  split; [repeat split; vm_compute; reflexivity|].
  split; [apply settled_intro; vm_compute; reflexivity|].
  repeat split; vm_compute; reflexivity.
Qed.

(** The condition on pending frame callbacks cannot be dropped: of three
    singleton sections, section 2 is open; a script calls [expand] on
    section 1 and on section 0 before the next frame.  Each is shrunk by
    the other's [open], and each frame callback cancels that shrink; once
    the page is settled, sections 0 and 1 are both open. *)
Remark same_frame_activations_open_both :
  let w := run (page [singleton; singleton; openSingleton])
             [Construct 0%nat; Construct 1%nat; Construct 2%nat;
              Timeout; Timeout; Timeout] in
  let w2 := run w [CallExpand 1%nat false; CallExpand 0%nat false;
                   AnimationFrame; AnimationFrame;
                   CancelEvent; CancelEvent; CancelEvent;
                   Finish 3%nat; Finish 4%nat; Finish 5%nat] in
  settled w2 ∧ isOpen w2 0 = true ∧ isOpen w2 1 = true ∧ isOpen w2 2 = false.
Proof.
  split; [apply settled_intro; vm_compute; reflexivity|].
  repeat split; vm_compute; reflexivity.
Qed.

(** Witness for C5 amended: section 2 is open, section 0 is clicked. *)
Lemma singleton_closes_siblings_witness :
  let w := run (page [singleton; singleton; openSingleton])
             [Construct 0%nat; Construct 1%nat; Construct 2%nat;
              Timeout; Timeout; Timeout] in
  let w1 := exec w (Click 0%nat) in
  let w2 := run w1 [AnimationFrame; Finish 0%nat; Finish 1%nat; Finish 2%nat] in
  (∀ j, j ∈ [1%nat; 2%nat] →
        match instances w !! j with
        | Some _ => closing false j w1
        | None => skipped j w w1
        end) ∧
  ((∀ j, j ∈ [1%nat; 2%nat] →
         is_Some (instances w !! j) ∧ ∀ inst, (j, inst) ∉ frames w) →
   calmly w →
   calm w [Click 0%nat;
           AnimationFrame; Finish 0%nat; Finish 1%nat; Finish 2%nat] = true →
   Forall (λ ev, passive ev = true)
     [AnimationFrame; Finish 0%nat; Finish 1%nat; Finish 2%nat] →
   settled w2 →
   (∀ j, j ∈ [1%nat; 2%nat] → isOpen w2 j = false) ∧
   (length (filter (λ j, isOpen w2 j = true) (0%nat :: [1%nat; 2%nat])) ≤ 1)%nat).
Proof.
  refine (singleton_closes_siblings
            (run (page [singleton; singleton; openSingleton])
               [Construct 0%nat; Construct 1%nat; Construct 2%nat;
                Timeout; Timeout; Timeout])
            0%nat
            {| animation := None; isClosing := false; isExpanding := false;
               siblings := [1%nat; 2%nat] |}
            singleton false (Click 0%nat)
            [AnimationFrame; Finish 0%nat; Finish 1%nat; Finish 2%nat]
            _ _ _ _ _ _).
  - by eexists _, _.
  - vm_compute. reflexivity.
  - reflexivity.
  - change ("singleton" ∈ ({["singleton"]} : gset string)).
    apply elem_of_singleton. reflexivity.
  - discriminate.
  - left. split; [reflexivity|]. split; [reflexivity|]. right. reflexivity.
Defined.

(** The sample run of the witness does settle, with section 0 alone open;
    its premises on the siblings hold. *)
Example singleton_sample_settles :
  let w := run (page [singleton; singleton; openSingleton])
             [Construct 0%nat; Construct 1%nat; Construct 2%nat;
              Timeout; Timeout; Timeout] in
  let w2 := run w [Click 0%nat;
                   AnimationFrame; Finish 0%nat; Finish 1%nat; Finish 2%nat] in
  (siblings <$> instances w !! 0%nat) = Some [1%nat; 2%nat] ∧
  map (λ j, bool_decide (is_Some (instances w !! j))) [1%nat; 2%nat]
    = [true; true] ∧
  frames w = [] ∧
  calm (page [singleton; singleton; openSingleton])
    [Construct 0%nat; Construct 1%nat; Construct 2%nat;
     Timeout; Timeout; Timeout; Click 0%nat;
     AnimationFrame; Finish 0%nat; Finish 1%nat; Finish 2%nat] = true ∧
  settled w2 ∧ map (isOpen w2) [0%nat; 1%nat; 2%nat] = [true; false; false].
Proof.
  split; [vm_compute; reflexivity|]. split; [vm_compute; reflexivity|].
  split; [vm_compute; reflexivity|]. split; [vm_compute; reflexivity|].
  split; [apply settled_intro; vm_compute; reflexivity | vm_compute; reflexivity].
Qed.

(** A mixed sibling list: section 1 has an instance, element 2 is a plain
    open [<details>].  The click on section 0 starts a shrink animation on
    section 1 and nothing on element 2; once the page is settled, section
    1 is closed and element 2 is still open. *)
Example mixed_siblings :
  let w := run (page [singleton; openSingleton; plainOpen])
             [Construct 0%nat; Construct 1%nat; Timeout; Timeout] in
  let w1 := exec w (Click 0%nat) in
  let w2 := run w1 [AnimationFrame; Finish 0%nat; Finish 1%nat] in
  (siblings <$> instances w !! 0%nat) = Some [1%nat; 2%nat] ∧
  map (λ an, (a_target an, a_handlers an, a_from an, a_to an, a_playState an))
    (animations w1) = [(1%nat, ByShrink, 200, 40, Running)] ∧
  instances w1 !! 2%nat = None ∧ elements w1 !! 2%nat = elements w !! 2%nat ∧
  settled w2 ∧ map (isOpen w2) [0%nat; 1%nat; 2%nat] = [true; false; true].
Proof.
  split; [vm_compute; reflexivity|]. split; [vm_compute; reflexivity|].
  split; [vm_compute; reflexivity|]. split; [vm_compute; reflexivity|].
  split; [apply settled_intro; vm_compute; reflexivity | vm_compute; reflexivity].
Qed.

(** An instant activation: [el.expand(true)] on section 0 shrinks its open
    sibling with an animation of duration 0, which is finished at once;
    the handlers of the two finish events close the sibling and open the
    section. *)
Example instant_singleton :
  let w := run (page [singleton; openSingleton])
             [Construct 0%nat; Construct 1%nat; Timeout; Timeout] in
  let w1 := exec w (CallExpand 0%nat true) in
  let w2 := run w1 [AnimationFrame; Finish 0%nat; Finish 1%nat] in
  map (λ an, (a_target an, a_handlers an, a_duration an, a_playState an))
    (animations w1) = [(1%nat, ByShrink, 0, Finished)] ∧
  finishEvents w1 = [0%nat] ∧ runningOn 1 w1 = [] ∧
  settled w2 ∧ map (isOpen w2) [0%nat; 1%nat] = [true; false].
Proof.
  split; [vm_compute; reflexivity|]. split; [vm_compute; reflexivity|].
  split; [vm_compute; reflexivity|].
  split; [apply settled_intro; vm_compute; reflexivity | vm_compute; reflexivity].
Qed.

End DetailsFacts.

(** * Properties of the custom-property helpers *)

Module CustomPropertyFacts.
Import CustomProperty.

Example customName_plain : customName "nav-bar-height" = "--nav-bar-height".
Proof. reflexivity. Qed.

Example customName_prefixed : customName "--nav-bar-height" = "--nav-bar-height".
Proof. reflexivity. Qed.

Example trim_spaces : trim "  200px " = "200px".
Proof. reflexivity. Qed.

Example isInteger_examples :
  map isInteger ["-12"; "7"; ""; "-"; "1.5"; "12px"] =
  [true; true; false; false; false; false].
Proof. reflexivity. Qed.

(** U+00A0, U+2028 and U+3000 in UTF-8. *)
Definition nbsp : string := String "194" (String "160" "").
Definition lineSeparator : string := String "226" (String "128" (String "168" "")).
Definition ideographicSpace : string :=
  String "227" (String "128" (String "128" "")).

Example trim_unicode :
  map trim [nbsp +:+ " 12 " +:+ lineSeparator; ideographicSpace;
            "a" +:+ nbsp +:+ "b" +:+ ideographicSpace] =
  ["12"; ""; "a" +:+ nbsp +:+ "b"].
Proof. reflexivity. Qed.

(** The name the documentation promises for a property: the name prefixed
    with a double hyphen, the prefix not repeated for a name that already
    starts with it. *)
Definition prefixed (property : string) : string :=
  if String.prefix "--" property then property else "--" +:+ property.

Lemma prefix_cons (a b : ascii) (s t : string) :
  String.prefix (String a s) (String b t) =
  if ascii_dec a b then String.prefix s t else false.
Proof. reflexivity. Qed.

Lemma prefix_empty (s : string) : String.prefix "" s = true.
Proof. by destruct s. Qed.

Lemma prefix_dashes (a b : ascii) (rest : string) :
  String.prefix "--" (String a (String b rest)) =
  bool_decide (a = "-"%char) && bool_decide (b = "-"%char).
Proof.
  rewrite !prefix_cons, prefix_empty.
  destruct (ascii_dec "-" a) as [<-|Ha].
  - rewrite (bool_decide_eq_true_2 ("-"%char = "-"%char)) by done.
    destruct (ascii_dec "-" b) as [<-|Hb].
    + by rewrite (bool_decide_eq_true_2 ("-"%char = "-"%char)).
    + rewrite bool_decide_eq_false_2; [done | congruence].
  - rewrite bool_decide_eq_false_2; [done | congruence].
Qed.

Lemma customName_eq_prefixed (property : string) :
  customName property = prefixed property.
Proof.
  unfold customName, prefixed.
  destruct property as [|a [|b rest]].
  - reflexivity.
  - rewrite prefix_cons. destruct (ascii_dec "-" a) as [<-|Ha]; [reflexivity|].
    destruct a as [[] [] [] [] [] [] [] []]; reflexivity.
  - rewrite prefix_dashes.
    destruct (ascii_dec a "-") as [->|Ha].
    + destruct (ascii_dec b "-") as [->|Hb]; [reflexivity|].
      rewrite (bool_decide_eq_false_2 (b = "-"%char) Hb), andb_false_r.
      destruct b as [[] [] [] [] [] [] [] []];
        first [reflexivity | by destruct Hb].
    + rewrite (bool_decide_eq_false_2 (a = "-"%char) Ha). simpl.
      destruct a as [[] [] [] [] [] [] [] []];
        first [reflexivity | by destruct Ha].
Qed.

Section Numbers.

Variable Number : Type.
Variable toNumber : string → Number.
Variable parseFloatFixed4 : string → Number.

(** The [setProperty] calls one property map gives rise to, with the names
    written out as [prefixed] gives them. *)
Definition callsOf (m : PropertyMap Number) : list (StyleCall Number) :=
  map (λ entry, setProperty (prefixed entry.1) entry.2) m.

Lemma forEach_setProperty (m : PropertyMap Number) (st : list (StyleCall Number)) :
  foldl (λ st' '(property, v), st' ++ [setProperty (customName property) v]) st m
  = st ++ callsOf m.
Proof.
  revert st. induction m as [|[property v] m IH]; intros st; simpl.
  - by rewrite app_nil_r.
  - rewrite IH, customName_eq_prefixed. by rewrite <- app_assoc.
Qed.

(** C9. [setCustomProperty] throws exactly when it is given a property name
    and no value.  In every other call shape it returns normally; the
    target is the same element, and its [style] has received one
    [setProperty] call per given property, in order, with the given value
    and under the name that starts with [--] (a value passed next to a
    property map is ignored).  A target without [style] is returned as it
    is. *)
Theorem setCustomProperty_throws_iff
  (target : Target Number) (properties : PropertyInput Number)
  (value : option (PropValue Number)) :
  ((∃ message, setCustomProperty Number target properties value = Throw message)
   ↔ (∃ name, properties = Name name ∧ value = None)) ∧
  (∀ name v,
     setCustomProperty Number target (Name name) (Some v) =
     Ok {| style := (λ st, st ++ [setProperty (prefixed name) v])
                    <$> style Number target;
           getPropertyValue := getPropertyValue Number target |}) ∧
  (∀ m,
     setCustomProperty Number target (Map m) value =
     Ok {| style :=
             (λ st, st ++ map (λ entry, setProperty (prefixed entry.1) entry.2) m)
             <$> style Number target;
           getPropertyValue := getPropertyValue Number target |}).
Proof.
  split; [|split].
  - split.
    + intros [message Hthrow]. unfold setCustomProperty in Hthrow.
      destruct properties as [name|m].
      * destruct value as [v|]; [|by exists name].
        by destruct (style Number target).
      * by destruct (style Number target).
    + intros (name & -> & ->). by eexists.
  - intros name v. unfold setCustomProperty.
    destruct target as [[st|] gpv]; simpl; [|reflexivity].
    by rewrite customName_eq_prefixed.
  - intros m. unfold setCustomProperty.
    destruct target as [[st|] gpv]; simpl; [|reflexivity].
    by rewrite forEach_setProperty.
Qed.

Lemma forEach_keeps_string (f : string → PropValue Number) (names : list string)
  (s : string) :
  foldl (λ result property,
           match result with
           | OutMap m => OutMap (assign Number property (f property) m)
           | _ => result
           end) (OutString s) names = OutString s.
Proof. induction names as [|n names IH]; [done|]. simpl. exact IH. Qed.

(** C10. [getCustomProperty] called with exactly one string among its
    arguments returns the empty string, whatever the computed style of the
    target holds and whether or not [true] is passed: the value that is
    looked up is stored only when the accumulator is an object. *)
Theorem getCustomProperty_single_name
  (target : Target Number) (properties : list Argument) (name : string) :
  stringsOf properties = [name] →
  getCustomProperty Number toNumber parseFloatFixed4 target properties
  = OutString "".
Proof.
  intros Hone. unfold getCustomProperty. rewrite Hone. simpl. reflexivity.
Qed.

End Numbers.

(** Numbers kept as the text they were converted from. *)
Definition sampleTarget : Target string :=
  {| style := Some [];
     getPropertyValue := λ name,
       if String.eqb name "--nav-bar-height" then " 200px "
       else if String.eqb name "--columns" then "12"
       else "" |}.

(** Witness for C10: the call of the second documented example. *)
Lemma getCustomProperty_single_name_witness :
  getCustomProperty string (λ s, s) (λ s, s) sampleTarget
    [AString "nav-bar-height"; ABoolean true] = OutString "".
Proof.
  apply (getCustomProperty_single_name string (λ s, s) (λ s, s) sampleTarget
           [AString "nav-bar-height"; ABoolean true] "nav-bar-height").
  reflexivity.
Defined.

(** With two names the looked-up values are kept: trimmed, integers
    converted, lengths parsed when [true] is passed. *)
Example getCustomProperty_two_names :
  getCustomProperty string (λ s, s) (λ s, s) sampleTarget
    [AString "nav-bar-height"; AString "--columns"; ABoolean true]
  = OutMap (<["--columns" := VNumber "12"]>
              (<["nav-bar-height" := VNumber "200px"]> ∅)).
Proof. vm_compute. reflexivity. Qed.

Example setCustomProperty_name_value :
  setCustomProperty string sampleTarget (Name "nav-bar-height")
    (Some (VString "200px"))
  = Ok (with_style string
          (Some [setProperty "--nav-bar-height" (VString "200px")])
          sampleTarget).
Proof. reflexivity. Qed.

Example setCustomProperty_name_only :
  setCustomProperty string sampleTarget (Name "nav-bar-height") None
  = Throw "Value must be defined when properties is a string".
Proof. reflexivity. Qed.

End CustomPropertyFacts.

(** * More on the custom-property helpers *)

Module CustomPropertyMore.
Import CustomProperty.

Lemma eqb_app_nil (s : string) : String.eqb s "" = true ↔ s = "".
Proof. apply String.eqb_eq. Qed.

(** [value.endsWith(unit)] holds exactly for the values that have [unit]
    as a suffix. *)
Lemma endsWith_suffix (value unit : string) :
  endsWith value unit = true ↔ ∃ front, value = front +:+ unit.
Proof.
  assert (Hunfold : ∀ v, endsWith v unit =
            String.eqb v unit ||
            match v with String _ r => endsWith r unit | EmptyString => false end)
    by (by intros []).
  induction value as [|c rest IH]; rewrite Hunfold.
  - rewrite orb_false_r, String.eqb_eq. split.
    + intros <-. by exists "".
    + intros [front Hf]. destruct front; simpl in Hf; [done|discriminate].
  - rewrite orb_true_iff, String.eqb_eq, IH. split.
    + intros [<-|[front ->]]; [by exists ""|]. by exists (String c front).
    + intros [front Hf]. destruct front as [|c' front]; simpl in Hf.
      * by left.
      * right. exists front. by injection Hf.
Qed.

(** X1. The name under which a property is addressed always starts with
    [--]: a name that already starts with [--] is kept as it is (only that
    one prefix is looked at, so [----x] stays [----x]), and every other
    name gets [--] in front.  Normalising twice changes nothing, so a name
    given with the prefix and the same name given without it address one
    CSS property. *)
Theorem customName_prefix_once (property : string) :
  customName property =
    (if String.prefix "--" property then property else "--" +:+ property) ∧
  String.prefix "--" (customName property) = true ∧
  customName (customName property) = customName property ∧
  customName ("--" +:+ property) = "--" +:+ property.
Proof.
  split; [apply CustomPropertyFacts.customName_eq_prefixed|].
  split; [|split; reflexivity].
  unfold customName. change ("--" +:+ stripDashes property)
    with (String "-" (String "-" (stripDashes property))).
  rewrite CustomPropertyFacts.prefix_dashes.
  by rewrite !bool_decide_eq_true_2.
Qed.

Section Numbers.

Variable Number : Type.
Variable toNumber : string → Number.
Variable parseFloatFixed4 : string → Number.

Lemma find_endsWith_None (value : string) (units : list string) :
  List.find (λ unit, endsWith value unit) units = None ↔
  ∀ unit, unit ∈ units → ¬ ∃ front, value = front +:+ unit.
Proof.
  induction units as [|u units IH]; simpl.
  - split; [|done]. intros _ unit Hin. by inversion Hin.
  - destruct (endsWith value u) eqn:He.
    + split; [done|]. intros Hall. exfalso.
      apply (Hall u); [left|]. by apply endsWith_suffix.
    + rewrite IH. split.
      * intros Hall unit Hin. apply elem_of_cons in Hin as [->|Hin].
        -- intros Hs. apply endsWith_suffix in Hs. congruence.
        -- by apply Hall.
      * intros Hall unit Hin. apply Hall. by right.
Qed.

(** X2. [parseCssUnits] with a list of non-empty units converts a value to
    a number exactly when one of the units is a suffix of the value, and
    the number is [Number(parseFloat(value).toFixed(4))]; every other value
    comes back unchanged, as a string. *)
Theorem parseCssUnits_suffix (value : string) (units : list string) :
  Forall (λ unit, unit ≠ "") units →
  ((∃ unit front, unit ∈ units ∧ value = front +:+ unit) →
   parseCssUnits Number parseFloatFixed4 value units
   = VNumber (parseFloatFixed4 value)) ∧
  ((∀ unit, unit ∈ units → ¬ ∃ front, value = front +:+ unit) →
   parseCssUnits Number parseFloatFixed4 value units = VString value).
Proof.
  intros Hne. unfold parseCssUnits. split.
  - intros (unit & front & Hin & Hval).
    destruct (List.find _ units) as [u|] eqn:Hf.
    + apply find_some in Hf as [Hu _]. apply list_elem_of_In in Hu.
      rewrite Forall_forall in Hne. specialize (Hne u Hu).
      destruct (String.eqb u "") eqn:Heq; [|done].
      by apply String.eqb_eq in Heq.
    + rewrite find_endsWith_None in Hf. destruct (Hf unit Hin). by exists front.
  - intros Hnone. apply find_endsWith_None in Hnone. by rewrite Hnone.
Qed.

(** What the loop of [getCustomProperty] computes for one name. *)
Definition lookedUp (target : Target Number) (shouldParseCssUnits : bool)
  (property : string) : PropValue Number :=
  let value := trim (getPropertyValue Number target (customName property)) in
  if isInteger value then VNumber (toNumber value)
  else if shouldParseCssUnits
       then parseCssUnits Number parseFloatFixed4 value ValidCssUnits
       else VString value.

Lemma forEach_record (f : string → PropValue Number) (names : list string)
  (m : gmap string (PropValue Number)) :
  ∃ m', foldl (λ result property,
                 match result with
                 | OutMap m => OutMap (assign Number property (f property) m)
                 | _ => result
                 end) (OutMap m) names = OutMap m' ∧
        ∀ k, m' !! k = if bool_decide (k ∈ names ∧ k ≠ "__proto__")
                       then Some (f k) else m !! k.
Proof.
  revert m. induction names as [|n names IH]; intros m.
  - exists m. split; [done|]. intros k.
    rewrite bool_decide_eq_false_2; [done|]. intros [Hk _]. by inversion Hk.
  - destruct (IH (assign Number n (f n) m)) as (m' & Hfold & Hm'). exists m'.
    split; [exact Hfold|]. intros k. rewrite Hm'.
    destruct (decide (k ∈ names ∧ k ≠ "__proto__")) as [[Hin Hk]|Hnin].
    + rewrite (bool_decide_eq_true_2 (k ∈ names ∧ k ≠ "__proto__"))
        by done.
      rewrite (bool_decide_eq_true_2 (k ∈ n :: names ∧ k ≠ "__proto__"));
        [done|]. split; [by right | done].
    + rewrite (bool_decide_eq_false_2 (k ∈ names ∧ k ≠ "__proto__") Hnin).
      unfold assign. destruct (String.eqb n "__proto__") eqn:Hn.
      * apply String.eqb_eq in Hn. subst n.
        rewrite (bool_decide_eq_false_2
                   (k ∈ "__proto__" :: names ∧ k ≠ "__proto__")); [done|].
        intros [Hin Hk]. apply Hnin. split; [|done].
        apply elem_of_cons in Hin as [?|?]; [done | done].
      * apply String.eqb_neq in Hn.
        destruct (decide (k = n)) as [->|Hne].
        -- rewrite lookup_insert_eq.
           rewrite (bool_decide_eq_true_2 (n ∈ n :: names ∧ n ≠ "__proto__"));
             [done|]. split; [left | done].
        -- rewrite lookup_insert_ne by done.
           rewrite (bool_decide_eq_false_2
                      (k ∈ n :: names ∧ k ≠ "__proto__")); [done|].
           intros [Hin Hk]. apply Hnin. split; [|done].
           apply elem_of_cons in Hin as [?|?]; [done | done].
Qed.

(** X3. [getCustomProperty] never returns a number, although its result
    type allows one.  Called with no name or with two or more names it
    returns an object whose keys are exactly the names as they were passed
    (not their [--] form), the name [__proto__] left out; the value under a
    name is the trimmed computed value, converted to a number when it is an
    integer literal, and parsed for units only when [true] was passed. *)
Theorem getCustomProperty_object
  (target : Target Number) (properties : list Argument) :
  (∀ n, getCustomProperty Number toNumber parseFloatFixed4 target properties
        ≠ OutNumber n) ∧
  (length (stringsOf properties) ≠ 1 →
   ∃ m, getCustomProperty Number toNumber parseFloatFixed4 target properties
        = OutMap m ∧
        ∀ k, m !! k =
             if bool_decide (k ∈ stringsOf properties ∧ k ≠ "__proto__")
             then Some (lookedUp target (existsb isTrue properties) k)
             else None).
Proof.
  assert (Hbody : ∀ result,
    foldl (λ result property,
           let value := trim (getPropertyValue Number target (customName property)) in
           let value := if isInteger value then VNumber (toNumber value)
                        else VString value in
           let value := match value with
                        | VString s =>
                            if existsb isTrue properties
                            then parseCssUnits Number parseFloatFixed4 s ValidCssUnits
                            else value
                        | VNumber _ => value
                        end in
           match result with
           | OutMap m => OutMap (assign Number property value m)
           | _ => result
           end) result (stringsOf properties) =
    foldl (λ result property,
           match result with
           | OutMap m => OutMap (assign Number property
               (lookedUp target (existsb isTrue properties) property) m)
           | _ => result
           end) result (stringsOf properties)).
  { intros result. revert result.
    induction (stringsOf properties) as [|n names IH]; intros result; [done|].
    simpl. rewrite <- IH. f_equal. unfold lookedUp.
    destruct result; try done. by destruct (isInteger _). }
  unfold getCustomProperty. rewrite Hbody. split.
  - intros n. destruct (Nat.eqb _ 1).
    + by rewrite CustomPropertyFacts.forEach_keeps_string.
    + destruct (forEach_record (lookedUp target (existsb isTrue properties))
                  (stringsOf properties) ∅) as (m' & -> & _). done.
  - intros Hlen. apply Nat.eqb_neq in Hlen. rewrite Hlen.
    destruct (forEach_record (lookedUp target (existsb isTrue properties))
                (stringsOf properties) ∅) as (m' & -> & Hm').
    exists m'. split; [done|]. intros k. rewrite Hm'.
    by rewrite lookup_empty.
Qed.

End Numbers.

(** Witness for X2 on the default units. *)
Lemma parseCssUnits_suffix_witness :
  ((∃ unit front, unit ∈ ValidCssUnits ∧ "1.5rem" = front +:+ unit) →
   parseCssUnits string (λ s, s) "1.5rem" ValidCssUnits = VNumber "1.5rem") ∧
  ((∀ unit, unit ∈ ValidCssUnits → ¬ ∃ front, "1.5rem" = front +:+ unit) →
   parseCssUnits string (λ s, s) "1.5rem" ValidCssUnits = VString "1.5rem").
Proof.
  apply (parseCssUnits_suffix string (λ s, s) "1.5rem" ValidCssUnits).
  unfold ValidCssUnits. repeat constructor; discriminate.
Defined.

(** Witness for X3: two names and [true]. *)
Lemma getCustomProperty_object_witness :
  ∃ m, getCustomProperty string (λ s, s) (λ s, s)
         CustomPropertyFacts.sampleTarget
         [AString "nav-bar-height"; AString "columns"; AString "__proto__";
          ABoolean true]
       = OutMap m ∧
       m !! "columns" = Some (VNumber "12") ∧
       m !! "nav-bar-height" = Some (VNumber "200px") ∧
       m !! "--columns" = None ∧
       m !! "__proto__" = None.
Proof.
  destruct (getCustomProperty_object string (λ s, s) (λ s, s)
              CustomPropertyFacts.sampleTarget
              [AString "nav-bar-height"; AString "columns"; AString "__proto__";
               ABoolean true])
    as [_ Hobj].
  destruct Hobj as (m & Hm & Hk); [simpl; lia|].
  exists m. split; [exact Hm|].
  rewrite !Hk. repeat split.
Defined.

End CustomPropertyMore.

(** * The managed observers *)

Module Managed.
Import Mutation.

(** A JavaScript [Set] of nodes: no duplicates, iteration in insertion
    order. *)
Abbreviation JSSet := (list Node).

Definition has (s : JSSet) (x : Node) : bool := bool_decide (x ∈ s).
Definition add (s : JSSet) (x : Node) : JSSet := if has s x then s else s ++ [x].
Definition delete (s : JSSet) (x : Node) : JSSet := filter (λ y, y ≠ x) s.

(** The calls a wrapper makes on its native observer. *)
Inductive NativeCall :=
  | native_observe (target : Node)
  | native_unobserve (target : Node)
  | native_disconnect.

(** The targets a native observer watches after a sequence of calls:
    [observe] adds one, [unobserve] drops one, [disconnect] drops all. *)
Definition nativeStep (targets : gset Node) (c : NativeCall) : gset Node :=
  match c with
  | native_observe t => {[t]} ∪ targets
  | native_unobserve t => targets ∖ {[t]}
  | native_disconnect => ∅
  end.

Definition nativeTargets (calls : list NativeCall) : gset Node :=
  foldl nativeStep ∅ calls.

(** Number of [observe] calls made on a target the native observer was
    already watching. *)
Fixpoint repeatedObserves (targets : gset Node) (calls : list NativeCall) : nat :=
  match calls with
  | [] => 0
  | c :: rest =>
      (match c with
       | native_observe t => if bool_decide (t ∈ targets) then 1 else 0
       | _ => 0
       end + repeatedObserves (nativeStep targets c) rest)%nat
  end.

(** ** [ManagedResizeObserver] *)

Module Resize.

Record ManagedResizeObserver := {
  observedElements : JSSet;
  observer : list NativeCall;
}.

(** [new ManagedResizeObserver(callback)] *)
Definition constructor : ManagedResizeObserver :=
  {| observedElements := []; observer := [] |}.

Definition observe (element : Node) (m : ManagedResizeObserver)
  : ManagedResizeObserver :=
  if negb (has (observedElements m) element) then
    {| observedElements := add (observedElements m) element;
       observer := observer m ++ [native_observe element] |}
  else m.

Definition unobserve (element : Node) (m : ManagedResizeObserver)
  : ManagedResizeObserver :=
  if has (observedElements m) element then
    {| observedElements := delete (observedElements m) element;
       observer := observer m ++ [native_unobserve element] |}
  else m.

Definition disconnect (m : ManagedResizeObserver) : ManagedResizeObserver :=
  {| observedElements := []; observer := observer m ++ [native_disconnect] |}.

Inductive Op := Observe (el : Node) | Unobserve (el : Node) | Disconnect.

Definition apply (m : ManagedResizeObserver) (op : Op) : ManagedResizeObserver :=
  match op with
  | Observe el => observe el m
  | Unobserve el => unobserve el m
  | Disconnect => disconnect m
  end.

End Resize.

(** ** [ManagedMutationObserver] *)

Module Mutations.

(** The wrapper, with the elements its callback has been called with. *)
Record ManagedMutationObserver := {
  observedElements : JSSet;
  observer : list NativeCall;
  called : list Node;
}.

Definition constructor : ManagedMutationObserver :=
  {| observedElements := []; observer := []; called := [] |}.

(** [this.callback(addedNode)] *)
Definition callback (node : Node) (m : ManagedMutationObserver)
  : ManagedMutationObserver :=
  {| observedElements := observedElements m; observer := observer m;
     called := called m ++ [node] |}.

Definition handleMutations (mutationsList : list MutationRecord)
  (m : ManagedMutationObserver) : ManagedMutationObserver :=
  foldl (λ m mutation,
           if bool_decide (type mutation = childList)
              && negb (Nat.eqb (length (addedNodes mutation)) 0)
           then foldl (λ m addedNode,
                         if isElement addedNode then callback addedNode m else m)
                  m (addedNodes mutation)
           else m)
        m mutationsList.

Definition observe (element : Node) (m : ManagedMutationObserver)
  : ManagedMutationObserver :=
  if negb (has (observedElements m) element) then
    {| observedElements := add (observedElements m) element;
       observer := observer m ++ [native_observe element];
       called := called m |}
  else m.

Definition unobserve (element : Node) (m : ManagedMutationObserver)
  : ManagedMutationObserver :=
  if has (observedElements m) element then
    let remaining := delete (observedElements m) element in
    {| observedElements := remaining;
       observer := foldl (λ calls elem, calls ++ [native_observe elem])
                     (observer m ++ [native_disconnect]) remaining;
       called := called m |}
  else m.

Definition disconnect (m : ManagedMutationObserver) : ManagedMutationObserver :=
  {| observedElements := []; observer := observer m ++ [native_disconnect];
     called := called m |}.

Inductive Op := Observe (el : Node) | Unobserve (el : Node) | Disconnect.

Definition apply (m : ManagedMutationObserver) (op : Op) : ManagedMutationObserver :=
  match op with
  | Observe el => observe el m
  | Unobserve el => unobserve el m
  | Disconnect => disconnect m
  end.

End Mutations.

End Managed.

(** * Properties of the managed observers *)

Module ManagedFacts.
Import Mutation Managed.

Lemma has_true (s : JSSet) x : has s x = true ↔ x ∈ s.
Proof. unfold has. apply bool_decide_eq_true. Qed.

Lemma has_false (s : JSSet) x : has s x = false ↔ x ∉ s.
Proof. unfold has. apply bool_decide_eq_false. Qed.

Lemma delete_absent (s : JSSet) x : x ∉ s → delete s x = s.
Proof.
  unfold delete. induction s as [|y s IH]; intros Hx; [done|].
  rewrite not_elem_of_cons in Hx. destruct Hx as [Hne Hx].
  rewrite filter_cons_True by congruence. by rewrite IH.
Qed.

Lemma delete_snoc (s : JSSet) x : x ∉ s → delete (s ++ [x]) x = s.
Proof.
  intros Hx. unfold delete. rewrite filter_app.
  fold (delete s x). rewrite delete_absent by done.
  rewrite filter_cons_False, filter_nil by (intros H; by apply H).
  by rewrite app_nil_r.
Qed.

Lemma not_in_delete (s : JSSet) x : x ∉ delete s x.
Proof. unfold delete. rewrite list_elem_of_filter. by intros [? _]. Qed.

Lemma NoDup_delete (s : JSSet) x : NoDup s → NoDup (delete s x).
Proof. apply NoDup_filter. Qed.

Lemma to_set_delete (s : JSSet) x :
  list_to_set (C := gset Node) (delete s x) = list_to_set s ∖ {[x]}.
Proof.
  apply set_eq. intros y. unfold delete.
  rewrite elem_of_difference, !elem_of_list_to_set, list_elem_of_filter,
    elem_of_singleton. tauto.
Qed.

Lemma nativeTargets_snoc calls c :
  nativeTargets (calls ++ [c]) = nativeStep (nativeTargets calls) c.
Proof. unfold nativeTargets. by rewrite foldl_app. Qed.

Lemma repeatedObserves_snoc targets calls c :
  repeatedObserves targets (calls ++ [c]) =
  (repeatedObserves targets calls +
   repeatedObserves (foldl nativeStep targets calls) [c])%nat.
Proof.
  revert targets. induction calls as [|c0 calls IH]; intros targets; simpl.
  - done.
  - rewrite IH. simpl. lia.
Qed.

(** What both wrappers keep: the set has no duplicate, the native observer
    watches exactly the elements of the set, and no [observe] call was
    made on a target already watched. *)
Definition inSync (observed : JSSet) (calls : list NativeCall) : Prop :=
  NoDup observed ∧ nativeTargets calls = list_to_set observed ∧
  repeatedObserves ∅ calls = 0%nat.

Lemma inSync_observe observed calls el :
  el ∉ observed → inSync observed calls →
  inSync (observed ++ [el]) (calls ++ [native_observe el]).
Proof.
  intros Hel (Hnd & Ht & Hr). repeat split.
  - apply NoDup_app. split; [done|]. split; [|apply NoDup_singleton].
    intros x Hx Hx'. apply list_elem_of_singleton in Hx'. by subst.
  - rewrite nativeTargets_snoc, Ht. simpl. apply set_eq. intros y.
    rewrite list_to_set_app, !elem_of_union, list_to_set_singleton. tauto.
  - rewrite repeatedObserves_snoc, Hr. simpl.
    fold (nativeTargets calls). rewrite Ht.
    rewrite bool_decide_eq_false_2; [done|].
    by rewrite elem_of_list_to_set.
Qed.

Lemma inSync_observes calls remaining done_ :
  NoDup (done_ ++ remaining) → inSync done_ calls →
  inSync (done_ ++ remaining)
    (foldl (λ calls elem, calls ++ [native_observe elem]) calls remaining).
Proof.
  revert calls done_. induction remaining as [|x remaining IH];
    intros calls done_ Hnd Hs; simpl.
  - by rewrite app_nil_r.
  - replace (done_ ++ x :: remaining) with ((done_ ++ [x]) ++ remaining)
      in * by (by rewrite <- app_assoc).
    apply IH; [done|]. apply inSync_observe; [|done].
    apply NoDup_app in Hnd as (Hnd & _ & _).
    apply NoDup_app in Hnd as (_ & Hd & _).
    intros Hx. apply (Hd x Hx). left.
Qed.

Lemma inSync_disconnect observed calls :
  inSync observed calls → inSync [] (calls ++ [native_disconnect]).
Proof.
  intros (_ & _ & Hr). repeat split.
  - apply NoDup_nil_2.
  - by rewrite nativeTargets_snoc.
  - rewrite repeatedObserves_snoc, Hr. done.
Qed.

(** X4. [ManagedResizeObserver]: after any sequence of [observe],
    [unobserve] and [disconnect] calls, the native observer watches exactly
    the elements of [observedElements], each of them once: no native
    [observe] call is ever made for an element already watched. *)
Theorem resize_in_sync (ops : list Resize.Op) :
  let m := foldl Resize.apply Resize.constructor ops in
  NoDup (Resize.observedElements m) ∧
  nativeTargets (Resize.observer m) = list_to_set (Resize.observedElements m) ∧
  repeatedObserves ∅ (Resize.observer m) = 0%nat.
Proof.
  assert (Hgen : ∀ m, inSync (Resize.observedElements m) (Resize.observer m) →
            inSync (Resize.observedElements (foldl Resize.apply m ops))
                   (Resize.observer (foldl Resize.apply m ops))).
  { induction ops as [|op ops IH]; intros m Hm; [done|].
    simpl. apply IH. destruct op as [el|el|]; simpl.
    - unfold Resize.observe, add.
      destruct (has _ el) eqn:Hh; simpl; [done|].
      apply inSync_observe; [by apply has_false | done].
    - unfold Resize.unobserve.
      destruct (has _ el) eqn:Hh; simpl; [|done].
      destruct Hm as (Hnd & Ht & Hr). repeat split.
      + by apply NoDup_delete.
      + rewrite nativeTargets_snoc, Ht. simpl. by rewrite to_set_delete.
      + rewrite repeatedObserves_snoc, Hr. done.
    - by apply (inSync_disconnect (Resize.observedElements m)). }
  apply Hgen. repeat split. apply NoDup_nil_2.
Qed.

(** X5. [ManagedMutationObserver]: after any sequence of [observe],
    [unobserve] and [disconnect] calls, the native observer watches exactly
    the elements of [observedElements].  [unobserve] of a watched element
    disconnects the native observer and observes every remaining element
    again, so the others stay watched, and no element is observed twice
    without a disconnect in between. *)
Theorem mutation_in_sync (ops : list Mutations.Op) :
  let m := foldl Mutations.apply Mutations.constructor ops in
  NoDup (Mutations.observedElements m) ∧
  nativeTargets (Mutations.observer m)
    = list_to_set (Mutations.observedElements m) ∧
  repeatedObserves ∅ (Mutations.observer m) = 0%nat.
Proof.
  assert (Hgen : ∀ m,
            inSync (Mutations.observedElements m) (Mutations.observer m) →
            inSync (Mutations.observedElements (foldl Mutations.apply m ops))
                   (Mutations.observer (foldl Mutations.apply m ops))).
  { induction ops as [|op ops IH]; intros m Hm; [done|].
    simpl. apply IH. destruct op as [el|el|]; simpl.
    - unfold Mutations.observe, add.
      destruct (has _ el) eqn:Hh; simpl; [done|].
      apply inSync_observe; [by apply has_false | done].
    - unfold Mutations.unobserve.
      destruct (has _ el) eqn:Hh; simpl; [|done].
      apply (inSync_observes _ _ []).
      + apply NoDup_delete, Hm.
      + by apply (inSync_disconnect (Mutations.observedElements m)).
    - by apply (inSync_disconnect (Mutations.observedElements m)). }
  apply Hgen. repeat split. apply NoDup_nil_2.
Qed.

(** X6. On both wrappers [observe] and [unobserve] are idempotent, and
    [unobserve] undoes an [observe] of an element that was not observed:
    the set of observed elements is what it was before. *)
Theorem observe_unobserve_round_trip (element : Node) :
  (∀ m, Resize.observe element (Resize.observe element m)
        = Resize.observe element m) ∧
  (∀ m, Resize.unobserve element (Resize.unobserve element m)
        = Resize.unobserve element m) ∧
  (∀ m, has (Resize.observedElements m) element = false →
        Resize.observedElements
          (Resize.unobserve element (Resize.observe element m))
        = Resize.observedElements m) ∧
  (∀ m, Mutations.observe element (Mutations.observe element m)
        = Mutations.observe element m) ∧
  (∀ m, Mutations.unobserve element (Mutations.unobserve element m)
        = Mutations.unobserve element m) ∧
  (∀ m, has (Mutations.observedElements m) element = false →
        Mutations.observedElements
          (Mutations.unobserve element (Mutations.observe element m))
        = Mutations.observedElements m).
Proof.
  assert (Hadd : ∀ s, has s element = false → has (s ++ [element]) element = true).
  { intros s _. apply has_true, elem_of_app. right. left. }
  assert (Hdel : ∀ s, has (delete s element) element = false).
  { intros s. apply has_false, not_in_delete. }
  repeat split; intros m.
  - unfold Resize.observe.
    destruct (has (Resize.observedElements m) element) eqn:Hh; simpl;
      [by rewrite Hh|].
    unfold add. rewrite Hh. by rewrite Hadd.
  - unfold Resize.unobserve.
    destruct (has (Resize.observedElements m) element) eqn:Hh; simpl;
      [by rewrite Hdel | by rewrite Hh].
  - intros Hh. unfold Resize.unobserve, Resize.observe, add. rewrite Hh. simpl.
    rewrite Hadd by done. simpl. apply delete_snoc. by apply has_false.
  - unfold Mutations.observe.
    destruct (has (Mutations.observedElements m) element) eqn:Hh; simpl;
      [by rewrite Hh|].
    unfold add. rewrite Hh. by rewrite Hadd.
  - unfold Mutations.unobserve.
    destruct (has (Mutations.observedElements m) element) eqn:Hh; simpl;
      [by rewrite Hdel | by rewrite Hh].
  - intros Hh. unfold Mutations.unobserve, Mutations.observe, add.
    rewrite Hh. simpl.
    rewrite Hadd by done. simpl. apply delete_snoc. by apply has_false.
Qed.

(** X7. The handler of [ManagedMutationObserver] calls the callback once
    for every added node of a [childList] record that is an [HTMLElement]
    or an [SVGElement], in the order of the records; removed nodes, other
    nodes and records of another type never reach it, and the handler
    changes nothing else. *)
Theorem managed_handler_calls (mutationsList : list MutationRecord)
  (m : Mutations.ManagedMutationObserver) :
  let m' := Mutations.handleMutations mutationsList m in
  Mutations.called m' =
    Mutations.called m ++
    filter (λ n, isElement n = true)
      (mutationsList ≫= λ r,
         if bool_decide (type r = childList) then addedNodes r else []) ∧
  Mutations.observedElements m' = Mutations.observedElements m ∧
  Mutations.observer m' = Mutations.observer m.
Proof.
  assert (Hnodes : ∀ nodes m0,
    let m1 := foldl (λ m addedNode,
                if isElement addedNode then Mutations.callback addedNode m else m)
                m0 nodes in
    Mutations.called m1 =
      Mutations.called m0 ++ filter (λ n, isElement n = true) nodes ∧
    Mutations.observedElements m1 = Mutations.observedElements m0 ∧
    Mutations.observer m1 = Mutations.observer m0).
  { induction nodes as [|n nodes IH]; intros m0; simpl.
    - by rewrite app_nil_r.
    - destruct (isElement n) eqn:Hn.
      + destruct (IH (Mutations.callback n m0)) as (H1 & H2 & H3).
        rewrite H1, H2, H3. rewrite filter_cons_True by done.
        simpl. by rewrite <- app_assoc.
      + destruct (IH m0) as (H1 & H2 & H3).
        rewrite H1, H2, H3. by rewrite filter_cons_False by congruence. }
  unfold Mutations.handleMutations. revert m.
  induction mutationsList as [|r rs IH]; intros m; simpl.
  - by rewrite app_nil_r.
  - match goal with |- context [foldl _ ?m1 rs] =>
      destruct (IH m1) as (H1 & H2 & H3) end.
    rewrite H1, H2, H3. clear H1 H2 H3 IH.
    rewrite filter_app.
    destruct (bool_decide (type r = childList)); simpl.
    + destruct (Nat.eqb (length (addedNodes r)) 0) eqn:Hlen; simpl.
      * apply Nat.eqb_eq, nil_length_inv in Hlen. rewrite Hlen. done.
      * destruct (Hnodes (addedNodes r) m) as (H1 & H2 & H3).
        rewrite H1, H2, H3. by rewrite <- app_assoc.
    + done.
Qed.

End ManagedFacts.

(** * More on the mutation-observer registry *)

Module MutationMore.
Import Mutation MutationFacts.

Lemma set_confirmed_absent (info : ObserverInfo) (el : Node) :
  el ∉ confirmedElements info → set_confirmed (λ c, c ∖ {[el]}) info = info.
Proof.
  intros Hel. destruct info as [c o]. unfold set_confirmed. simpl in *.
  f_equal. apply set_eq. intros x.
  rewrite elem_of_difference, elem_of_singleton. split; [tauto|].
  intros Hx. split; [done|]. by intros ->.
Qed.

Lemma update_info_id l f s :
  (∀ info, infos s !! l = Some info → f info = info) → update_info l f s = s.
Proof.
  intros Hf. destruct s as [o i d]. unfold update_info. simpl in *. f_equal.
  apply list_eq. intros k. rewrite list_lookup_alter. case_decide; [subst|done].
  destruct (i !! k) as [info|] eqn:Hk; [|done]. simpl. by rewrite Hf.
Qed.

(** X8. A batch that only adds nodes which are not elements or are already
    confirmed, and only removes nodes which are not elements or are not
    confirmed, leaves the registry as it is: the callback is not called,
    nothing is dispatched and the watcher stays connected. *)
Theorem inert_batch (l : nat) (info : ObserverInfo)
  (mutationsList : list MutationRecord) (s : Registry) :
  infos s !! l = Some info →
  (∀ m n, m ∈ mutationsList → n ∈ addedNodes m →
          isElement n = false ∨ n ∈ confirmedElements info) →
  (∀ m n, m ∈ mutationsList → n ∈ removedNodes m →
          isElement n = false ∨ n ∉ confirmedElements info) →
  handleMutations l mutationsList s = s.
Proof.
  intros Hl Hadd Hrem. unfold handleMutations.
  induction mutationsList as [|m ms IH]; [done|].
  assert (Hm : handleMutation l s m = s).
  { unfold handleMutation. destruct (type m); try done.
    assert (Ha : foldl (λ s' n, onAdded l n s') s (addedNodes m) = s).
    { assert (Hnodes : ∀ n, n ∈ addedNodes m →
                isElement n = false ∨ n ∈ confirmedElements info)
        by (intros n Hn; apply (Hadd m); [left | done]).
      induction (addedNodes m) as [|n nodes IHn]; [done|].
      simpl. assert (Hn : onAdded l n s = s).
      { unfold onAdded. destruct (Hnodes n) as [->| Hin]; [left|done|].
        destruct (isElement n); [|done]. rewrite Hl. by rewrite decide_True. }
      rewrite Hn. apply IHn. intros n' Hn'. apply Hnodes. by right. }
    rewrite Ha.
    assert (Hnodes : ∀ n, n ∈ removedNodes m →
              isElement n = false ∨ n ∉ confirmedElements info)
      by (intros n Hn; apply (Hrem m); [left | done]).
    induction (removedNodes m) as [|n nodes IHn]; [done|].
    simpl. assert (Hn : onRemoved l n s = s).
    { unfold onRemoved. destruct (Hnodes n) as [->| Hin]; [left|done|].
      destruct (isElement n); [|done]. rewrite Hl. by rewrite decide_False. }
    rewrite Hn. apply IHn. intros n' Hn'. apply Hnodes. by right. }
  simpl. rewrite Hm. apply IH.
  - intros m' n Hm'. apply Hadd. by right.
  - intros m' n Hm'. apply Hrem. by right.
Qed.

(** Witness for X8: a text node and a never-confirmed element. *)
Lemma inert_batch_witness :
  handleMutations 0
    [{| type := childList; addedNodes := [OtherNode 7];
        removedNodes := [HTMLElement 5] |}]
    (sampleRegistry false) = sampleRegistry false.
Proof.
  apply (inert_batch 0 (sampleInfo false)).
  - reflexivity.
  - intros m n Hm Hn. apply list_elem_of_singleton in Hm. subst m.
    apply list_elem_of_singleton in Hn. subst n. by left.
  - intros m n Hm Hn. right. apply not_elem_of_empty.
Defined.

(** The callback passed [el] to [confirm] for an element node some
    [childList] record of the batch adds. *)
Definition offered (cb : CustomCallback) (ms : list MutationRecord)
  (el : Node) : Prop :=
  ∃ m node, m ∈ ms ∧ type m = childList ∧ node ∈ addedNodes m ∧
            isElement node = true ∧ el ∈ cb node.

(** What a notification of a batch must satisfy. *)
Definition justified (info : ObserverInfo) (ms : list MutationRecord)
  (n : Notification) : Prop :=
  target n = observeElement (observer info) ∧
  match detail_type n with
  | added => offered (callback (observer info)) ms (detail_element n)
  | deleted =>
      isElement (detail_element n) = true ∧
      (∃ m, m ∈ ms ∧ detail_element n ∈ removedNodes m) ∧
      (detail_element n ∈ confirmedElements info ∨
       offered (callback (observer info)) ms (detail_element n))
  end.

Section Justified.

Variable l : nat.
Variable info : ObserverInfo.
Variable ms : list MutationRecord.
Variable s0 : Registry.

Definition sound (s : Registry) : Prop :=
  ∃ info' new,
    infos s !! l = Some info' ∧ sameClosure info info' ∧
    (∀ el, el ∈ confirmedElements info' →
           el ∈ confirmedElements info ∨
           offered (callback (observer info)) ms el) ∧
    dispatched s = dispatched s0 ++ new ∧
    ∀ n, n ∈ new → justified info ms n.

Lemma sound_confirm el s :
  offered (callback (observer info)) ms el →
  sound s → sound (confirm l (observeElement (observer info)) el s).
Proof.
  intros Hoff (info' & new & Hl & Hc & Hconf & Hd & Hnew).
  exists (set_confirmed (λ c, {[el]} ∪ c) info'),
         (new ++ [{| target := observeElement (observer info);
                     detail_type := added; detail_element := el |}]).
  split; [simpl; by rewrite list_lookup_alter_eq, Hl|].
  split; [exact Hc|]. split.
  - intros x. simpl. rewrite elem_of_union, elem_of_singleton.
    intros [->|Hx]; [by right | by apply Hconf].
  - split; [simpl; by rewrite Hd, app_assoc|].
    intros n Hn. apply elem_of_app in Hn as [Hn|Hn]; [by apply Hnew|].
    apply list_elem_of_singleton in Hn. subst n. by split.
Qed.

Lemma sound_onAdded m node s :
  m ∈ ms → type m = childList → node ∈ addedNodes m →
  sound s → sound (onAdded l node s).
Proof.
  intros Hm Hty Hnode Hs. unfold onAdded.
  destruct (isElement node) eqn:Hel; [|done].
  pose proof Hs as (info' & new & Hl & Hc & _). rewrite Hl.
  case_decide; [done|].
  destruct Hc as (Hcb & _ & Hroot). rewrite Hroot.
  assert (Hall : ∀ el, el ∈ callback (observer info') node →
                       offered (callback (observer info)) ms el).
  { intros el Hin. exists m, node. rewrite <- Hcb. done. }
  clear Hl. revert s Hs Hall.
  induction (callback (observer info') node) as [|el els IH]; intros s Hs Hall;
    [done|].
  simpl. apply IH.
  - apply sound_confirm; [|done]. apply Hall. left.
  - intros el' Hel'. apply Hall. by right.
Qed.

Lemma sound_onRemoved m node s :
  m ∈ ms → node ∈ removedNodes m → sound s → sound (onRemoved l node s).
Proof.
  intros Hm Hnode Hs. unfold onRemoved.
  destruct (isElement node) eqn:Hel; [|done].
  pose proof Hs as (info' & new & Hl & Hc & Hconf & Hd & Hnew). rewrite Hl.
  case_decide as Hin; [|done].
  pose proof Hc as (_ & _ & Hroot).
  assert (Hgoal : ∀ f, (∀ i, confirmedElements (f i) = confirmedElements i) →
            (∀ i, sameClosure i (f i)) →
            sound (update_info l f
              (triggerEvent (observeElement (observer info')) deleted node
                 (update_info l (set_confirmed (λ c, c ∖ {[node]})) s)))).
  { intros f Hf1 Hf2.
    exists (f (set_confirmed (λ c, c ∖ {[node]}) info')),
           (new ++ [{| target := observeElement (observer info');
                       detail_type := deleted; detail_element := node |}]).
    split; [simpl; by rewrite !list_lookup_alter_eq, Hl|].
    split; [eapply sameClosure_trans; [exact Hc|];
            eapply sameClosure_trans; [|apply Hf2]; by repeat split|].
    split.
    - intros x. rewrite Hf1. simpl. rewrite elem_of_difference.
      intros [Hx _]. by apply Hconf.
    - split; [simpl; by rewrite Hd, app_assoc|].
      intros n Hn. apply elem_of_app in Hn as [Hn|Hn]; [by apply Hnew|].
      apply list_elem_of_singleton in Hn. subst n. split; [done|]. simpl.
      split; [done|]. split; [by exists m | by apply Hconf]. }
  destruct (autoUnobserve (observer info')).
  - apply Hgoal; [done|]. intros i. by repeat split.
  - specialize (Hgoal (λ i, i)). rewrite update_info_id in Hgoal by done.
    apply Hgoal; [done|]. intros i. apply sameClosure_refl.
Qed.

Lemma sound_batch (batch : list MutationRecord) s :
  (∀ m, m ∈ batch → m ∈ ms) → sound s → sound (handleMutations l batch s).
Proof.
  unfold handleMutations. revert s.
  induction batch as [|m batch IH]; intros s Hsub Hs; [done|].
  simpl. apply IH; [intros m' Hm'; apply Hsub; by right|].
  assert (Hm : m ∈ ms) by (apply Hsub; left).
  unfold handleMutation. destruct (type m) eqn:Hty; try done.
  assert (Ha : sound (foldl (λ s' n, onAdded l n s') s (addedNodes m))).
  { assert (Hall : ∀ n, n ∈ addedNodes m → n ∈ addedNodes m) by done.
    revert s Hs Hall. generalize (addedNodes m) at 1 3.
    induction l0 as [|n nodes IHn]; intros s Hs Hall; [done|].
    simpl. apply IHn; [|intros n' Hn'; apply Hall; by right].
    apply (sound_onAdded m); [done | done | apply Hall; left | done]. }
  assert (Hall : ∀ n, n ∈ removedNodes m → n ∈ removedNodes m) by done.
  revert Ha Hall. generalize (foldl (λ s' n, onAdded l n s') s (addedNodes m)).
  generalize (removedNodes m) at 1 3.
  induction l0 as [|n nodes IHn]; intros s' Hs' Hall; [done|].
  simpl. apply IHn; [|intros n' Hn'; apply Hall; by right].
  apply (sound_onRemoved m); [done | apply Hall; left | done].
Qed.

End Justified.

(** X9. The handler only notifies about accepted elements.  Every event a
    batch dispatches goes to the root of the entry; an ['added'] event
    names an element the callback passed to [confirm] for an element node
    the batch adds; a ['deleted'] event names an element node the batch
    removes that was confirmed before the batch or accepted during it.
    The confirmed set only grows by accepted elements. *)
Theorem notifications_only_for_accepted (l : nat) (info : ObserverInfo)
  (mutationsList : list MutationRecord) (s : Registry) :
  infos s !! l = Some info →
  ∃ new,
    dispatched (handleMutations l mutationsList s) = dispatched s ++ new ∧
    (∀ n, n ∈ new → justified info mutationsList n) ∧
    (∀ el, el ∈ confirmedAt l (handleMutations l mutationsList s) →
           el ∈ confirmedElements info ∨
           offered (callback (observer info)) mutationsList el).
Proof.
  intros Hl.
  destruct (sound_batch l info mutationsList s mutationsList s)
    as (info' & new & Hl' & _ & Hconf & Hd & Hnew).
  - done.
  - exists info, []. split; [done|]. split; [apply sameClosure_refl|].
    split; [by left|]. split; [by rewrite app_nil_r|].
    intros n Hn. by inversion Hn.
  - exists new. split; [done|]. split; [done|].
    unfold confirmedAt. rewrite Hl'. done.
Qed.

(** Witness for X9: the callback accepts every added element. *)
Lemma notifications_only_for_accepted_witness :
  let s := (MutationObserverHelper (λ n, [n])
              (optionsFor (HTMLElement 1) None) empty).2 in
  let batch := [{| type := childList;
                   addedNodes := [HTMLElement 5; OtherNode 6];
                   removedNodes := [HTMLElement 5] |}] in
  ∃ new,
    dispatched (handleMutations 0 batch s) = dispatched s ++ new ∧
    length new = 2%nat.
Proof.
  intros s batch.
  destruct (notifications_only_for_accepted 0
              {| confirmedElements := ∅;
                 observer := {| callback := λ n, [n]; autoUnobserve := false;
                                observeElement := HTMLElement 1;
                                connected := true |} |}
              batch s eq_refl) as (new & Hd & _).
  exists new. split; [exact Hd|].
  apply (f_equal length) in Hd. rewrite length_app in Hd.
  vm_compute in Hd. vm_compute. lia.
Defined.

(** X10. [unobserve(element)] is idempotent; for an element that is not
    confirmed it changes nothing; and afterwards a batch that removes the
    element (without the callback accepting it anew) dispatches no
    ['deleted'] event for it. *)
Theorem unobserve_element_silences (h : Handle) (info : ObserverInfo)
  (E : Node) (mutationsList : list MutationRecord) (s : Registry) :
  infos s !! h_observerInfo h = Some info →
  notReconfirmed (callback (observer info)) E mutationsList →
  let s1 := unobserve h (Some E) s in
  unobserve h (Some E) s1 = s1 ∧
  (E ∉ confirmedElements info → s1 = s) ∧
  (E ∉ confirmedAt (h_observerInfo h) s1) ∧
  deletedCount E (handleMutations (h_observerInfo h) mutationsList s1)
  = deletedCount E s.
Proof.
  intros Hl Hn s1.
  assert (Hl1 : infos s1 !! h_observerInfo h
                = Some (set_confirmed (λ c, c ∖ {[E]}) info)).
  { unfold s1, unobserve. simpl. by rewrite list_lookup_alter_eq, Hl. }
  assert (Hnot : E ∉ confirmedElements (set_confirmed (λ c, c ∖ {[E]}) info)).
  { simpl. rewrite elem_of_difference, elem_of_singleton. tauto. }
  repeat split.
  - unfold unobserve at 1. apply update_info_id. intros i Hi.
    rewrite Hl1 in Hi. injection Hi as <-. by apply set_confirmed_absent.
  - intros HE. unfold s1, unobserve. apply update_info_id. intros i Hi.
    rewrite Hl in Hi. injection Hi as <-. by apply set_confirmed_absent.
  - unfold confirmedAt. by rewrite Hl1.
  - pose proof (Cell_init (h_observerInfo h) E _ s1 Hl1) as C0.
    rewrite bool_decide_eq_false_2 in C0 by done.
    apply (Cell_batch_unarmed _ _ _ mutationsList) in C0; [|exact Hn].
    destruct (Cell_observe _ _ _ _ _ _ _ C0) as (_ & K & _). exact K.
Qed.

(** Witness for X10. *)
Lemma unobserve_element_silences_witness :
  let h := {| h_observeElement := HTMLElement 1; h_observerInfo := 0 |} in
  let E := HTMLElement 5 in
  let s := confirm 0 (HTMLElement 1) E (sampleRegistry false) in
  let s1 := unobserve h (Some E) s in
  unobserve h (Some E) s1 = s1 ∧
  (E ∉ confirmedElements
         (set_confirmed (λ c, {[E]} ∪ c) (sampleInfo false)) → s1 = s) ∧
  (E ∉ confirmedAt 0 s1) ∧
  deletedCount E (handleMutations 0 sampleBatch s1) = deletedCount E s.
Proof.
  apply (unobserve_element_silences
           {| h_observeElement := HTMLElement 1; h_observerInfo := 0 |}
           (set_confirmed (λ c, {[HTMLElement 5]} ∪ c) (sampleInfo false))
           (HTMLElement 5) sampleBatch
           (confirm 0 (HTMLElement 1) (HTMLElement 5) (sampleRegistry false))).
  - reflexivity.
  - exact sampleBatch_notReconfirmed.
Defined.

(** The entry at [l] aside, the registry is the same, and a disconnected
    watcher at [l] is still disconnected. *)
Definition keeps (l : nat) (s s' : Registry) : Prop :=
  observers s' = observers s ∧
  length (infos s') = length (infos s) ∧
  (∀ l', l' ≠ l → infos s' !! l' = infos s !! l') ∧
  (connectedAt l s = false → connectedAt l s' = false).

Lemma keeps_refl l s : keeps l s s.
Proof. by repeat split. Qed.

Lemma keeps_trans l s1 s2 s3 : keeps l s1 s2 → keeps l s2 s3 → keeps l s1 s3.
Proof.
  intros (A1 & A2 & A3 & A4) (B1 & B2 & B3 & B4).
  repeat split; [congruence | congruence | | by auto].
  intros l' Hl'. by rewrite B3, A3.
Qed.

Lemma keeps_update l f s :
  (∀ i, connected (observer i) = false → connected (observer (f i)) = false) →
  keeps l s (update_info l f s).
Proof.
  intros Hf. repeat split; simpl.
  - apply length_alter.
  - intros l' Hl'. by rewrite list_lookup_alter_ne.
  - unfold connectedAt. simpl. rewrite list_lookup_alter_eq.
    destruct (infos s !! l); simpl; [apply Hf | done].
Qed.

Lemma keeps_foldl {A} l (f : Registry → A → Registry) (xs : list A) s :
  (∀ x s, keeps l s (f s x)) → keeps l s (foldl f s xs).
Proof.
  intros Hf. revert s. induction xs as [|x xs IH]; intros s; [apply keeps_refl|].
  simpl. eapply keeps_trans; [apply Hf | apply IH].
Qed.

Lemma keeps_confirm l root el s : keeps l s (confirm l root el s).
Proof.
  unfold confirm.
  apply (keeps_trans l s (update_info l (set_confirmed (λ c, {[el]} ∪ c)) s)).
  - by apply keeps_update.
  - by repeat split.
Qed.

Lemma keeps_onAdded l n s : keeps l s (onAdded l n s).
Proof.
  unfold onAdded. destruct (isElement n); [|apply keeps_refl].
  destruct (infos s !! l) as [info|]; [|apply keeps_refl].
  case_decide; [apply keeps_refl|].
  apply keeps_foldl. intros. apply keeps_confirm.
Qed.

Lemma keeps_onRemoved l n s : keeps l s (onRemoved l n s).
Proof.
  unfold onRemoved. destruct (isElement n); [|apply keeps_refl].
  destruct (infos s !! l) as [info|]; [|apply keeps_refl].
  case_decide; [|apply keeps_refl].
  assert (H1 : keeps l s (triggerEvent (observeElement (observer info)) deleted n
                 (update_info l (set_confirmed (λ c, c ∖ {[n]})) s))).
  { apply (keeps_trans l s (update_info l (set_confirmed (λ c, c ∖ {[n]})) s)).
    - by apply keeps_update.
    - by repeat split. }
  destruct (autoUnobserve (observer info)); [|done].
  eapply keeps_trans; [exact H1|]. by apply keeps_update.
Qed.

(** X11. A batch handled for one entry changes that entry alone: the
    registry map, the number of entries and every other entry stay as they
    were, and whatever the batch holds the handler never reconnects a
    watcher. *)
Theorem handler_frame (l : nat) (mutationsList : list MutationRecord)
  (s : Registry) :
  let s' := handleMutations l mutationsList s in
  observers s' = observers s ∧
  length (infos s') = length (infos s) ∧
  (∀ l', l' ≠ l → infos s' !! l' = infos s !! l') ∧
  (connectedAt l s = false → connectedAt l s' = false).
Proof.
  change (keeps l s (handleMutations l mutationsList s)).
  unfold handleMutations. apply keeps_foldl. intros m s1.
  unfold handleMutation. destruct (type m); try apply keeps_refl.
  apply (keeps_trans l s1 (foldl (λ s' n, onAdded l n s') s1 (addedNodes m))).
  - apply keeps_foldl. intros. apply keeps_onAdded.
  - apply keeps_foldl. intros. apply keeps_onRemoved.
Qed.

(** X12. A handle outlives its entry.  A subscribes to a root without an
    entry and unobserves; B subscribes and gets a new entry with a watcher
    of its own; A's stale handle unobserves again.  This deletes B's entry
    from the registry but leaves B's watcher connected, so a third
    subscriber C gets yet another watcher: two connected watchers now
    observe the same root, and B's can no longer be found in the registry. *)
Theorem stale_handle_orphans_watcher (R : Node) (cbA cbB cbC : CustomCallback)
  (auA auB auC : option bool) (s : Registry) :
  observers s !! R = None →
  let a := MutationObserverHelper cbA (optionsFor R auA) s in
  let s1 := unobserve a.1 None a.2 in
  let b := MutationObserverHelper cbB (optionsFor R auB) s1 in
  let s2 := unobserve a.1 None b.2 in
  let c := MutationObserverHelper cbC (optionsFor R auC) s2 in
  h_observerInfo b.1 ≠ h_observerInfo a.1 ∧
  h_observerInfo c.1 ≠ h_observerInfo b.1 ∧
  observers s2 !! R = None ∧
  connectedAt (h_observerInfo b.1) c.2 = true ∧
  connectedAt (h_observerInfo c.1) c.2 = true ∧
  (observeElement ∘ observer <$> infos c.2 !! h_observerInfo b.1) = Some R ∧
  (observeElement ∘ observer <$> infos c.2 !! h_observerInfo c.1) = Some R ∧
  nativeObservers c.2 = (nativeObservers s + 3)%nat.
Proof.
  intros Hnone a s1 b s2 c.
  destruct (subscribe_fresh cbA (optionsFor R auA) s Hnone)
    as (Al & Ar & Ao & Ai & _). fold a in Al, Ar, Ao, Ai. simpl in Ar, Ao.
  assert (Hs1o : observers s1 !! R = None).
  { unfold s1, unobserve. simpl. rewrite Ar. apply lookup_delete_eq. }
  assert (Hs1l : length (infos s1) = S (length (infos s))).
  { unfold s1, unobserve. simpl. rewrite length_alter, Ai, length_app. simpl. lia. }
  destruct (subscribe_fresh cbB (optionsFor R auB) s1 Hs1o)
    as (Bl & Br & Bo & Bi & _). fold b in Bl, Br, Bo, Bi. simpl in Br, Bo.
  assert (Hs2o : observers s2 !! R = None).
  { unfold s2, unobserve. simpl. rewrite Ar. apply lookup_delete_eq. }
  assert (Hs2i : infos s2 = alter (set_observer disconnect)
                              (h_observerInfo a.1) (infos b.2)) by done.
  assert (Hs2l : length (infos s2) = S (S (length (infos s)))).
  { rewrite Hs2i, length_alter, Bi, length_app, Hs1l. simpl. lia. }
  destruct (subscribe_fresh cbC (optionsFor R auC) s2 Hs2o)
    as (Cl & Cr & Co & Ci & _). fold c in Cl, Cr, Co, Ci. simpl in Cr, Co.
  assert (Hb : infos s2 !! h_observerInfo b.1 =
               Some {| confirmedElements := ∅;
                       observer := {| callback := cbB;
                                      autoUnobserve := default false auB;
                                      observeElement := R;
                                      connected := true |} |}).
  { rewrite Hs2i, list_lookup_alter_ne by lia.
    rewrite Bi, Bl. by rewrite list_lookup_middle. }
  assert (Hcb : infos c.2 !! h_observerInfo b.1 = infos s2 !! h_observerInfo b.1).
  { rewrite Ci. apply lookup_app_l. lia. }
  assert (Hcc : infos c.2 !! h_observerInfo c.1 =
               Some {| confirmedElements := ∅;
                       observer := {| callback := cbC;
                                      autoUnobserve := default false auC;
                                      observeElement := R;
                                      connected := true |} |}).
  { rewrite Ci, Cl. by rewrite list_lookup_middle. }
  repeat split.
  - lia.
  - lia.
  - exact Hs2o.
  - unfold connectedAt. by rewrite Hcb, Hb.
  - unfold connectedAt. by rewrite Hcc.
  - by rewrite Hcb, Hb.
  - by rewrite Hcc.
  - unfold nativeObservers. rewrite Ci, length_app, Hs2l. simpl. lia.
Qed.

(** Witness for X12 on the empty registry. *)
Lemma stale_handle_orphans_watcher_witness :
  let R := HTMLElement 1 in
  let a := MutationObserverHelper (λ _, []) (optionsFor R None) empty in
  let s1 := unobserve a.1 None a.2 in
  let b := MutationObserverHelper (λ _, []) (optionsFor R None) s1 in
  let s2 := unobserve a.1 None b.2 in
  let c := MutationObserverHelper (λ _, []) (optionsFor R None) s2 in
  h_observerInfo b.1 ≠ h_observerInfo a.1 ∧
  h_observerInfo c.1 ≠ h_observerInfo b.1 ∧
  observers s2 !! R = None ∧
  connectedAt (h_observerInfo b.1) c.2 = true ∧
  connectedAt (h_observerInfo c.1) c.2 = true ∧
  (observeElement ∘ observer <$> infos c.2 !! h_observerInfo b.1) = Some R ∧
  (observeElement ∘ observer <$> infos c.2 !! h_observerInfo c.1) = Some R ∧
  nativeObservers c.2 = (nativeObservers empty + 3)%nat.
Proof.
  apply (stale_handle_orphans_watcher (HTMLElement 1) (λ _, []) (λ _, [])
           (λ _, []) None None None empty).
  reflexivity.
Defined.

End MutationMore.

(** * More on the accordion widget *)

Module DetailsMore.
Import Details DetailsFacts.
Open Scope Z_scope.

Lemma onAnimationFinish_style i b w :
  (style_height <$> elements (onAnimationFinish i b w) !! i)
    = ((λ _, None) <$> elements w !! i) ∧
  (style_overflow <$> elements (onAnimationFinish i b w) !! i)
    = ((λ _, "") <$> elements w !! i).
Proof.
  unfold onAnimationFinish. simpl. rewrite !list_lookup_alter_eq.
  by destruct (elements w !! i).
Qed.

(** Closing an open section at rest, then letting the animation finish. *)
Lemma shrink_open_section w i d e instant :
  sound w → instances w !! i = Some d → elements w !! i = Some e →
  el_open e = true → animation d = None → runningOn i w = [] →
  style_height e = None →
  let w1 := shrink i instant w in
  let id := length (animations w) in
  let an := newAnimation i (summaryHeight e + contentHeight e) (summaryHeight e)
              instant ByShrink in
  animationOf i w1 = Some id ∧ animations w1 !! id = Some an ∧
  runningOn i w1 = (if instant then [] else [an]) ∧
  bool_decide (id ∈ finishEvents w1) = instant ∧
  frames w1 = frames w ∧
  let w2 := exec w1 (Finish id) in
  isOpen w2 i = false ∧ isVisible w2 i = false ∧ animationOf i w2 = None ∧
  (style_height <$> elements w2 !! i) = Some None ∧
  (style_overflow <$> elements w2 !! i) = Some "".
Proof.
  intros (_ & Hqd & _) Hd He Hopen Hnone Hr Hsty w1 id an.
  assert (Hoff : offsetHeight i w = summaryHeight e + contentHeight e).
  { rewrite (offsetHeight_idle w i e); [by rewrite Hsty, Hopen|done|done]. }
  destruct (shrink_spec i instant w d e Hd He) as (E1 & E2 & _ & E4 & E5).
  pose proof (shrink_finishEvents i instant w d e Hd He) as E6.
  fold w1 in E1, E2, E4, E5, E6. rewrite Hnone, Hoff in E4. simpl in E4.
  fold an in E4.
  assert (Hid : animations w1 !! id = Some an).
  { rewrite E4. by apply list_lookup_middle. }
  assert (Hq : bool_decide (id ∈ finishEvents w1) = instant).
  { rewrite E6. destruct instant.
    - apply bool_decide_eq_true_2, elem_of_app. right. left.
    - apply bool_decide_eq_false_2. rewrite app_nil_r. intros Hin.
      specialize (Hqd _ Hin). unfold id in Hqd. lia. }
  split; [unfold animationOf; by rewrite E5, lookup_insert_eq|].
  split; [exact Hid|].
  split.
  { rewrite (runningOn_started w w1 i an None Hr E4 eq_refl).
    by destruct instant. }
  split; [exact Hq|]. split; [exact E2|].
  assert (Haw : awaited w1 id an).
  { split; [done|]. destruct instant; [right|by left].
    split; [done|]. by apply bool_decide_eq_true in Hq. }
  cbv zeta.
  assert (Hw2 : exec w1 (Finish id) = onAnimationFinish i false (finished id w1)).
  { simpl. rewrite (finish_awaited w1 id an Haw).
    - by rewrite onfinish_unfold.
    - intros Hplay. destruct instant; [done|].
      by apply bool_decide_eq_false in Hq. }
  rewrite Hw2.
  destruct (onAnimationFinish_fields i false (finished id w1))
    as (_ & _ & _ & _ & _ & Hn & Ho).
  destruct (onAnimationFinish_style i false (finished id w1)) as [Hh Hov].
  assert (He1 : elements (finished id w1) !! i = Some e)
    by (simpl; by rewrite E1).
  rewrite Ho, onAnimationFinish_visible, Hh, Hov, He1. done.
Qed.

(** X13. An open section at rest (open flag set, no animation held, none
    playing, no inline height) is closed by a click on its summary or by
    [el.shrink(instant)].  A height animation from the expanded height
    (summary plus content) down to the summary height is created at once,
    without a frame callback.  With duration 300 it is the one animation
    playing on the section; with [instant] its duration is 0, it is
    finished when it is created, nothing plays on the section, and its
    finish event is queued.  When the animation's finish event is handled,
    the open flag and the class [visible] are cleared, the inline height
    and overflow are reset and the instance holds no animation. *)
Theorem close_open_section
  (w : World) (i : nat) (d : Instance) (e : Element) (instant : bool)
  (act : HostEvent) :
  reachable w →
  instances w !! i = Some d → elements w !! i = Some e →
  el_open e = true → isClosing d = false →
  animation d = None → runningOn i w = [] → style_height e = None →
  (act = Click i ∧ instant = false) ∨ act = CallShrink i instant →
  let w1 := exec w act in
  let id := length (animations w) in
  let an := {| a_target := i;
               a_from := summaryHeight e + contentHeight e;
               a_to := summaryHeight e;
               a_duration := if instant then 0 else 300;
               a_easing := "ease-in-out"; a_handlers := ByShrink;
               a_playState := if instant then Finished else Running;
               a_current := summaryHeight e + contentHeight e |} in
  animationOf i w1 = Some id ∧ animations w1 !! id = Some an ∧
  runningOn i w1 = (if instant then [] else [an]) ∧
  bool_decide (id ∈ finishEvents w1) = instant ∧
  frames w1 = frames w ∧
  let w2 := exec w1 (Finish id) in
  isOpen w2 i = false ∧ isVisible w2 i = false ∧ animationOf i w2 = None ∧
  (style_height <$> elements w2 !! i) = Some None ∧
  (style_overflow <$> elements w2 !! i) = Some "".
Proof.
  intros Hr Hd He Hopen Hcl Hnone Hrun Hsty Hact w1 id an.
  destruct (reachable_sound w Hr) as [Hc _].
  destruct Hact as [[-> ->]| ->].
  - set (w' := upd_el i (set_style_overflow "hidden") w).
    assert (Hc' : sound w') by (by apply (sound_fields w)).
    assert (He' : elements w' !! i = Some (set_style_overflow "hidden" e)).
    { unfold w'. simpl. by rewrite list_lookup_alter_eq, He. }
    pose proof (shrink_open_section w' i d (set_style_overflow "hidden" e) false
                  Hc' Hd He' Hopen Hnone Hrun Hsty) as H.
    assert (Hw1 : exec w (Click i) = shrink i false w').
    { simpl. rewrite (onClick_unfold w i d e Hd He), Hcl, Hopen. simpl.
      by rewrite orb_true_r. }
    subst w1 id an. rewrite Hw1. exact H.
  - exact (shrink_open_section w i d e instant Hc Hd He Hopen Hnone Hrun Hsty).
Qed.

(** Witness for X13: the section opened by the first click is clicked
    again. *)
Lemma close_open_section_witness :
  let w := run (page [section ∅])
             [Construct 0%nat; Click 0%nat; AnimationFrame; Finish 0%nat] in
  let w1 := exec w (Click 0%nat) in
  let an := {| a_target := 0; a_from := 200; a_to := 40; a_duration := 300;
               a_easing := "ease-in-out"; a_handlers := ByShrink;
               a_playState := Running; a_current := 200 |} in
  animationOf 0 w1 = Some 1%nat ∧ animations w1 !! 1%nat = Some an ∧
  runningOn 0 w1 = [an] ∧
  bool_decide (1%nat ∈ finishEvents w1) = false ∧
  frames w1 = [] ∧
  let w2 := exec w1 (Finish 1%nat) in
  isOpen w2 0 = false ∧ isVisible w2 0 = false ∧ animationOf 0 w2 = None ∧
  (style_height <$> elements w2 !! 0%nat) = Some None ∧
  (style_overflow <$> elements w2 !! 0%nat) = Some "".
Proof.
  refine (close_open_section
            (run (page [section ∅])
               [Construct 0%nat; Click 0%nat; AnimationFrame; Finish 0%nat])
            0%nat
            {| animation := None; isClosing := false; isExpanding := false;
               siblings := [] |}
            (from_option id (section ∅)
               (elements (run (page [section ∅])
                  [Construct 0%nat; Click 0%nat; AnimationFrame; Finish 0%nat])
                !! 0%nat))
            false (Click 0%nat) _ _ _ _ _ _ _ _ _).
  - by eexists _, _.
  - vm_compute. reflexivity.
  - vm_compute. reflexivity.
  - reflexivity.
  - reflexivity.
  - reflexivity.
  - reflexivity.
  - reflexivity.
  - left. split; reflexivity.
Defined.

(** The instant form on the same section: [el.shrink(true)]. *)
Example close_instantly :
  let w := run (page [section ∅])
             [Construct 0%nat; Click 0%nat; AnimationFrame; Finish 0%nat] in
  let w1 := exec w (CallShrink 0%nat true) in
  map (λ an, (a_duration an, a_playState an)) (animations w1)
    = [(300, Finished); (0, Finished)] ∧
  runningOn 0 w1 = [] ∧ finishEvents w1 = [1%nat] ∧ isOpen w1 0 = true ∧
  isOpen (exec w1 (Finish 1%nat)) 0 = false.
Proof. repeat split; vm_compute; reflexivity. Qed.

(** X14. The sibling capture of the constructor's timer holds exactly the
    other children of the element's parent that have the element's tag
    name, each of them once.  So it never holds the element itself, it is
    symmetric ([j] is captured for [i] exactly when [i] is captured for
    [j]), and an element without a parent captures nothing. *)
Theorem captureSiblings_symmetric (w : World) (i j : nat) :
  (j ∈ captureSiblings i w ↔
   j ≠ i ∧ ∃ e ej p, elements w !! i = Some e ∧ parentElement e = Some p ∧
                     elements w !! j = Some ej ∧ parentElement ej = Some p ∧
                     tagName ej = tagName e) ∧
  NoDup (captureSiblings i w) ∧
  (i ∉ captureSiblings i w) ∧
  (j ∈ captureSiblings i w ↔ i ∈ captureSiblings j w) ∧
  ((parentElement <$> elements w !! i) = Some None → captureSiblings i w = []).
Proof.
  split; [apply elem_of_captureSiblings|].
  split.
  { unfold captureSiblings. destruct (elements w !! i) as [e|]; [|constructor].
    destruct (parentElement e); [|constructor].
    apply NoDup_filter, NoDup_seq. }
  split; [rewrite elem_of_captureSiblings; by intros [? _]|].
  split.
  - rewrite !elem_of_captureSiblings. split.
    + intros (Hne & e & ej & p & He & Hp & Hj & Hpj & Htag).
      split; [done|]. by exists ej, e, p.
    + intros (Hne & ej & e & p & Hj & Hpj & He & Hp & Htag).
      split; [done|]. by exists e, ej, p.
  - unfold captureSiblings. destruct (elements w !! i) as [e|]; [|done].
    simpl. intros [= ->]. done.
Qed.

(** The capture on a sample page: two sections and a plain [<details>]
    under one parent, and a [<div>] between them. *)
Example captureSiblings_sample :
  let other := {| parentElement := Some 100%nat; tagName := "DIV";
                  el_open := false; classList := ∅; style_height := None;
                  style_overflow := ""; summaryHeight := 0;
                  contentHeight := 0; closedContentHeight := 0;
                  tableContainers := [] |} in
  let w := page [singleton; other; openSingleton; plainOpen] in
  map (λ i, captureSiblings i w) [0%nat; 1%nat; 2%nat; 3%nat] =
  [[2%nat; 3%nat]; []; [0%nat; 3%nat]; [0%nat; 2%nat]].
Proof. vm_compute. reflexivity. Qed.

(** X15. [open] closes siblings only for a section that has the
    [singleton] class and a captured sibling list that is not empty.
    Otherwise (no class, or an activation before the constructor's timer
    has captured the siblings) it starts no animation, touches no other
    element and no instance, and only queues its own frame callback. *)
Theorem open_without_siblings (w : World) (i : nat) (d : Instance)
  (e : Element) (instant : bool) :
  instances w !! i = Some d → elements w !! i = Some e →
  "singleton" ∉ classList e ∨ siblings d = [] →
  let w1 := open i instant w in
  animations w1 = animations w ∧ instances w1 = instances w ∧
  cancelEvents w1 = cancelEvents w ∧
  frames w1 = frames w ++ [(i, instant)] ∧
  (∀ j, j ≠ i → elements w1 !! j = elements w !! j) ∧
  isOpen w1 i = true.
Proof.
  intros Hd He Hcond w1. unfold w1, open. rewrite Hd, He.
  assert (Hb : bool_decide ("singleton" ∈ classList e)
               && negb (bool_decide (siblings d = [])) = false).
  { destruct Hcond as [Hs| ->].
    - by rewrite bool_decide_eq_false_2.
    - rewrite (bool_decide_eq_true_2 ([] = [])) by done. apply andb_false_r. }
  rewrite Hb. simpl. repeat split.
  - intros j Hj. by rewrite !list_lookup_alter_ne.
  - unfold isOpen. simpl. by rewrite !list_lookup_alter_eq, He.
Qed.

(** Witness for X15: a singleton section clicked before its timer fired,
    next to an open singleton section. *)
Lemma open_without_siblings_witness :
  let w := run (page [singleton; openSingleton])
             [Construct 0%nat; Construct 1%nat] in
  let w1 := open 0 false w in
  animations w1 = animations w ∧ instances w1 = instances w ∧
  cancelEvents w1 = cancelEvents w ∧
  frames w1 = frames w ++ [(0%nat, false)] ∧
  (∀ j, j ≠ 0%nat → elements w1 !! j = elements w !! j) ∧
  isOpen w1 0 = true.
Proof.
  apply (open_without_siblings
           (run (page [singleton; openSingleton])
              [Construct 0%nat; Construct 1%nat])
           0%nat
           {| animation := None; isClosing := false; isExpanding := false;
              siblings := [] |}
           singleton false).
  - vm_compute. reflexivity.
  - reflexivity.
  - right. reflexivity.
Defined.

(** ** Interrupting a transition *)

(** Only timed animations play: an animation of duration 0 is never in the
    play state [running]. *)
Definition timed (w : World) : Prop :=
  ∀ a an, animations w !! a = Some an → a_playState an = Running →
          a_duration an = 300.

Lemma timed_fields w w' : animations w' = animations w → timed w → timed w'.
Proof. intros Ha Ht a an. rewrite Ha. apply Ht. Qed.

Lemma timed_alter w w' a f :
  animations w' = alter f a (animations w) →
  (∀ an, a_playState (f an) = Running →
         a_playState an = Running ∧ a_duration (f an) = a_duration an) →
  timed w → timed w'.
Proof.
  intros Ha Hf Ht k an. rewrite Ha, list_lookup_alter. case_decide; [subst|apply Ht].
  destruct (animations w !! k) as [an0|] eqn:Han0; [|done].
  simpl. intros [= <-] Hrun. destruct (Hf an0 Hrun) as [Hrun0 ->].
  by apply (Ht k an0).
Qed.

Lemma timed_start w w' l i startHeight endHeight instant h :
  animations w' = idled l (animations w) ++
                  [newAnimation i startHeight endHeight instant h] →
  timed w → timed w'.
Proof.
  intros Ha Ht k an. rewrite Ha. intros Han Hrun.
  apply lookup_app_Some in Han as [Han|[_ Han]].
  - rewrite lookup_idled in Han. case_decide.
    + destruct (animations w !! k); simplify_eq/=.
    + by apply (Ht k an).
  - destruct (k - _)%nat as [|n]; [|by destruct n].
    simpl in Han. injection Han as <-. by destruct instant.
Qed.

Lemma timed_shrink i instant w : timed w → timed (shrink i instant w).
Proof.
  intros Ht.
  destruct (instances w !! i) as [d|] eqn:Hd;
    [|by unfold shrink; rewrite Hd].
  destruct (elements w !! i) as [e|] eqn:He;
    [|by unfold shrink; rewrite Hd, He].
  destruct (shrink_spec i instant w d e Hd He) as (_ & _ & _ & Ha & _).
  by apply (timed_start w _ _ _ _ _ _ _ Ha).
Qed.

Lemma timed_expand i instant w : timed w → timed (expand i instant w).
Proof.
  intros Ht.
  destruct (instances w !! i) as [d|] eqn:Hd;
    [|by unfold expand; rewrite Hd].
  destruct (elements w !! i) as [e|] eqn:He;
    [|by unfold expand; rewrite Hd, He].
  destruct (expand_spec i instant w d e Hd He) as (_ & _ & _ & Ha & _).
  by apply (timed_start w _ _ _ _ _ _ _ Ha).
Qed.

Lemma timed_shrinkSiblings instant l w :
  timed w → timed (foldl (shrinkSibling instant) w l).
Proof.
  revert w. induction l as [|j l IH]; intros w Ht; [done|].
  simpl. apply IH. unfold shrinkSibling.
  destruct (instances w !! j); [by apply timed_shrink | done].
Qed.

Lemma timed_open i instant w : timed w → timed (open i instant w).
Proof.
  intros Ht. unfold open.
  destruct (instances w !! i) as [d|]; [|done].
  destruct (elements w !! i) as [e|]; [|done].
  match goal with |- timed (if _ then foldl _ ?w3 _ else _) =>
    assert (Ht3 : timed w3) by (by apply (timed_fields w)) end.
  destruct (_ && _); [by apply timed_shrinkSiblings | done].
Qed.

Lemma timed_exec w ev : timed w → timed (exec w ev).
Proof.
  intros Ht. destruct ev as [i| |i|i instant|i instant| |a h|a|]; simpl.
  - destruct (elements w !! i); [|done]. by destruct (instances w !! i).
  - by destruct (timeouts w).
  - unfold onClick.
    destruct (instances w !! i) as [d|]; [|done].
    destruct (elements w !! i) as [e|]; [|done].
    assert (Ht1 : timed (upd_el i (set_style_overflow "hidden") w))
      by (by apply (timed_fields w)).
    destruct (_ || _); [by apply timed_open|].
    destruct (_ || _); [by apply timed_shrink | done].
  - by apply timed_open.
  - by apply timed_shrink.
  - destruct (frames w) as [|[i instant] q]; [done|].
    apply timed_expand. by apply (timed_fields w).
  - destruct (animations w !! a) as [an|]; [|done].
    destruct (a_playState an); try done.
    by apply (timed_alter w _ a (set_current h)).
  - unfold finish. destruct (animations w !! a) as [an|]; [|done].
    case_bool_decide.
    + destruct (onfinish_fields an
                  (set_finishEvents (filter (λ b, b ≠ a) (finishEvents w)) w))
        as (F1 & _).
      apply (timed_fields w); [by rewrite F1 | done].
    + destruct (a_playState an); try done.
      destruct (onfinish_fields an (upd_anim a (set_playState Finished) w))
        as (F1 & _).
      apply (timed_alter w _ a (set_playState Finished)); [by rewrite F1|done|done].
  - destruct (cancelEvents w) as [|a q]; [done|].
    destruct (animations w !! a) as [an|]; [|done].
    unfold oncancel. by destruct (a_handlers an).
Qed.

Lemma reachable_timed w : reachable w → timed w.
Proof.
  intros (els & evs & ->). unfold run.
  assert (Hp : timed (page els)) by (intros a an Han; by simpl in Han).
  revert Hp. generalize (page els).
  induction evs as [|ev evs IH]; intros w Hw; [done|].
  simpl. apply IH. by apply timed_exec.
Qed.

(** The handle of a section is its newest animation: when it plays, it is
    the one that decides the rendered height. *)
Lemma last_runningOn_handle w i a an :
  newest w → animationOf i w = Some a → animations w !! a = Some an →
  a_target an = i → a_playState an = Running →
  last (runningOn i w) = Some an.
Proof.
  intros Hn Hia Han Htg Hrun. unfold runningOn.
  rewrite <- (take_drop_middle (animations w) a an Han).
  rewrite filter_app, filter_cons_True by done.
  assert (Hpost : filter (λ x, a_target x = i ∧ a_playState x = Running)
                    (drop (S a) (animations w)) = []).
  { destruct (filter _ (drop (S a) (animations w))) as [|x r] eqn:Hf; [done|].
    assert (Hx : x ∈ filter (λ x, a_target x = i ∧ a_playState x = Running)
                   (drop (S a) (animations w))) by (rewrite Hf; left).
    apply list_elem_of_filter in Hx as [[Tx _] Hx].
    apply list_elem_of_lookup in Hx as [k Hk]. rewrite lookup_drop in Hk.
    pose proof (Hn i a _ x Hia Hk Tx). lia. }
  rewrite Hpost. change (filter _ (take a (animations w)) ++ [an])
    with (filter (λ x, a_target x = i ∧ a_playState x = Running)
            (take a (animations w)) ++ [an]).
  apply last_snoc.
Qed.

(** X16. A transition that interrupts another one starts where the
    interrupted one stands.  An animation the instance holds that is
    playing is a timed one (duration 300, never an instant one, which is
    finished when it is created and renders nothing).  [shrink] and
    [expand] read the height that animation currently renders and animate
    from it: to the summary height for [shrink]; for [expand], to the
    summary height plus what the host reports as the height of the content
    (its laid-out height while the element is open).  The interrupted
    animation is idle afterwards and its cancel event is queued. *)
Theorem interrupt_starts_from_current
  (w : World) (i a : nat) (d : Instance) (e : Element) (an : Animation)
  (instant : bool) :
  reachable w →
  instances w !! i = Some d → elements w !! i = Some e →
  animation d = Some a → animations w !! a = Some an →
  a_playState an = Running →
  let id := length (animations w) in
  a_duration an = 300 ∧
  (animations (shrink i instant w) !! id =
     Some (newAnimation i (a_current an) (summaryHeight e) instant ByShrink) ∧
   a_playState <$> animations (shrink i instant w) !! a = Some Idle ∧
   cancelEvents (shrink i instant w) = cancelEvents w ++ [a]) ∧
  (animations (expand i instant w) !! id =
     Some (newAnimation i (a_current an)
             (summaryHeight e +
              (if el_open e then contentHeight e else closedContentHeight e))
             instant ByExpand) ∧
   a_playState <$> animations (expand i instant w) !! a = Some Idle ∧
   cancelEvents (expand i instant w) = cancelEvents w ++ [a]).
Proof.
  intros Hr Hd He Ha Han Hrun id.
  split; [by apply (reachable_timed w Hr a an)|].
  destruct (reachable_sound w Hr) as [(Ho & _ & Hn) _].
  assert (Hai : animationOf i w = Some a).
  { unfold animationOf. by rewrite Hd. }
  destruct (Ho i a Hai) as (an' & Han' & Htg).
  rewrite Han in Han'. injection Han' as <-.
  assert (Hoff : offsetHeight i w = a_current an).
  { unfold offsetHeight.
    by rewrite (last_runningOn_handle w i a an Hn Hai Han Htg Hrun). }
  pose proof (lookup_lt_Some _ _ _ Han) as Hlt.
  assert (Hcancel : ∀ f, animation (f d) = Some a →
            cancelEvents (cancelCurrent i (upd_inst i f w)) = cancelEvents w ++ [a]).
  { intros f Hf. unfold cancelCurrent, animationOf. simpl.
    rewrite lookup_alter_eq, Hd. simpl. rewrite Hf.
    unfold cancel. simpl. rewrite Han, Hrun. done. }
  split.
  - destruct (shrink_spec i instant w d e Hd He) as (_ & _ & _ & E4 & _).
    rewrite E4, Ha, Hoff. split; [|split].
    + apply list_lookup_middle. by rewrite length_idled.
    + rewrite lookup_app_l by (by rewrite length_idled).
      rewrite lookup_idled, decide_True, Han by done. done.
    + unfold shrink. rewrite Hd, He. simpl. by apply (Hcancel (set_isClosing true)).
  - destruct (expand_spec i instant w d e Hd He) as (_ & _ & _ & E4 & _).
    rewrite E4, Ha, Hoff. split; [|split].
    + apply list_lookup_middle. by rewrite length_idled.
    + rewrite lookup_app_l by (by rewrite length_idled).
      rewrite lookup_idled, decide_True, Han by done. done.
    + unfold expand. rewrite Hd, He. simpl. by apply (Hcancel (set_isExpanding true)).
Qed.

(** Witness for X16: an opening section, rendered at height 120, is
    clicked. *)
Lemma interrupt_starts_from_current_witness :
  let w := run (page [section ∅])
             [Construct 0%nat; Click 0%nat; AnimationFrame; Progress 0 120] in
  animations (shrink 0 false w) !! 1%nat =
    Some (newAnimation 0 120 40 false ByShrink).
Proof.
  intros w.
  refine (proj1 (proj1 (proj2 (interrupt_starts_from_current w 0%nat 0%nat
            {| animation := Some 0%nat; isClosing := false;
               isExpanding := true; siblings := [] |}
            (from_option id (section ∅) (elements w !! 0%nat))
            (set_current 120 (newAnimation 0 40 200 false ByExpand))
            false _ _ _ _ _ _)))).
  - by eexists _, _.
  - vm_compute. reflexivity.
  - vm_compute. reflexivity.
  - reflexivity.
  - vm_compute. reflexivity.
  - reflexivity.
Defined.

(** Interrupting an instant transition is different: its animation is
    finished and renders nothing, so the new transition starts from the
    height the element has by its own style, here the inline 40 that
    [open] has set, and not from a keyframe of the interrupted animation.
    The finish event of the cancelled animation stays queued. *)
Example interrupt_instant :
  let w := run (page [section ∅])
             [Construct 0%nat; CallExpand 0%nat true; AnimationFrame] in
  (a_playState <$> animations w !! 0%nat) = Some Finished ∧
  animationOf 0 w = Some 0%nat ∧
  animations (shrink 0 false w) !! 1%nat =
    Some (newAnimation 0 40 40 false ByShrink) ∧
  (a_playState <$> animations (shrink 0 false w) !! 0%nat) = Some Idle ∧
  finishEvents w = [0%nat] ∧ finishEvents (shrink 0 false w) = [0%nat] ∧
  stale (shrink 0 false w) = [0%nat].
Proof. repeat split; vm_compute; reflexivity. Qed.

End DetailsMore.

(** * Cloning attributes *)

Module CloneAttributes.
Import CustomProperty.

(** [value.split(' ')]: the pieces between single spaces; an empty string
    gives one empty piece. *)
Fixpoint split (value : string) : list string :=
  match value with
  | EmptyString => [""]
  | String c rest =>
      if Ascii.eqb c " " then "" :: split rest
      else match split rest with
           | piece :: pieces => String c piece :: pieces
           | [] => [String c ""]
           end
  end.

(** ASCII whitespace, which a class token may not contain and at which a
    [class] value is split into tokens. *)
Definition isAsciiWhitespace (c : ascii) : bool :=
  let n := nat_of_ascii c in
  Nat.eqb n 9 || Nat.eqb n 10 || Nat.eqb n 12 || Nat.eqb n 13 || Nat.eqb n 32.

Fixpoint hasWhitespace (token : string) : bool :=
  match token with
  | EmptyString => false
  | String c rest => isAsciiWhitespace c || hasWhitespace rest
  end.

(** The pieces of a string between ASCII whitespace. *)
Fixpoint pieces (value : string) : list string :=
  match value with
  | EmptyString => [""]
  | String c rest =>
      if isAsciiWhitespace c then "" :: pieces rest
      else match pieces rest with
           | piece :: others => String c piece :: others
           | [] => [String c ""]
           end
  end.

(** Appending tokens to an ordered set. *)
Definition appendTokens (set tokens : list string) : list string :=
  foldl (λ set token, if bool_decide (token ∈ set) then set else set ++ [token])
        set tokens.

(** The ordered set of tokens a [class] value is parsed into, and the
    value an ordered set is serialised as. *)
Definition parseTokens (value : string) : list string :=
  appendTokens [] (filter (λ piece, piece ≠ "") (pieces value)).

Definition serialize (tokens : list string) : string := String.concat " " tokens.

(** ASCII lower case. *)
Definition toLowerChar (c : ascii) : ascii :=
  let n := nat_of_ascii c in
  if Nat.leb 65 n && Nat.leb n 90 then ascii_of_nat (n + 32) else c.

Fixpoint toLower (s : string) : string :=
  match s with
  | EmptyString => EmptyString
  | String c rest => String (toLowerChar c) (toLower rest)
  end.

(** An attribute: its namespace, if it has one, its qualified name
    ([nodeName]) and its value ([nodeValue], never [null]). *)
Record Attr := {
  namespace : option string;
  nodeName : string;
  nodeValue : string;
}.

(** The part of an element the function touches: whether it is an HTML
    element of an HTML document (for which [setAttribute] lower-cases the
    name it is given), and its attribute list, in order. *)
Record Element := {
  html : bool;
  attributes : list Attr;
}.

Definition set_nodeValue (value : string) (a : Attr) : Attr :=
  {| namespace := namespace a; nodeName := nodeName a; nodeValue := value |}.

Definition named (name : string) (a : Attr) : bool := String.eqb (nodeName a) name.

(** The [class] attribute an element's [classList] reflects: the one
    without a namespace. *)
Definition isClass (a : Attr) : bool :=
  bool_decide (namespace a = None) && String.eqb (nodeName a) "class".

(** Give the first attribute that [pick] selects the value; when there is
    none, append a new attribute of that name, without a namespace. *)
Fixpoint setFirst (pick : Attr → bool) (name value : string)
  (attrs : list Attr) : list Attr :=
  match attrs with
  | [] => [{| namespace := None; nodeName := name; nodeValue := value |}]
  | a :: rest =>
      if pick a then set_nodeValue value a :: rest
      else a :: setFirst pick name value rest
  end.

(** The value of the first attribute with a given qualified name. *)
Definition attributeValue (name : string) (node : Element) : option string :=
  nodeValue <$> List.find (named name) (attributes node).

Definition classValue (node : Element) : option string :=
  nodeValue <$> List.find isClass (attributes node).

(** [node.classList], as a list of tokens. *)
Definition classList (node : Element) : list string :=
  parseTokens (default "" (classValue node)).

(** The first token [DOMTokenList.add] rejects, by the name of the
    exception: tokens are checked in order, each for being empty and then
    for holding whitespace. *)
Fixpoint firstInvalid (tokens : list string) : option string :=
  match tokens with
  | [] => None
  | token :: tokens =>
      if String.eqb token "" then Some "SyntaxError"
      else if hasWhitespace token then Some "InvalidCharacterError"
      else firstInvalid tokens
  end.

(** Host [DOMTokenList.add(...tokens)]: after the check, every token the
    set does not hold yet is appended, and the [class] attribute is set to
    the serialised set (it is created when the element has none). *)
Definition classList_add (tokens : list string) (node : Element)
  : Result Element :=
  match firstInvalid tokens with
  | Some exception => Throw exception
  | None =>
      let updated := appendTokens (classList node) tokens in
      if bool_decide (classValue node = None) && bool_decide (updated = [])
      then Ok node
      else Ok {| html := html node;
                 attributes := setFirst isClass "class" (serialize updated)
                                 (attributes node) |}
  end.

(** The name under which [setAttribute] stores a value. *)
Definition targetName (isHtml : bool) (name : string) : string :=
  if isHtml then toLower name else name.

Section Host.

(** Which names [setAttribute] accepts is the host's rule (the DOM
    standard has changed it); names that a parser has produced, such as
    [=foo], need not pass it. *)
Variable validName : string → bool.

(** Host [setAttribute(name, value)]. *)
Definition setAttribute (name value : string) (node : Element)
  : Result Element :=
  if validName name then
    let name := targetName (html node) name in
    Ok {| html := html node;
          attributes := setFirst (named name) name value (attributes node) |}
  else Throw "InvalidCharacterError".

(** The [exclusions] argument: absent, one name, or a list of names. *)
Inductive Exclusions :=
  | Undefined
  | OneName (name : string)
  | Names (names : list string).

Definition normalize (exclusions : Exclusions) : list string :=
  match exclusions with
  | Undefined => []
  | OneName name => [name]
  | Names names => names
  end.

Definition includes (names : list string) (name : string) : bool :=
  bool_decide (name ∈ names).

(** What the body of the [forEach] does to [toNode] for one attribute. *)
Definition copy (exclusions : list string) (attr : Attr) (toNode : Element)
  : Result Element :=
  if negb (includes exclusions (nodeName attr)) then
    if String.eqb (nodeName attr) "class"
    then classList_add (split (nodeValue attr)) toNode
    else setAttribute (nodeName attr) (nodeValue attr) toNode
  else Ok toNode.

(** Body of the [forEach] over the snapshot [Array.from(fromNode.attributes)]:
    the [k]-th attribute object of [fromNode] is read as it is now, and
    [toNode] is updated in the document. *)
Definition cloneAttribute (fromNode toNode : nat) (exclusions : list string)
  (document : Result (list Element)) (k : nat) : Result (list Element) :=
  match document with
  | Throw exception => Throw exception
  | Ok elements =>
      match elements !! fromNode ≫= (λ f, attributes f !! k),
            elements !! toNode with
      | Some attr, Some node =>
          match copy exclusions attr node with
          | Ok node' => Ok (<[toNode := node']> elements)
          | Throw exception => Throw exception
          end
      | _, _ => Ok elements
      end
  end.

(** [cloneAttributes(fromNode, toNode, exclusions)] on two elements of a
    document, which may be one and the same element. *)
Definition cloneAttributes (fromNode toNode : nat) (exclusions : Exclusions)
  (elements : list Element) : Result (list Element) :=
  foldl (cloneAttribute fromNode toNode (normalize exclusions)) (Ok elements)
    (seq 0 (length (from_option attributes [] (elements !! fromNode)))).

End Host.

End CloneAttributes.

(** * Properties of [cloneAttributes] *)

Module CloneAttributesFacts.
Import CustomProperty CloneAttributes.

Example split_examples :
  map split ["a b"; ""; "a  b"; " a"; "a "] =
  [["a"; "b"]; [""]; ["a"; ""; "b"]; [""; "a"]; ["a"; ""]].
Proof. reflexivity. Qed.

Example parseTokens_examples :
  map parseTokens ["a b"; ""; " a  b a "; "x"] =
  [["a"; "b"]; []; ["a"; "b"]; ["x"]].
Proof. vm_compute. reflexivity. Qed.

Example firstInvalid_examples :
  map firstInvalid [["a"; "b"]; ["a"; ""]; [String "009" "a"; ""]; [""; String "009" "a"]] =
  [None; Some "SyntaxError"; Some "InvalidCharacterError"; Some "SyntaxError"].
Proof. reflexivity. Qed.

Example toLower_example : toLower "viewBox" = "viewbox".
Proof. reflexivity. Qed.

(** The tokens of a class value that [classList.add] accepts. *)
Definition validTokens (tokens : list string) : Prop :=
  Forall (λ token, token ≠ "" ∧ hasWhitespace token = false) tokens.

Lemma firstInvalid_None tokens : firstInvalid tokens = None ↔ validTokens tokens.
Proof.
  unfold validTokens. induction tokens as [|t tokens IH]; simpl.
  - split; [constructor | done].
  - destruct (String.eqb t "") eqn:Ht.
    + apply String.eqb_eq in Ht. split; [done|].
      intros H. apply Forall_cons in H as [[? _] _]. done.
    + apply String.eqb_neq in Ht. destruct (hasWhitespace t) eqn:Hw.
      * split; [done|]. intros H. apply Forall_cons in H as [[_ ?] _].
        congruence.
      * rewrite IH. split.
        -- intros H. by constructor.
        -- intros H. by apply Forall_cons in H as [_ ?].
Qed.

Section Host.

Variable validName : string → bool.

(** The body of the [forEach] applied to one target element for a list of
    attributes. *)
Definition copyAll (exclusions : list string) (attrs : list Attr)
  (toNode : Result Element) : Result Element :=
  foldl (λ node attr,
           match node with
           | Ok node => copy validName exclusions attr node
           | Throw exception => Throw exception
           end) toNode attrs.

Lemma copyAll_Throw exclusions attrs exception :
  copyAll exclusions attrs (Throw exception) = Throw exception.
Proof. induction attrs as [|a attrs IH]; [done|]. simpl. exact IH. Qed.

Lemma cloneAttribute_Throw fromNode toNode exclusions exception ks :
  foldl (cloneAttribute validName fromNode toNode exclusions) (Throw exception) ks
  = Throw exception.
Proof. induction ks as [|k ks IH]; [done|]. simpl. exact IH. Qed.

(** For two different elements the source is not changed by the loop, and
    the loop is the copy of the source's attribute list onto the target. *)
Lemma cloneAttributes_distinct fromNode toNode exclusions elements f t :
  fromNode ≠ toNode →
  elements !! fromNode = Some f → elements !! toNode = Some t →
  cloneAttributes validName fromNode toNode exclusions elements =
  match copyAll (normalize exclusions) (attributes f) (Ok t) with
  | Ok t' => Ok (<[toNode := t']> elements)
  | Throw exception => Throw exception
  end.
Proof.
  intros Hne Hf Ht. unfold cloneAttributes. rewrite Hf. simpl.
  generalize (normalize exclusions). intros excl.
  assert (Hgen : ∀ post pre els t0,
    attributes f = pre ++ post →
    els !! fromNode = Some f → els !! toNode = Some t0 →
    foldl (cloneAttribute validName fromNode toNode excl) (Ok els)
      (seq (length pre) (length post)) =
    match copyAll excl post (Ok t0) with
    | Ok t' => Ok (<[toNode := t']> els)
    | Throw exception => Throw exception
    end).
  { induction post as [|a post IH]; intros pre els t0 Hsplit Hf0 Ht0.
    - simpl. by rewrite list_insert_id.
    - simpl. rewrite Hf0, Ht0. simpl.
      rewrite Hsplit, list_lookup_middle by done.
      destruct (copy validName excl a t0) as [t1|exception] eqn:Hcopy.
      + replace (S (length pre)) with (length (pre ++ [a]))
          by (rewrite length_app; simpl; lia).
        rewrite (IH (pre ++ [a]) (<[toNode := t1]> els) t1).
        * destruct (copyAll excl post (Ok t1)); [|done].
          by rewrite list_insert_insert_eq.
        * by rewrite <- app_assoc.
        * by rewrite list_lookup_insert_ne.
        * apply list_lookup_insert_eq. by apply lookup_lt_Some in Ht0.
      + by rewrite cloneAttribute_Throw, copyAll_Throw. }
  apply (Hgen (attributes f) [] elements t); done.
Qed.

(** The exception the copy of one attribute ends with, if any.  It does
    not depend on the target. *)
Definition rejection (exclusions : list string) (attr : Attr) : option string :=
  if includes exclusions (nodeName attr) then None
  else if String.eqb (nodeName attr) "class"
       then firstInvalid (split (nodeValue attr))
       else if validName (nodeName attr) then None
            else Some "InvalidCharacterError".

Lemma copy_rejection exclusions attr node :
  match rejection exclusions attr with
  | Some exception => copy validName exclusions attr node = Throw exception
  | None => ∃ node', copy validName exclusions attr node = Ok node'
  end.
Proof.
  unfold rejection, copy.
  destruct (includes exclusions (nodeName attr)); simpl; [by eexists|].
  destruct (String.eqb (nodeName attr) "class").
  - unfold classList_add. destruct (firstInvalid _); [done|].
    destruct (_ && _); by eexists.
  - unfold setAttribute. destruct (validName _); [by eexists | done].
Qed.

Lemma copyAll_rejection exclusions attrs node :
  match head (omap (rejection exclusions) attrs) with
  | Some exception => copyAll exclusions attrs (Ok node) = Throw exception
  | None => ∃ node', copyAll exclusions attrs (Ok node) = Ok node'
  end.
Proof.
  revert node. induction attrs as [|a attrs IH]; intros node; simpl.
  - by eexists.
  - pose proof (copy_rejection exclusions a node) as Hc.
    destruct (rejection exclusions a) as [exception|]; simpl.
    + rewrite Hc. apply copyAll_Throw.
    + destruct Hc as [node' ->]. apply IH.
Qed.

Lemma rejection_Some exclusions attr :
  is_Some (rejection exclusions attr) ↔
  (nodeName attr ∉ exclusions) ∧
  (nodeName attr = "class" ∧ ¬ validTokens (split (nodeValue attr)) ∨
   nodeName attr ≠ "class" ∧ validName (nodeName attr) = false).
Proof.
  unfold rejection, includes.
  destruct (decide (nodeName attr ∈ exclusions)) as [Hex|Hex].
  - rewrite (bool_decide_eq_true_2 _ Hex). split; [by intros [? ?]|].
    by intros [? _].
  - rewrite (bool_decide_eq_false_2 _ Hex).
    destruct (String.eqb (nodeName attr) "class") eqn:Hname.
    + apply String.eqb_eq in Hname. rewrite <- firstInvalid_None.
      split.
      * intros [e He]. split; [done|]. left. split; [done|]. congruence.
      * intros [_ [[_ Hv]|[Hn _]]]; [|done].
        destruct (firstInvalid _); [by eexists | done].
    + apply String.eqb_neq in Hname. destruct (validName (nodeName attr)).
      * split; [by intros [? ?]|]. intros [_ [[? _]|[_ ?]]]; done.
      * split; [|by eexists]. intros _. split; [done|]. by right.
Qed.

Lemma head_omap_Some {A B} (f : A → option B) (l : list A) :
  is_Some (head (omap f l)) ↔ ∃ x, x ∈ l ∧ is_Some (f x).
Proof.
  induction l as [|x l IH]; simpl.
  - split; [by intros [? ?]|]. intros (x & Hx & _). by inversion Hx.
  - destruct (f x) as [y|] eqn:Hfx; simpl.
    + split; [|by eexists]. intros _. exists x. split; [left|]. by rewrite Hfx.
    + rewrite IH. split.
      * intros (z & Hz & Hfz). exists z. split; [by right | done].
      * intros (z & Hz & Hfz). apply elem_of_cons in Hz as [->|Hz].
        -- rewrite Hfx in Hfz. by destruct Hfz.
        -- by exists z.
Qed.

(** X17. For two different elements, [cloneAttributes] throws exactly when
    the source has an attribute outside the exclusions that the target's
    host methods reject: a [class] attribute whose value, split at single
    spaces, has an empty piece (an empty value, a leading, trailing or
    doubled space) or a piece holding other whitespace, or an attribute of
    another name that [setAttribute] does not accept as a name.  The first
    such attribute of the source decides the exception, and within a
    [class] value the first such piece does. *)
Theorem cloneAttributes_throws_iff (fromNode toNode : nat)
  (exclusions : Exclusions) (elements : list Element) (f : Element) :
  fromNode ≠ toNode →
  elements !! fromNode = Some f → is_Some (elements !! toNode) →
  ((∃ exception,
      cloneAttributes validName fromNode toNode exclusions elements
      = Throw exception) ↔
   ∃ attr, attr ∈ attributes f ∧ (nodeName attr ∉ normalize exclusions) ∧
           (nodeName attr = "class" ∧ ¬ validTokens (split (nodeValue attr)) ∨
            nodeName attr ≠ "class" ∧ validName (nodeName attr) = false)) ∧
  (∀ exception,
     cloneAttributes validName fromNode toNode exclusions elements
     = Throw exception ↔
     head (omap (rejection (normalize exclusions)) (attributes f))
     = Some exception).
Proof.
  intros Hne Hf [t Ht].
  rewrite (cloneAttributes_distinct _ _ _ _ f t Hne Hf Ht).
  pose proof (copyAll_rejection (normalize exclusions) (attributes f) t) as Hr.
  assert (Hkind : ∀ exception,
    match copyAll (normalize exclusions) (attributes f) (Ok t) with
    | Ok t' => Ok (<[toNode := t']> elements)
    | Throw exception => Throw exception
    end = Throw exception ↔
    head (omap (rejection (normalize exclusions)) (attributes f))
    = Some exception).
  { intros exception.
    destruct (head (omap _ (attributes f))) as [e|].
    - rewrite Hr. split; intros [= ->]; done.
    - destruct Hr as [t' ->]. done. }
  split; [|exact Hkind].
  transitivity (is_Some (head (omap (rejection (normalize exclusions))
                                 (attributes f)))).
  - split.
    + intros [exception He]. apply Hkind in He. by eexists.
    + intros [exception He]. exists exception. by apply Hkind.
  - rewrite head_omap_Some. split.
    + intros (attr & Hin & Hs). apply rejection_Some in Hs as [? ?].
      by exists attr.
    + intros (attr & Hin & Hex & Hcase). exists attr. split; [done|].
      by apply rejection_Some.
Qed.

(** ** What a call that returns has written *)

Lemma find_setFirst pick name value attrs :
  pick {| namespace := None; nodeName := name; nodeValue := value |} = true →
  (∀ a, pick (set_nodeValue value a) = pick a) →
  nodeValue <$> List.find pick (setFirst pick name value attrs) = Some value.
Proof.
  intros Hnew Hset. induction attrs as [|a attrs IH]; simpl.
  - by rewrite Hnew.
  - destruct (pick a) eqn:Ha; simpl.
    + by rewrite Hset, Ha.
    + by rewrite Ha.
Qed.

Lemma find_setFirst_other pick q name value attrs :
  (∀ a, pick a = true → q a = false) →
  q {| namespace := None; nodeName := name; nodeValue := value |} = false →
  (∀ a, q (set_nodeValue value a) = q a) →
  nodeValue <$> List.find q (setFirst pick name value attrs)
  = nodeValue <$> List.find q attrs.
Proof.
  intros Hpick Hnew Hset. induction attrs as [|a attrs IH]; simpl.
  - by rewrite Hnew.
  - destruct (pick a) eqn:Ha; simpl.
    + by rewrite Hset, (Hpick a Ha).
    + by destruct (q a).
Qed.

Lemma named_neq name name' a : named name a = true → name ≠ name' → named name' a = false.
Proof.
  unfold named. intros H Hne. apply String.eqb_eq in H.
  apply String.eqb_neq. congruence.
Qed.

Lemma isClass_named a : isClass a = true → named "class" a = true.
Proof. unfold isClass, named. by intros [_ ?]%andb_true_iff. Qed.

Lemma named_not_class name a : named name a = true → name ≠ "class" → isClass a = false.
Proof.
  intros H Hne. destruct (isClass a) eqn:Hc; [|done].
  apply isClass_named in Hc. by rewrite (named_neq name "class" a H Hne) in Hc.
Qed.

Lemma setAttribute_spec name value node node' :
  setAttribute validName name value node = Ok node' →
  html node' = html node ∧
  attributeValue (targetName (html node) name) node' = Some value ∧
  (∀ other, other ≠ targetName (html node) name →
     attributeValue other node' = attributeValue other node) ∧
  (targetName (html node) name ≠ "class" → classValue node' = classValue node).
Proof.
  unfold setAttribute. destruct (validName name); [|done]. intros [= <-].
  unfold attributeValue, classValue. simpl. split_and!; [done|..].
  - apply find_setFirst; [|done]. unfold named. simpl. apply String.eqb_refl.
  - intros other Hne. apply find_setFirst_other; [| |done].
    + intros a Ha. by apply (named_neq _ _ a Ha).
    + unfold named. simpl. by apply String.eqb_neq.
  - intros Hne. apply find_setFirst_other; [| |done].
    + intros a Ha. by apply (named_not_class _ a Ha).
    + unfold isClass. simpl. by apply String.eqb_neq.
Qed.

(** *** Token sets *)

Lemma appendTokens_app set tokens more :
  appendTokens set (tokens ++ more) = appendTokens (appendTokens set tokens) more.
Proof. apply foldl_app. Qed.

Lemma appendTokens_cons set token tokens :
  appendTokens set (token :: tokens) =
  appendTokens (if bool_decide (token ∈ set) then set else set ++ [token]) tokens.
Proof. done. Qed.

Lemma elem_of_appendTokens set tokens token :
  token ∈ appendTokens set tokens ↔ token ∈ set ∨ token ∈ tokens.
Proof.
  revert set. induction tokens as [|t tokens IH]; intros set.
  - simpl. split; [by left|]. intros [?|H]; [done | by inversion H].
  - rewrite appendTokens_cons, IH, elem_of_cons. case_bool_decide as Hin.
    + split; [intros [?|?]; auto|]. intros [?|[->|?]]; auto.
    + rewrite elem_of_app, list_elem_of_singleton. tauto.
Qed.

Lemma appendTokens_NoDup set tokens : NoDup set → NoDup (appendTokens set tokens).
Proof.
  revert set. induction tokens as [|t tokens IH]; intros set Hset; [done|].
  rewrite appendTokens_cons. apply IH. case_bool_decide as Hin; [done|].
  apply NoDup_app. split_and!; [done| |apply NoDup_singleton].
  intros x Hx ->%list_elem_of_singleton. done.
Qed.

Lemma appendTokens_prefix set tokens : set `prefix_of` appendTokens set tokens.
Proof.
  revert set. induction tokens as [|t tokens IH]; intros set; [done|].
  rewrite appendTokens_cons. case_bool_decide; [apply IH|].
  etrans; [|apply IH]. by apply prefix_app_r.
Qed.

Lemma appendTokens_valid set tokens :
  validTokens set → validTokens tokens → validTokens (appendTokens set tokens).
Proof.
  unfold validTokens. intros Hs Ht. apply Forall_forall. intros x Hx.
  apply elem_of_appendTokens in Hx as [Hx|Hx];
    [by apply (proj1 (Forall_forall _ _) Hs) | by apply (proj1 (Forall_forall _ _) Ht)].
Qed.

Lemma appendTokens_fresh set tokens :
  NoDup (set ++ tokens) → appendTokens set tokens = set ++ tokens.
Proof.
  revert set. induction tokens as [|t tokens IH]; intros set Hnd.
  - simpl. by rewrite app_nil_r.
  - rewrite appendTokens_cons.
    apply NoDup_app in Hnd as (Hs & Hdis & Ht).
    apply NoDup_cons in Ht as [Hnt Ht].
    rewrite bool_decide_eq_false_2.
    + rewrite IH; [by rewrite <- app_assoc|].
      apply NoDup_app. split_and!; [| |done].
      * apply NoDup_app. split_and!; [done| |apply NoDup_singleton].
        intros x Hx ->%list_elem_of_singleton. apply (Hdis _ Hx). left.
      * intros x [Hx| ->%list_elem_of_singleton]%elem_of_app Hin; [|done].
        apply (Hdis _ Hx). by right.
    + intros Hin. apply (Hdis _ Hin). left.
Qed.

Lemma pieces_noWhitespace value :
  Forall (λ piece, hasWhitespace piece = false) (pieces value).
Proof.
  induction value as [|c rest IH]; simpl.
  - by repeat constructor.
  - destruct (isAsciiWhitespace c) eqn:Hc; [by constructor|].
    destruct (pieces rest) as [|piece others];
      [constructor; [simpl; by rewrite Hc | constructor]|].
    apply Forall_cons in IH as [Hp Ho]. constructor; [|done].
    simpl. by rewrite Hc.
Qed.

Lemma parseTokens_valid value :
  validTokens (parseTokens value) ∧ NoDup (parseTokens value).
Proof.
  unfold parseTokens. split; [|apply appendTokens_NoDup; constructor].
  apply appendTokens_valid; [constructor|].
  unfold validTokens. apply Forall_forall. intros x [Hx Hin]%list_elem_of_filter.
  split; [done|].
  by apply (proj1 (Forall_forall _ _) (pieces_noWhitespace value)).
Qed.

Lemma pieces_token token : hasWhitespace token = false → pieces token = [token].
Proof.
  induction token as [|c rest IH]; simpl; [done|].
  intros [Hc Hr]%orb_false_iff. rewrite Hc, (IH Hr). done.
Qed.

Lemma pieces_append token rest :
  hasWhitespace token = false →
  pieces (token +:+ String " " rest) = token :: pieces rest.
Proof.
  induction token as [|c token IH]; simpl; [done|].
  intros [Hc Hr]%orb_false_iff. rewrite Hc, (IH Hr). done.
Qed.

Lemma pieces_serialize tokens :
  tokens ≠ [] → Forall (λ token, hasWhitespace token = false) tokens →
  pieces (serialize tokens) = tokens.
Proof.
  unfold serialize. induction tokens as [|t tokens IH]; [done|].
  intros _ [Ht Hts]%Forall_cons. destruct tokens as [|t' tokens].
  - simpl. by apply pieces_token.
  - change (String.concat " " (t :: t' :: tokens))
      with (t +:+ String " " (String.concat " " (t' :: tokens))).
    rewrite (pieces_append _ _ Ht), IH; done.
Qed.

(** Parsing what has been serialised gives the token set back. *)
Lemma parseTokens_serialize tokens :
  validTokens tokens → NoDup tokens → parseTokens (serialize tokens) = tokens.
Proof.
  intros Hv Hnd. unfold parseTokens. destruct tokens as [|t tokens]; [done|].
  rewrite pieces_serialize; [|done|].
  - rewrite DetailsFacts.filter_all.
    + by apply appendTokens_fresh.
    + intros x Hx. by apply (proj1 (Forall_forall _ _) Hv x Hx).
  - eapply Forall_impl; [exact Hv|]. by intros x [_ ?].
Qed.

Lemma split_not_nil value : split value ≠ [].
Proof.
  destruct value as [|c rest]; simpl; [done|].
  destruct (Ascii.eqb c " "); [done|]. by destruct (split rest).
Qed.

Lemma classList_valid node : validTokens (classList node) ∧ NoDup (classList node).
Proof. apply parseTokens_valid. Qed.

Lemma classList_add_spec tokens node node' :
  tokens ≠ [] →
  classList_add tokens node = Ok node' →
  html node' = html node ∧
  classList node' = appendTokens (classList node) tokens ∧
  classValue node' = Some (serialize (classList node')) ∧
  (∀ other, other ≠ "class" →
     attributeValue other node' = attributeValue other node).
Proof.
  intros Hne. unfold classList_add.
  destruct (firstInvalid tokens) eqn:Hvalid; [done|].
  apply firstInvalid_None in Hvalid.
  destruct (classList_valid node) as [Hv Hnd].
  assert (Hupd : appendTokens (classList node) tokens ≠ []).
  { destruct tokens as [|t tokens]; [done|]. intros Hnil.
    assert (Hin : t ∈ appendTokens (classList node) (t :: tokens))
      by (apply elem_of_appendTokens; right; left).
    rewrite Hnil in Hin. by inversion Hin. }
  rewrite (bool_decide_eq_false_2 _ Hupd), andb_false_r. intros [= <-].
  assert (Hvalue : classValue
            {| html := html node;
               attributes := setFirst isClass "class"
                 (serialize (appendTokens (classList node) tokens))
                 (attributes node) |}
          = Some (serialize (appendTokens (classList node) tokens))).
  { unfold classValue. simpl. by apply find_setFirst. }
  assert (Hlist : classList
            {| html := html node;
               attributes := setFirst isClass "class"
                 (serialize (appendTokens (classList node) tokens))
                 (attributes node) |}
          = appendTokens (classList node) tokens).
  { unfold classList at 1. rewrite Hvalue. simpl.
    apply parseTokens_serialize;
      [by apply appendTokens_valid | by apply appendTokens_NoDup]. }
  split_and!; [done|done|by rewrite Hlist|].
  intros other Hother. unfold attributeValue. simpl.
  apply find_setFirst_other; [| |done].
  - intros a Ha. apply isClass_named in Ha. by apply (named_neq _ _ a Ha).
  - unfold named. cbn [nodeName]. apply String.eqb_neq. congruence.
Qed.

(** *** The loop *)

(** The source attributes the loop copies, those it writes with
    [setAttribute], and those it merges into the class list. *)
Definition copied (exclusions : list string) (attrs : list Attr) : list Attr :=
  filter (λ a, nodeName a ∉ exclusions) attrs.

Definition written (exclusions : list string) (attrs : list Attr) : list Attr :=
  filter (λ a, nodeName a ≠ "class") (copied exclusions attrs).

Definition merged (exclusions : list string) (attrs : list Attr) : list Attr :=
  filter (λ a, nodeName a = "class") (copied exclusions attrs).

Lemma written_cons exclusions a attrs :
  written exclusions (a :: attrs) =
  if decide ((nodeName a ∉ exclusions) ∧ nodeName a ≠ "class")
  then a :: written exclusions attrs else written exclusions attrs.
Proof.
  unfold written, copied. rewrite filter_cons.
  destruct (decide (nodeName a ∉ exclusions)) as [Hex|Hex].
  - rewrite filter_cons. destruct (decide (nodeName a ≠ "class")).
    + by rewrite decide_True.
    + rewrite decide_False; [done | tauto].
  - rewrite decide_False; [done | tauto].
Qed.

Lemma merged_cons exclusions a attrs :
  merged exclusions (a :: attrs) =
  if decide ((nodeName a ∉ exclusions) ∧ nodeName a = "class")
  then a :: merged exclusions attrs else merged exclusions attrs.
Proof.
  unfold merged, copied. rewrite filter_cons.
  destruct (decide (nodeName a ∉ exclusions)) as [Hex|Hex].
  - rewrite filter_cons. destruct (decide (nodeName a = "class")).
    + by rewrite decide_True.
    + rewrite decide_False; [done | tauto].
  - rewrite decide_False; [done | tauto].
Qed.

Lemma copy_cases exclusions a node :
  copy validName exclusions a node =
  if decide ((nodeName a ∉ exclusions) ∧ nodeName a = "class")
  then classList_add (split (nodeValue a)) node
  else if decide ((nodeName a ∉ exclusions) ∧ nodeName a ≠ "class")
       then setAttribute validName (nodeName a) (nodeValue a) node
       else Ok node.
Proof.
  unfold copy, includes.
  destruct (decide (nodeName a ∈ exclusions)) as [Hex|Hex].
  - rewrite (bool_decide_eq_true_2 _ Hex). simpl.
    rewrite !decide_False; [done | tauto | tauto].
  - rewrite (bool_decide_eq_false_2 _ Hex). simpl.
    destruct (String.eqb (nodeName a) "class") eqn:Hname.
    + apply String.eqb_eq in Hname. by rewrite decide_True.
    + apply String.eqb_neq in Hname.
      rewrite decide_False by tauto. by rewrite decide_True.
Qed.

Lemma copyAll_cons exclusions a attrs node :
  copyAll exclusions (a :: attrs) (Ok node)
  = copyAll exclusions attrs (copy validName exclusions a node).
Proof. done. Qed.

Lemma copyAll_written exclusions attrs node node' :
  copyAll exclusions attrs (Ok node) = Ok node' →
  html node' = html node ∧
  ∀ name, name ≠ "class" →
    attributeValue name node' =
    match last (filter (λ a, targetName (html node) (nodeName a) = name)
                  (written exclusions attrs)) with
    | Some a => Some (nodeValue a)
    | None => attributeValue name node
    end.
Proof.
  revert node. induction attrs as [|a attrs IH]; intros node Hc.
  - injection Hc as <-. done.
  - rewrite copyAll_cons in Hc.
    destruct (copy validName exclusions a node) as [node1|e] eqn:H1;
      [|by rewrite copyAll_Throw in Hc].
    apply IH in Hc as [Hh Hv]. rewrite copy_cases in H1.
    rewrite written_cons.
    destruct (decide ((nodeName a ∉ exclusions) ∧ nodeName a = "class"))
      as [[Hex Hclass]|Hnc].
    + apply classList_add_spec in H1 as (Hh1 & _ & _ & Hv1);
        [|apply split_not_nil].
      rewrite decide_False by tauto.
      split; [congruence|]. intros name Hname.
      by rewrite (Hv name Hname), Hh1, (Hv1 name Hname).
    + destruct (decide ((nodeName a ∉ exclusions) ∧ nodeName a ≠ "class"))
        as [[Hex Hclass]|Hnw].
      * apply setAttribute_spec in H1 as (Hh1 & Hset & Hother & _).
        split; [congruence|]. intros name Hname.
        rewrite (Hv name Hname), Hh1, filter_cons.
        destruct (decide (targetName (html node) (nodeName a) = name))
          as [<-|Hne].
        -- rewrite last_cons, Hset. by destruct (last _).
        -- by rewrite Hother.
      * injection H1 as <-. done.
Qed.

Lemma copyAll_merged exclusions attrs node node' :
  copyAll exclusions attrs (Ok node) = Ok node' →
  (∀ a, a ∈ written exclusions attrs →
        targetName (html node) (nodeName a) ≠ "class") →
  classList node' =
    appendTokens (classList node)
      (concat (map (λ a, split (nodeValue a)) (merged exclusions attrs))) ∧
  classValue node' =
    if bool_decide (merged exclusions attrs = []) then classValue node
    else Some (serialize (classList node')).
Proof.
  revert node. induction attrs as [|a attrs IH]; intros node Hc Hw.
  - injection Hc as <-. done.
  - rewrite copyAll_cons in Hc.
    destruct (copy validName exclusions a node) as [node1|e] eqn:H1;
      [|by rewrite copyAll_Throw in Hc].
    rewrite copy_cases in H1. rewrite written_cons in Hw.
    rewrite merged_cons.
    destruct (decide ((nodeName a ∉ exclusions) ∧ nodeName a = "class"))
      as [[Hex Hclass]|Hnc].
    + apply classList_add_spec in H1 as (Hh1 & Hl1 & Hc1 & _);
        [|apply split_not_nil].
      rewrite decide_False in Hw by tauto.
      apply IH in Hc as [Hl Hcv]; [|by rewrite Hh1].
      simpl. rewrite appendTokens_app, <- Hl1. split; [done|].
      rewrite Hcv. case_bool_decide as Hm; [|done].
      rewrite Hl, Hm. done.
    + destruct (decide ((nodeName a ∉ exclusions) ∧ nodeName a ≠ "class"))
        as [[Hex Hclass]|Hnw].
      * apply setAttribute_spec in H1 as (Hh1 & _ & _ & Hkeep).
        assert (Hcv1 : classValue node1 = classValue node)
          by (apply Hkeep, Hw; left).
        apply IH in Hc as [Hl Hcv];
          [|intros b Hb; rewrite Hh1; apply Hw; by right].
        unfold classList at 2 in Hl. rewrite Hcv1 in Hl, Hcv. done.
      * injection H1 as <-. by apply IH.
Qed.

(** X18. When [cloneAttributes] on two different elements returns, only
    the target has changed.  Every source attribute other than [class]
    whose name is not excluded has been written with [setAttribute], under
    its name in ASCII lower case when the target is an HTML element: the
    first attribute of the target with a name other than [class] has the
    value of the last source attribute written under it, and its old value
    when there is none.  Every source [class] that is not excluded has
    been merged, not copied: the target's class list is its old one with
    the pieces of the source values appended in order, each once, and its
    [class] attribute holds that list joined by single spaces; the target's
    [class] is as it was when no source [class] is copied.  The statement
    on the class list is for sources none of whose written attributes
    lands on the name [class] itself. *)
Theorem cloneAttributes_copies (fromNode toNode : nat) (exclusions : Exclusions)
  (elements elements' : list Element) (f t : Element) :
  fromNode ≠ toNode →
  elements !! fromNode = Some f → elements !! toNode = Some t →
  cloneAttributes validName fromNode toNode exclusions elements = Ok elements' →
  ∃ t', elements' = <[toNode := t']> elements ∧ html t' = html t ∧
    (∀ name, name ≠ "class" →
       attributeValue name t' =
       match last (filter (λ a, targetName (html t) (nodeName a) = name)
                     (written (normalize exclusions) (attributes f))) with
       | Some a => Some (nodeValue a)
       | None => attributeValue name t
       end) ∧
    ((∀ a, a ∈ written (normalize exclusions) (attributes f) →
           targetName (html t) (nodeName a) ≠ "class") →
     classList t' =
       appendTokens (classList t)
         (concat (map (λ a, split (nodeValue a))
                    (merged (normalize exclusions) (attributes f)))) ∧
     classValue t' =
       if bool_decide (merged (normalize exclusions) (attributes f) = [])
       then classValue t else Some (serialize (classList t'))).
Proof.
  intros Hne Hf Ht Hclone.
  rewrite (cloneAttributes_distinct _ _ _ _ f t Hne Hf Ht) in Hclone.
  destruct (copyAll (normalize exclusions) (attributes f) (Ok t))
    as [t'|e] eqn:Hcopy; [|done].
  injection Hclone as <-. exists t'.
  destruct (copyAll_written _ _ _ _ Hcopy) as [Hh Hv].
  split_and!; [done|done|done|].
  intros Hw. by apply copyAll_merged.
Qed.

End Host.

(** A host whose [setAttribute] accepts the names that are not empty and
    hold no ASCII whitespace, [/], [>], [=] or NUL. *)
Definition hostName (name : string) : bool :=
  negb (String.eqb name "") &&
  forallb (λ c, negb (isAsciiWhitespace c ||
                      bool_decide (c ∈ ["/"; ">"; "="; "000"]%char)))
          (list_ascii_of_string name).

Definition attr (name value : string) : Attr :=
  {| namespace := None; nodeName := name; nodeValue := value |}.

(** An SVG element and an HTML element of an HTML document. *)
Definition svg : Element :=
  {| html := false;
     attributes := [attr "id" "a"; attr "viewBox" "0 0 1 1";
                    attr "class" "x y"; attr "title" "t"] |}.

Definition div : Element :=
  {| html := true; attributes := [attr "id" "b"; attr "class" "y  z"] |}.

Example cloneAttributes_sample :
  cloneAttributes hostName 0 1 (OneName "id") [svg; div] =
  Ok [svg; {| html := true;
              attributes := [attr "id" "b"; attr "class" "y z x";
                             attr "viewbox" "0 0 1 1"; attr "title" "t"] |}].
Proof. vm_compute. reflexivity. Qed.

(** Witness for X17. *)
Lemma cloneAttributes_throws_iff_witness :
  let parsed := {| html := true; attributes := [attr "=x" "1"] |} in
  (∃ exception,
     cloneAttributes hostName 0 1 Undefined [parsed; div] = Throw exception) ∧
  cloneAttributes hostName 0 1 Undefined [parsed; div]
  = Throw "InvalidCharacterError".
Proof.
  pose proof (cloneAttributes_throws_iff hostName 0 1 Undefined
                [{| html := true; attributes := [attr "=x" "1"] |}; div]
                {| html := true; attributes := [attr "=x" "1"] |}
                (ltac:(lia)) eq_refl (ltac:(by eexists))) as [Hiff Hkind].
  split.
  - apply Hiff. exists (attr "=x" "1"). split; [left|].
    split; [by intros H; inversion H|]. right. split; [done|].
    vm_compute. reflexivity.
  - apply Hkind. vm_compute. reflexivity.
Defined.

(** Witness for X18. *)
Lemma cloneAttributes_copies_witness :
  ∃ t', cloneAttributes hostName 0 1 (OneName "id") [svg; div] = Ok [svg; t'] ∧
        attributeValue "viewbox" t' = Some "0 0 1 1" ∧
        attributeValue "viewBox" t' = None ∧
        attributeValue "id" t' = Some "b" ∧
        classList t' = ["y"; "z"; "x"] ∧
        classValue t' = Some "y z x".
Proof.
  destruct (cloneAttributes_copies hostName 0 1 (OneName "id") [svg; div]
              [svg; {| html := true;
                       attributes := [attr "id" "b"; attr "class" "y z x";
                                      attr "viewbox" "0 0 1 1";
                                      attr "title" "t"] |}]
              svg div (ltac:(lia)) eq_refl eq_refl
              (ltac:(vm_compute; reflexivity)))
    as (t' & Hdoc & Hhtml & Hvalues & Hclass).
  exists t'. cbn in Hdoc. injection Hdoc as <-.
  split; [vm_compute; reflexivity|].
  split; [exact (Hvalues "viewbox" (ltac:(done)))|].
  split; [exact (Hvalues "viewBox" (ltac:(done)))|].
  split; [exact (Hvalues "id" (ltac:(done)))|].
  assert (Hall : Forall (λ a, targetName true (nodeName a) ≠ "class")
                        (written ["id"] (attributes svg)))
    by (apply (bool_decide_unpack _); vm_compute; exact I).
  apply Hclass. intros a Ha. exact (proj1 (Forall_forall _ _) Hall a Ha).
Defined.

(** A source attribute whose name is not [class] but is written under it:
    on an HTML target [setAttribute] lower-cases [CLASS], and the value
    replaces the target's classes instead of being merged. *)
Remark uppercase_class_replaces :
  cloneAttributes hostName 0 1 Undefined
    [{| html := false; attributes := [attr "CLASS" "q"] |}; div] =
  Ok [{| html := false; attributes := [attr "CLASS" "q"] |};
      {| html := true; attributes := [attr "id" "b"; attr "class" "q"] |}].
Proof. vm_compute. reflexivity. Qed.

(** Cloning an element onto itself rewrites its [class] as the serialised
    token set. *)
Example cloneAttributes_onto_itself :
  cloneAttributes hostName 0 0 Undefined
    [{| html := true; attributes := [attr "class" "b a b"; attr "id" "i"] |}] =
  Ok [{| html := true; attributes := [attr "class" "b a"; attr "id" "i"] |}].
Proof. vm_compute. reflexivity. Qed.

(** The exception is that of the first rejected piece of the first
    rejected attribute. *)
Example cloneAttributes_first_exception :
  map (λ value, cloneAttributes hostName 0 1 Undefined
                  [{| html := true;
                      attributes := [attr "class" value; attr "=x" "1"] |}; div])
      ["a  b"; String "009" "b "; ""; "a b"] =
  [Throw "SyntaxError"; Throw "InvalidCharacterError"; Throw "SyntaxError";
   Throw "InvalidCharacterError"].
Proof. vm_compute. reflexivity. Qed.

End CloneAttributesFacts.

(** * Scroll metrics and scroll animation *)

Module Scroll.

Open Scope Z_scope.

(** The scroll offsets the getters read, in whole pixels. *)
Record Window := {
  pageYOffset : Z;
  pageXOffset : Z;
  scrollTop : Z;
  scrollLeft : Z;
}.

(** [a || b] on numbers: [0] is falsy. *)
Definition orElse (a b : Z) : Z := if a =? 0 then b else a.

Definition y (w : Window) : Z := orElse (pageYOffset w) (scrollTop w).
Definition x (w : Window) : Z := orElse (pageXOffset w) (scrollLeft w).

(** The module variables [_y] and [_x]: [false] until the first read of
    [direction], a number afterwards. *)
Record Last := {
  _y : option Z;
  _x : option Z;
}.

Definition initial : Last := {| _y := None; _x := None |}.

(** [false] compares as [0]. *)
Definition asNumber (v : option Z) : Z := default 0 v.

(** [results.join(' ')] for at most two words. *)
Definition join (results : list string) : string :=
  match results with
  | [] => ""
  | [a] => a
  | a :: b :: _ => a +:+ " " +:+ b
  end.

(** The getter [direction]: the words, and the updated module variables. *)
Definition direction (w : Window) (last : Last) : string * Last :=
  let y := y w in
  let v := if y <? asNumber (_y last) then Some "up"
           else if asNumber (_y last) <? y then Some "down" else None in
  let results := match v with Some word => [word] | None => [] end in
  let new_y := if y <=? 0 then 0 else y in
  let x := x w in
  let h := if x <? asNumber (_x last) then Some "left"
           else if asNumber (_x last) <? x then Some "right" else None in
  let results := match h with Some word => results ++ [word] | None => results end in
  let new_x := if x <=? 0 then 0 else x in
  (join results, {| _y := Some new_y; _x := Some new_x |}).

(** ** [Scroll.to] *)

(** A JavaScript number as [options.duration] can hold it: a finite value,
    an infinity, or NaN. *)
Inductive Duration :=
  | Finite (q : QArith_base.Q)
  | PosInfinity
  | NegInfinity
  | NaN.

(** [currentTime < duration] for a whole [currentTime]; a comparison with
    NaN is false. *)
Definition below (currentTime : Z) (duration : Duration) : bool :=
  match duration with
  | Finite q => negb (QArith_base.Qle_bool q (QArith_base.inject_Z currentTime))
  | PosInfinity => true
  | NegInfinity | NaN => false
  end.

(** [duration === 0], and the falsy durations: [0] and NaN. *)
Definition isZero (duration : Duration) : bool :=
  match duration with
  | Finite q => QArith_base.Qeq_bool q (QArith_base.inject_Z 0)
  | _ => false
  end.

Definition falsy (duration : Duration) : bool :=
  match duration with
  | NaN => true
  | _ => isZero duration
  end.

(** The JavaScript number nearest to a whole number [n] that is not
    negative, ties to even: whole numbers below [2^53] are exact. *)
Definition toDouble (n : Z) : Z :=
  if n <? 2 ^ 53 then n
  else
    let ulp := 2 ^ (Z.log2 n - 52) in
    let q := n / ulp in
    let r := n mod ulp in
    if 2 * r <? ulp then q * ulp
    else if ulp <? 2 * r then (q + 1) * ulp
    else if Z.even q then q * ulp else (q + 1) * ulp.

Section To.

(** Positions are JavaScript numbers.  The arithmetic on them, their
    truthiness and [easeInOutQuad] are the host's floating-point
    operations; [currentTime] is a whole number of milliseconds. *)
Variable Number : Type.
Variable zero : Number.
Variable add sub : Number → Number → Number.
Variable truthy : Number → bool.
Variable easeInOutQuad : Z → Number → Number → Duration → Number.

Record Options := {
  container : option (option Number);  (* an element, by its scrollTop; or null *)
  duration : option Duration;
  offset : option Number;
  position : option Number;
  callback : bool;
}.

(** What a call has done once its last timer has run: the values assigned
    to [container.scrollTop], in order, whether the promise is resolved,
    and how often the callback was called. *)
Record Outcome := {
  assigned : list Number;
  resolved : bool;
  callbackCalls : nat;
}.

Definition orNumber (a : Number) (b : Number) : Number :=
  if truthy a then a else b.

(** [animateScroll], one activation per unit of fuel: the first runs
    inside [to], every later one from a timer.  [None]: after that many
    activations another timer is pending. *)
Fixpoint animateScroll (fuel : nat) (hasContainer : bool)
  (startPosition change : Number) (duration : Duration) (hasCallback : bool)
  (currentTime : Z) : option Outcome :=
  match fuel with
  | O => None
  | S fuel =>
      let currentTime := toDouble (currentTime + 20) in
      let val := easeInOutQuad currentTime startPosition change duration in
      let written := if hasContainer then [val] else [] in
      if below currentTime duration then
        (λ o, {| assigned := written ++ assigned o; resolved := resolved o;
                 callbackCalls := callbackCalls o |})
        <$> animateScroll fuel hasContainer startPosition change duration
              hasCallback currentTime
      else
        Some {| assigned := written; resolved := true;
                callbackCalls := if hasCallback then 1 else 0 |}
  end.

(** [options.duration || 500], and [0] when the option is exactly [0]. *)
Definition effectiveDuration (options : Options) : Duration :=
  match duration options with
  | Some d =>
      if isZero d then Finite (QArith_base.inject_Z 0)
      else if falsy d then Finite (QArith_base.inject_Z 500)
      else d
  | None => Finite (QArith_base.inject_Z 500)
  end.

(** [Scroll.to(target, options)]; [target] is the element by the [top] of
    its bounding rectangle, [scrollingElement] is
    [document.scrollingElement]. *)
Definition to (fuel : nat) (scrollingElement : option Number)
  (target : option Number) (options : Options) : option Outcome :=
  match target with
  | None => Some {| assigned := []; resolved := false; callbackCalls := 0 |}
  | Some top =>
      let container :=
        match container options with
        | Some (Some c) => Some c
        | _ => scrollingElement
        end in
      let duration := effectiveDuration options in
      let offset := offset options in
      let position := default zero (position options) in
      let containerTop := orNumber (default zero container) zero in
      let endPosition := orNumber position (add top containerTop) in
      let startPosition := containerTop in
      let change :=
        match offset with
        | Some o => if truthy o then add (sub endPosition startPosition) o
                    else sub endPosition startPosition
        | None => sub endPosition startPosition
        end in
      animateScroll fuel (bool_decide (is_Some container)) startPosition change
        duration (callback options) 0
  end.

End To.

End Scroll.

Module ScrollFacts.
Import Scroll.
Open Scope Z_scope.

(** X19. [direction] reports movement since the previous read and is
    consumed by reading: with offsets that are not negative, a second read
    without scrolling in between returns the empty string and leaves the
    remembered position as it is.  The first read on a page that is
    already scrolled down reports ["down"], because the remembered
    position starts as [false]. *)
Theorem direction_consumed (w : Window) (last : Last) :
  0 ≤ y w → 0 ≤ x w →
  let first := direction w last in
  (direction w first.2).1 = "" ∧
  (direction w first.2).2 = first.2 ∧
  (0 < y w → x w = 0 → (direction w initial).1 = "down").
Proof.
  intros Hy Hx first. unfold first, direction. simpl.
  assert (Hny : (if y w <=? 0 then 0 else y w) = y w).
  { destruct (Z.leb_spec (y w) 0); lia. }
  assert (Hnx : (if x w <=? 0 then 0 else x w) = x w).
  { destruct (Z.leb_spec (x w) 0); lia. }
  rewrite Hny, Hnx, !Z.ltb_irrefl. simpl. split; [done|]. split; [done|].
  intros Hpos Hzero. rewrite Hzero. simpl.
  destruct (Z.ltb_spec (y w) 0); [lia|].
  destruct (Z.ltb_spec 0 (y w)); [done | lia].
Qed.

(** Witness for X19. *)
Lemma direction_consumed_witness :
  let w := {| pageYOffset := 0; pageXOffset := 0; scrollTop := 120;
              scrollLeft := 0 |} in
  let first := direction w initial in
  (direction w first.2).1 = "" ∧
  (direction w first.2).2 = first.2 ∧
  (0 < 120 → 0 = 0 → (direction w initial).1 = "down").
Proof.
  apply (direction_consumed
           {| pageYOffset := 0; pageXOffset := 0; scrollTop := 120;
              scrollLeft := 0 |} initial).
  - vm_compute. discriminate.
  - vm_compute. discriminate.
Defined.

(** The whole number below which the elapsed time continues the chain:
    the ceiling of a finite duration; no time is below NaN or -Infinity. *)
Definition limit (duration : Duration) : Z :=
  match duration with
  | Finite q => Qround.Qceiling q
  | _ => 0
  end.

Lemma below_limit (currentTime : Z) (duration : Duration) :
  duration ≠ PosInfinity → 0 ≤ currentTime →
  below currentTime duration = (currentTime <? limit duration).
Proof.
  intros Hd Ht. destruct duration as [q| | |]; simpl; try done.
  - destruct (Z.ltb_spec currentTime (Qround.Qceiling q)) as [Hlt|Hge].
    + apply negb_true_iff, not_true_iff_false. intros Hle.
      apply QArith_base.Qle_bool_iff in Hle.
      pose proof (Qround.Qceiling_lt q) as Hc.
      assert (Hx : QArith_base.Qle (QArith_base.inject_Z currentTime)
                     (QArith_base.inject_Z (Qround.Qceiling q - 1))).
      { rewrite <- QArith_base.Zle_Qle. lia. }
      eapply QArith_base.Qlt_irrefl.
      eapply QArith_base.Qlt_le_trans; [exact Hc|].
      eapply QArith_base.Qle_trans; [exact Hle | exact Hx].
    + apply negb_false_iff, QArith_base.Qle_bool_iff.
      eapply QArith_base.Qle_trans; [apply Qround.Qle_ceiling|].
      rewrite <- QArith_base.Zle_Qle. lia.
  - symmetry. apply Z.ltb_ge. lia.
  - symmetry. apply Z.ltb_ge. lia.
Qed.

Lemma toDouble_exact (n : Z) : n < 2 ^ 53 → toDouble n = n.
Proof.
  intros Hn. unfold toDouble.
  destruct (Z.ltb_spec n (2 ^ 53)); [done | lia].
Qed.

(** Beyond [2^58] an increment of 20 is lost in the rounding. *)
Example toDouble_stuck : toDouble (2 ^ 58 + 20) = 2 ^ 58.
Proof. vm_compute. reflexivity. Qed.

Section To.

Variable Number : Type.
Variable zero : Number.
Variable add sub : Number → Number → Number.
Variable truthy : Number → bool.
Variable easeInOutQuad : Z → Number → Number → Duration → Number.

(** Number of activations of [animateScroll] from time [currentTime] on,
    for a duration with the given limit. *)
Definition activations (limit currentTime : Z) : nat :=
  Z.to_nat (Z.max 1 ((limit - currentTime + 19) / 20)).

Lemma activations_more limit currentTime :
  currentTime + 20 < limit →
  activations limit currentTime = S (activations limit (currentTime + 20)).
Proof.
  intros Hlt. unfold activations.
  replace (limit - currentTime + 19)
    with ((limit - (currentTime + 20) + 19) + 1 * 20) by lia.
  rewrite Z.div_add by lia.
  assert (1 ≤ (limit - (currentTime + 20) + 19) / 20).
  { apply Z.div_le_lower_bound; lia. }
  lia.
Qed.

Lemma activations_last limit currentTime :
  limit ≤ currentTime + 20 → activations limit currentTime = 1%nat.
Proof.
  intros Hge. unfold activations.
  assert ((limit - currentTime + 19) / 20 < 2).
  { apply Z.div_lt_upper_bound; lia. }
  lia.
Qed.

Lemma animateScroll_runs (fuel : nat) (hasContainer : bool)
  (startPosition change : Number) (duration : Duration) (hasCallback : bool)
  (currentTime : Z) :
  duration ≠ PosInfinity → limit duration + 20 ≤ 2 ^ 53 →
  0 ≤ currentTime → currentTime + 20 < 2 ^ 53 →
  (activations (limit duration) currentTime ≤ fuel)%nat →
  animateScroll Number easeInOutQuad fuel hasContainer startPosition change
    duration hasCallback currentTime =
  Some {| assigned :=
            if hasContainer
            then map (λ k, easeInOutQuad (currentTime + 20 * Z.of_nat k)
                             startPosition change duration)
                   (seq 1 (activations (limit duration) currentTime))
            else [];
          resolved := true;
          callbackCalls := if hasCallback then 1 else 0 |}.
Proof.
  intros Hd Hmax. revert currentTime.
  induction fuel as [|fuel IH]; intros currentTime Hpos Hexact Hfuel.
  - unfold activations in Hfuel. lia.
  - simpl. rewrite (toDouble_exact _ Hexact).
    rewrite (below_limit _ _ Hd) by lia.
    destruct (Z.ltb_spec (currentTime + 20) (limit duration)) as [Hlt|Hge].
    + rewrite (activations_more _ _ Hlt) in *.
      rewrite IH by lia. simpl. f_equal. f_equal.
      destruct hasContainer; [|done]. simpl.
      replace (currentTime + 20 * 1) with (currentTime + 20) by lia. f_equal.
      rewrite <- (seq_shift (activations (limit duration) (currentTime + 20)) 1),
        map_map.
      apply map_ext. intros k. f_equal. lia.
    + rewrite (activations_last _ _ Hge). simpl.
      replace (currentTime + 20 * 1) with (currentTime + 20) by lia.
      done.
Qed.

(** With a duration of [Infinity] every activation arms another timer. *)
Lemma animateScroll_endless (fuel : nat) (hasContainer : bool)
  (startPosition change : Number) (hasCallback : bool) (currentTime : Z) :
  animateScroll Number easeInOutQuad fuel hasContainer startPosition change
    PosInfinity hasCallback currentTime = None.
Proof.
  revert currentTime. induction fuel as [|fuel IH]; intros currentTime; [done|].
  simpl. by rewrite IH.
Qed.

(** X20. Whether [Scroll.to] on an element finishes is decided by the
    duration alone.  With a duration of [Infinity] it never does: every
    activation of [animateScroll] arms another timer, the promise is never
    resolved and the callback never called.  With any other duration (up
    to [2^53 - 20] ms, where the elapsed time is exact) [animateScroll]
    runs once inside the call and then from a timer every 20 ms while the
    elapsed time is below the duration: [max 1 (ceil (duration / 20))]
    activations in all, also for a duration of [0] or below.  Each
    activation assigns one value of the same easing curve (fixed start and
    change, elapsed time 20, 40, ...) to the container's [scrollTop], or
    nothing when there is no container; after the last one the promise is
    resolved and the callback, when given, is called exactly once. *)
Theorem to_finishes (fuel : nat) (scrollingElement : option Number)
  (top : Number) (options : Options Number) :
  let d := effectiveDuration Number options in
  let n := activations (limit d) 0 in
  (d = PosInfinity →
   to Number zero add sub truthy easeInOutQuad fuel scrollingElement
     (Some top) options = None) ∧
  (d ≠ PosInfinity → limit d + 20 ≤ 2 ^ 53 → (n ≤ fuel)%nat →
   ∃ outcome startPosition change,
     to Number zero add sub truthy easeInOutQuad fuel scrollingElement
       (Some top) options = Some outcome ∧
     resolved Number outcome = true ∧
     callbackCalls Number outcome = (if callback Number options then 1 else 0)%nat ∧
     (assigned Number outcome =
        map (λ k, easeInOutQuad (20 * Z.of_nat k) startPosition change d)
          (seq 1 n) ∨
      assigned Number outcome = [] ∧ scrollingElement = None ∧
      ∀ c, container Number options ≠ Some (Some c))).
Proof.
  intros d n.
  set (c := match container Number options with
            | Some (Some c) => Some c
            | _ => scrollingElement
            end).
  set (startPosition :=
         orNumber Number truthy (default zero c) zero).
  set (endPosition :=
         orNumber Number truthy (default zero (position Number options))
           (add top startPosition)).
  set (change :=
         match offset Number options with
         | Some o => if truthy o then add (sub endPosition startPosition) o
                     else sub endPosition startPosition
         | None => sub endPosition startPosition
         end).
  assert (Hto : to Number zero add sub truthy easeInOutQuad fuel
                  scrollingElement (Some top) options =
                animateScroll Number easeInOutQuad fuel
                  (bool_decide (is_Some c)) startPosition change d
                  (callback Number options) 0) by reflexivity.
  split.
  - intros Hinf. rewrite Hto, Hinf. apply animateScroll_endless.
  - intros Hd Hmax Hfuel.
    rewrite animateScroll_runs in Hto by (try done; lia).
    eexists _, startPosition, change. split; [exact Hto|]. simpl.
    split; [done|]. split; [done|].
    destruct c as [c0|] eqn:Hc.
    + left. by rewrite bool_decide_eq_true_2 by eauto.
    + right. rewrite bool_decide_eq_false_2 by (by intros [? ?]).
      split; [done|]. unfold c in Hc.
      destruct (container Number options) as [[c1|]|]; try done.
      all: split; [done|]; intros c2; done.
Qed.

End To.

(** Witness for X20: the default duration of 500 gives 25 assignments;
    positions are kept as the times they were eased at. *)
Lemma to_finishes_witness :
  ∃ outcome,
    to Z 0 Z.add Z.sub (λ n, negb (n =? 0)) (λ t _ _ _, t) 25 (Some 0)
      (Some 300)
      {| container := None; duration := None; offset := None;
         position := None; callback := true |} = Some outcome ∧
    resolved Z outcome = true ∧ callbackCalls Z outcome = 1%nat ∧
    length (assigned Z outcome) = 25%nat.
Proof.
  destruct (to_finishes Z 0 Z.add Z.sub (λ n, negb (n =? 0)) (λ t _ _ _, t)
              25 (Some 0) 300
              {| container := None; duration := None; offset := None;
                 position := None; callback := true |})
    as [_ Hfin].
  destruct Hfin as (outcome & st & ch & Hto & Hres & Hcb & Hassigned).
  - discriminate.
  - vm_compute. discriminate.
  - vm_compute. lia.
  - exists outcome. split; [exact Hto|]. split; [exact Hres|].
    split; [exact Hcb|].
    destruct Hassigned as [-> | [_ [Hnone _]]]; [|discriminate].
    rewrite length_map, length_seq. reflexivity.
Defined.

(** Durations that are not whole, are zero, or are not numbers at all: a
    duration of 50.5 ms takes three activations, a duration of NaN is
    replaced by 500, and a duration of [Infinity] is kept. *)
Example effectiveDuration_samples :
  let options d := {| container := None; duration := Some d; offset := None;
                      position := None; callback := false |} in
  activations (limit (effectiveDuration Z (options (Finite (QArith_base.Qmake 101 2))))) 0
    = 3%nat ∧
  activations (limit (effectiveDuration Z (options (Finite (QArith_base.Qmake 0 1))))) 0
    = 1%nat ∧
  effectiveDuration Z (options NaN) = Finite (QArith_base.inject_Z 500) ∧
  effectiveDuration Z (options PosInfinity) = PosInfinity ∧
  activations (limit (effectiveDuration Z (options NegInfinity))) 0 = 1%nat.
Proof. repeat split; vm_compute; reflexivity. Qed.

End ScrollFacts.

(** * Setting and removing a custom property *)

Module CustomPropertyRoundTrip.
Import CustomProperty.

Section Numbers.

Variable Number : Type.

(** The property names an inline style may declare after the calls it has
    received: [setProperty] may declare its name, [removeProperty] drops
    its name. *)
Definition declarable (calls : list (StyleCall Number)) : gset string :=
  foldl (λ names c,
           match c with
           | setProperty name _ => {[name]} ∪ names
           | removeProperty name => names ∖ {[name]}
           end) ∅ calls.

Lemma declarable_snoc calls c :
  declarable (calls ++ [c]) =
  match c with
  | setProperty name _ => {[name]} ∪ declarable calls
  | removeProperty name => declarable calls ∖ {[name]}
  end.
Proof. unfold declarable. by rewrite foldl_app. Qed.

Lemma declarable_forEach_remove (names : list string)
  (st : list (StyleCall Number)) (k : string) :
  k ∈ declarable
        (foldl (λ st' property, st' ++ [removeProperty (customName property)])
           st names) ↔
  k ∈ declarable st ∧ ∀ property, property ∈ names → k ≠ customName property.
Proof.
  revert st. induction names as [|n names IH]; intros st; simpl.
  - split; [|by intros [? _]]. intros Hk. split; [done|].
    intros ? H. by inversion H.
  - rewrite IH, declarable_snoc, elem_of_difference, elem_of_singleton. split.
    + intros [[Hk Hn] Hall]. split; [done|].
      intros property Hin. apply elem_of_cons in Hin as [->|Hin]; [done|].
      by apply Hall.
    + intros [Hk Hall]. split; [split; [done|]|].
      * apply Hall. left.
      * intros property Hin. apply Hall. by right.
Qed.

Lemma declarable_forEach_set (m : PropertyMap Number)
  (st : list (StyleCall Number)) (k : string) :
  k ∈ declarable
        (foldl (λ st' '(property, v), st' ++ [setProperty (customName property) v])
           st m) ↔
  k ∈ declarable st ∨ ∃ property, property ∈ m.*1 ∧ k = customName property.
Proof.
  revert st. induction m as [|[n v] m IH]; intros st; simpl.
  - split; [by left|]. intros [Hk|(? & H & _)]; [done|]. by inversion H.
  - rewrite IH, declarable_snoc, elem_of_union, elem_of_singleton. split.
    + intros [[->|Hk]|(property & Hin & ->)].
      * right. exists n. split; [left|done].
      * by left.
      * right. exists property. split; [by right|done].
    + intros [Hk|(property & Hin & ->)]; [by left; right|].
      apply elem_of_cons in Hin as [->|Hin]; [by left; left|].
      right. by exists property.
Qed.

(** X21. Setting a map of custom properties on a target with [style] and
    then removing the same names leaves the inline style declaring exactly
    what it could declare before, less the custom properties named:
    [removeCustomProperty] reaches every name [setCustomProperty] wrote,
    and touches no other declaration. *)
Theorem set_then_remove (target : Target Number) (m : PropertyMap Number)
  (st : list (StyleCall Number)) :
  style Number target = Some st →
  ∃ set st',
    setCustomProperty Number target (Map m) None = Ok set ∧
    style Number (removeCustomProperty Number set m.*1) = Some st' ∧
    ∀ k, k ∈ declarable st' ↔
         k ∈ declarable st ∧
         ∀ property, property ∈ m.*1 → k ≠ customName property.
Proof.
  intros Hst. unfold setCustomProperty, removeCustomProperty.
  rewrite Hst. simpl. eexists _, _. split; [reflexivity|].
  split; [reflexivity|]. intros k.
  rewrite declarable_forEach_remove, declarable_forEach_set. split.
  - intros [[Hk|(property & Hin & ->)] Hall]; [done|].
    by destruct (Hall property Hin).
  - intros [Hk Hall]. split; [by left|done].
Qed.

End Numbers.

Lemma set_then_remove_witness :
  ∃ set st',
    setCustomProperty string
      {| style := Some [setProperty "color" (VString "red")];
         getPropertyValue := λ _, "" |}
      (Map [("gap", VString "4px"); ("--size", VString "2em")]) None = Ok set ∧
    style string (removeCustomProperty string set ["gap"; "--size"]) = Some st' ∧
    ∀ k, k ∈ declarable string st' ↔
         k ∈ declarable string [setProperty "color" (VString "red")] ∧
         ∀ property, property ∈ ["gap"; "--size"] → k ≠ customName property.
Proof.
  apply (set_then_remove string
           {| style := Some [setProperty "color" (VString "red")];
              getPropertyValue := λ _, "" |}
           [("gap", VString "4px"); ("--size", VString "2em")]).
  reflexivity.
Defined.

End CustomPropertyRoundTrip.
